(** * BHex.js: a hexagonal grid with range and path search

    A shallow embedding of BHex.Core.js (axial and cube coordinates, cells,
    the grid, neighbours, distance, [getRange], [findPath]) and of the
    rounding rule of BHex.Drawing.js.

    Conventions of the embedding.
    - Grid coordinates are integers ([Z]).  Every other JavaScript number
      (costs, scores, budgets, fractional cube coordinates) is an exact
      rational ([Q]); NaN and the infinities are not represented.
    - A JavaScript object used as a map ([closedHexes], [visitedNodes]) is an
      association list keyed by the string [getKey] builds; it keeps insertion
      order, which is the order [for ... in] enumerates such keys.
    - Search nodes are mutable objects shared between the heap, the visited
      map and the parent links.  They live in a store (a list indexed by the
      allocation number of the node); the heap, the maps and the parent links
      hold indices into it. *)

From Stdlib Require Import ZArith QArith Qround Qabs String Ascii Bool Lia Lqa.
From Stdlib Require Import DecimalString DecimalZ Decimal List Permutation.
Import ListNotations.

Local Open Scope Z_scope.

(** ** JavaScript values and truthiness *)

(** The values a caller can hand to an untyped parameter. *)
Inductive value : Type :=
| VUndefined
| VNull
| VBool (b : bool)
| VNum (q : Q)
| VStr (s : string)
| VObject.

(** ToBoolean: [undefined], [null], [false], [0] and the empty string are
    falsy, everything else is truthy. *)
Definition truthy (v : value) : bool :=
  match v with
  | VUndefined | VNull => false
  | VBool b => b
  | VNum q => negb (Qeq_bool q 0)
  | VStr s => negb (String.eqb s EmptyString)
  | VObject => true
  end.

(** How a call completes: normally with a value, or by throwing. *)
Inductive completion (A : Type) : Type :=
| Normal (a : A)
| Throw (msg : string).
Arguments Normal {A} a.
Arguments Throw {A} msg.

Definition Qlt_bool (a b : Q) : bool := negb (Qle_bool b a).

(** ** Coordinates *)

Record Axial : Type := mkAxial { ax : Z; ay : Z }.

Record Cube : Type := mkCube { cx : Z; cy : Z; cz : Z }.

(** Decimal rendering of an integer, as string concatenation renders it. *)
Definition string_of_Z (n : Z) : string := NilEmpty.string_of_int (Z.to_int n).

(** [this.x + "x" + this.y] *)
Definition getKey (a : Axial) : string :=
  (string_of_Z (ax a) ++ "x" ++ string_of_Z (ay a))%string.

(** [new BHex.Cube(x, y, z)]: [this.z = z || -x-y]. *)
Definition Cube_new (x y z : Z) : Cube :=
  mkCube x y (if z =? 0 then - x - y else z).

(** [new BHex.Cube(this.x, -this.x - this.y, this.y)] *)
Definition toCube (a : Axial) : Cube :=
  Cube_new (ax a) (- ax a - ay a) (ay a).

(** [new BHex.Axial(this.x, this.z)] *)
Definition toAxial (c : Cube) : Axial := mkAxial (cx c) (cz c).

(** [this.x == other.x && this.y == other.y] *)
Definition compareTo (a other : Axial) : bool :=
  (ax a =? ax other) && (ay a =? ay other).

(** ** Cells *)

Record Hexagon : Type := mkHexagon {
  pos : Axial;
  cost : Q;
  blocked : bool
}.

(** [new BHex.Hexagon(x, y, cost, blocked)].  The cost parameter is an optional
    number ([None] when the argument is left out); the blocked parameter is any
    value.  [this.cost = (cost) ? cost : 1; this.blocked = !!blocked]. *)
Definition Hexagon_new (x y : Z) (cost : option Q) (blocked : value) : Hexagon :=
  {| pos := mkAxial x y;
     cost := match cost with
             | Some c => if truthy (VNum c) then c else 1%Q
             | None => 1%Q
             end;
     blocked := negb (negb (truthy blocked)) |}.

(** ** The grid *)

Record Grid : Type := mkGrid {
  radius : Z;
  hexes : list Hexagon
}.

(** The integers [lo, lo+1, ..., hi] a [for] loop with [<=] runs through. *)
Definition range (lo hi : Z) : list Z :=
  map (fun i => lo + Z.of_nat i) (seq 0 (Z.to_nat (hi - lo + 1))).

(** [new BHex.Grid(radius)]: three nested loops over [-radius..radius], a cell
    [(x, y)] pushed for every triple with [x + y + z == 0]. *)
Definition Grid_new (radius : Z) : Grid :=
  {| radius := if radius =? 0 then 0 else radius;
     hexes :=
       flat_map (fun x =>
         flat_map (fun y =>
           flat_map (fun z =>
             if x + y + z =? 0 then [Hexagon_new x y None VUndefined] else [])
             (range (- radius) radius))
           (range (- radius) radius))
         (range (- radius) radius) |}.

(** Neither constructor has a [throw]: a call always completes normally. *)
Definition construct_Hexagon (x y : Z) (cost : option Q) (blocked : value)
  : completion Hexagon := Normal (Hexagon_new x y cost blocked).

Definition construct_Grid (radius : Z) : completion Grid :=
  Normal (Grid_new radius).

(** [hexes.some(...)]: the first cell whose coordinates equal those of [a]. *)
Definition getHexAt (g : Grid) (a : Axial) : option Hexagon :=
  find (fun h => compareTo (pos h) a) (hexes g).

(** The six candidate positions, in the order the source lists them. *)
Definition directions (a : Axial) : list Axial :=
  [ mkAxial (ax a + 1) (ay a); mkAxial (ax a + 1) (ay a - 1);
    mkAxial (ax a) (ay a - 1); mkAxial (ax a - 1) (ay a);
    mkAxial (ax a - 1) (ay a + 1); mkAxial (ax a) (ay a + 1) ].

(** [directions.forEach(d => { var h = grid.getHexAt(d); if (h) neighbors.push(h) })] *)
Definition getNeighbors (g : Grid) (a : Axial) : list Hexagon :=
  fold_left (fun neighbors d =>
               match getHexAt g d with
               | Some h => neighbors ++ [h]
               | None => neighbors
               end) (directions a) [].

(** The integer [|ax-bx| + |ax+ay-bx-by| + |ay-by|] that [getDistance] halves. *)
Definition distance_sum (a b : Axial) : Z :=
  Z.abs (ax a - ax b) + Z.abs (ax a + ay a - ax b - ay b) + Z.abs (ay a - ay b).

Definition getDistance (a b : Axial) : Q := (inject_Z (distance_sum a b) / 2)%Q.

(** ** Rounding of fractional cube coordinates (BHex.Drawing.js) *)

Module Drawing.

Local Open Scope Q_scope.

(** A cube coordinate before rounding: its components are any numbers. *)
Record Cube : Type := mkCube { x : Q; y : Q; z : Q }.

(** [Math.round]: the nearest integer, halves going up. *)
Definition Math_round (q : Q) : Q := inject_Z (Qfloor (q + (1 # 2))).

Definition round (this : Cube) : Cube :=
  let cx := x this in
  let cy := y this in
  let cz := z this in
  let rx := Math_round cx in
  let ry := Math_round cy in
  let rz := Math_round cz in
  let x_diff := Qabs (rx - cx) in
  let y_diff := Qabs (ry - cy) in
  let z_diff := Qabs (rz - cz) in
  if Qlt_bool y_diff x_diff && Qlt_bool z_diff x_diff
  then mkCube (- ry - rz) ry rz
  else if Qlt_bool z_diff y_diff
  then mkCube rx (- rx - rz) rz
  else mkCube rx ry (- rx - ry).

(** Componentwise equality of numbers. *)
Definition Cube_eq (a b : Cube) : Prop :=
  (x a == x b /\ y a == y b /\ z a == z b)%Q.

(** [new BHex.Cube(x, y, z)] on any numbers: [this.z = z || -x-y]. *)
Definition Cube_new (x y z : Q) : Cube :=
  mkCube x y (if truthy (VNum z) then z else - x - y).

(** [toCube] of an axial position with any numbers as coordinates:
    [new BHex.Cube(this.x, -this.x - this.y, this.y)]. *)
Definition toCube (ax ay : Q) : Cube := Cube_new ax (- ax - ay) ay.

(** [toAxial]: [new BHex.Axial(this.x, this.z)]. *)
Definition toAxial (c : Cube) : Q * Q := (x c, z c).

(** The last step of [getHexAt(p)]: [new BHex.Axial(x, y).toCube().round().toAxial()]. *)
Definition nearest (ax ay : Q) : Q * Q := toAxial (round (toCube ax ay)).

End Drawing.

(** ** JavaScript objects used as maps *)

(** An object whose own properties are set one by one: setting a new key puts
    it after the keys already there, setting an old key keeps its place. *)
Definition obj (V : Type) : Type := list (string * V).

Fixpoint obj_get {V} (o : obj V) (k : string) : option V :=
  match o with
  | [] => None
  | (k', v) :: o' => if String.eqb k' k then Some v else obj_get o' k
  end.

Fixpoint obj_set {V} (o : obj V) (k : string) (v : V) : obj V :=
  match o with
  | [] => [(k, v)]
  | (k', v') :: o' =>
      if String.eqb k' k then (k, v) :: o' else (k', v') :: obj_set o' k v
  end.

(** Truthiness of [o[k]] when every stored value is an object. *)
Definition obj_has {V} (o : obj V) (k : string) : bool :=
  match obj_get o k with Some _ => true | None => false end.

(** ** Arrays updated in place *)

Fixpoint update {A} (l : list A) (i : nat) (v : A) : list A :=
  match l, i with
  | [], _ => []
  | _ :: t, O => v :: t
  | h :: t, S i' => h :: update t i' v
  end.

(** ** Search nodes *)

(** What a node's [hex] field holds: the start argument (any position) or a
    cell of the grid. *)
Inductive Place : Type :=
| AtAxial (a : Axial)
| AtHexagon (h : Hexagon).

Definition place (p : Place) : Axial :=
  match p with
  | AtAxial a => a
  | AtHexagon h => pos h
  end.

Record Node : Type := mkNode {
  hex : Place;
  parent : option nat;
  G : Q;
  H : Q;
  F : Q
}.

(** [rescore(parent, g, h)]: [this.H = h || 0; this.F = this.G + this.H].
    [h] is [None] when the argument is left out. *)
Definition rescore (this : Node) (parent : option nat) (g : Q) (h : option Q) : Node :=
  let H := match h with
           | Some q => if truthy (VNum q) then q else 0%Q
           | None => 0%Q
           end in
  {| hex := hex this; parent := parent; G := g; H := H; F := (g + H)%Q |}.

(** [new BHex.Grid.Search.Node(hex, parent, g, h)] *)
Definition Node_new (hex : Place) (parent : option nat) (g : Q) (h : option Q) : Node :=
  rescore {| hex := hex; parent := None; G := 0%Q; H := 0%Q; F := 0%Q |} parent g h.

(** The node a reference points to. *)
Definition deref (store : list Node) (id : nat) : option Node := nth_error store id.

(** The score function the heap is created with: [node => node.F]. *)
Definition scoreF (store : list Node) (id : nat) : Q :=
  match deref store id with
  | Some n => F n
  | None => 0%Q
  end.

(** ** The binary heap *)

Section Heap.

Variable score : nat -> Q.

(** Modelled from the spec: BinaryHeap.js is not among the sources; the heap
    of section 4.3 is an array, here of node references; [item content n] is
    [content[n]]. *)
Definition item (content : list nat) (n : nat) : nat := nth n content 0%nat.

(** Modelled from the spec: BinaryHeap.js is not among the sources; the
    exchange of two items that sifting is made of. *)
Definition swap (content : list nat) (i j : nat) : list nat :=
  update (update content i (item content j)) j (item content i).

(** Modelled from the spec: BinaryHeap.js is not among the sources; in the
    array of a binary heap the items at [2n+1] and [2n+2] are below the item
    at [n]. *)
Definition parent_index (n : nat) : nat := ((n + 1) / 2 - 1)%nat.

(** Modelled from the spec: BinaryHeap.js is not among the sources; section
    4.3 has the item sifted toward the root while its score is smaller than
    its parent's. *)
Fixpoint siftUp (fuel : nat) (content : list nat) (n : nat) : list nat :=
  match fuel with
  | O => content
  | S fuel' =>
      if (n =? 0)%nat then content
      else
        let parentN := parent_index n in
        if Qlt_bool (score (item content n)) (score (item content parentN))
        then siftUp fuel' (swap content n parentN) parentN
        else content
  end.

(** Modelled from the spec: BinaryHeap.js is not among the sources; section
    4.3 has the root sifted down, exchanged with its smaller child while
    that child's score is smaller. *)
Fixpoint siftDown (fuel : nat) (content : list nat) (n : nat) : list nat :=
  match fuel with
  | O => content
  | S fuel' =>
      let child2N := ((n + 1) * 2)%nat in
      let child1N := (child2N - 1)%nat in
      let elemScore := score (item content n) in
      let swap1 :=
        if (child1N <? length content)%nat
           && Qlt_bool (score (item content child1N)) elemScore
        then Some child1N else None in
      let swap2 :=
        if (child2N <? length content)%nat
           && Qlt_bool (score (item content child2N))
                       (match swap1 with
                        | None => elemScore
                        | Some _ => score (item content child1N)
                        end)
        then Some child2N else swap1 in
      match swap2 with
      | Some s => siftDown fuel' (swap content n s) s
      | None => content
      end
  end.

(** Modelled from the spec: BinaryHeap.js is not among the sources; section
    4.3: append then sift up. *)
Definition Heap_push (content : list nat) (id : nat) : list nat :=
  siftUp (length content) (content ++ [id]) (length content).

(** Modelled from the spec: BinaryHeap.js is not among the sources; section
    4.3: the root is the result, the last item takes its place and is sifted
    down; nothing is returned from an empty heap. *)
Definition Heap_pop (content : list nat) : option (nat * list nat) :=
  match content with
  | [] => None
  | result :: _ =>
      let rest := removelast content in
      Some (result,
            if (0 <? length rest)%nat
            then siftDown (length rest) (update rest 0 (last content 0%nat)) 0
            else rest)
  end.

(** Modelled from the spec: BinaryHeap.js is not among the sources; the
    position an item has in the array. *)
Fixpoint indexOf (content : list nat) (id : nat) : option nat :=
  match content with
  | [] => None
  | i :: t => if (i =? id)%nat then Some 0%nat
              else option_map S (indexOf t id)
  end.

(** Modelled from the spec: BinaryHeap.js is not among the sources; section
    4.3: an item whose score decreased is sifted toward the root from the
    position it has in the heap. *)
Definition Heap_rescoreElement (content : list nat) (id : nat) : list nat :=
  match indexOf content id with
  | Some n => siftUp n content n
  | None => content
  end.

(** Modelled from the spec: BinaryHeap.js is not among the sources; section
    4.3: [size()] is the number of items in the heap. *)
Definition Heap_size (content : list nat) : nat := length content.

End Heap.

(** ** Range search *)

(** The variables a search works on.  [C] is what [closedHexes] stores. *)
Record Search (C : Type) : Type := mkSearch {
  store : list Node;
  openHeap : list nat;
  closedHexes : obj C;
  visitedNodes : obj nat
}.
Arguments mkSearch {C} _ _ _ _.
Arguments store {C} _.
Arguments openHeap {C} _.
Arguments closedHexes {C} _.
Arguments visitedNodes {C} _.

(** [current.G], read through the reference. *)
Definition G_of (store : list Node) (id : nat) : Q :=
  match deref store id with
  | Some n => G n
  | None => 0%Q
  end.

(** The first visit of [n]: [var nNode = new Node(n, current, g, h);
    visitedNodes[n.getKey()] = nNode; openHeap.push(nNode)]. *)
Definition range_create (current : nat) (s : Search Place) (n : Hexagon) (g h : Q)
  : Search Place :=
  let nNode := Node_new (AtHexagon n) (Some current) g (Some h) in
  let id := length (store s) in
  let store' := (store s ++ [nNode])%list in
  {| store := store';
     openHeap := Heap_push (scoreF store') (openHeap s) id;
     closedHexes := closedHexes s;
     visitedNodes := obj_set (visitedNodes s) (getKey (pos n)) id |}.

(** A better way to a visited position: [visited.rescore(current, g, h);
    openHeap.rescoreElement(visited)]. *)
Definition range_rescore (current : nat) (s : Search Place) (v : nat) (g h : Q)
  : Search Place :=
  match deref (store s) v with
  | Some vNode =>
      let store' := update (store s) v (rescore vNode (Some current) g (Some h)) in
      {| store := store';
         openHeap := Heap_rescoreElement (scoreF store') (openHeap s) v;
         closedHexes := closedHexes s;
         visitedNodes := visitedNodes s |}
  | None => s
  end.

(** The body of [neighbors.forEach] in [getRange], for one neighbour [n]. *)
Definition range_visit (movement : Q) (current : nat)
  (s : Search Place) (n : Hexagon) : Search Place :=
  if blocked n || obj_has (closedHexes s) (getKey (pos n)) then s
  else
    let g := (G_of (store s) current + cost n)%Q in
    let visited := obj_get (visitedNodes s) (getKey (pos n)) in
    if Qle_bool g movement
       && match visited with
          | None => true
          | Some v => Qlt_bool g (G_of (store s) v)
          end
    then
      let h := 0%Q in
      match visited with
      | None => range_create current s n g h
      | Some v => range_rescore current s v g h
      end
    else s.

(** One pass of the [while] loop of [getRange]: pop, close, visit the
    neighbours.  [None] only if the heap is empty or holds a dangling
    reference. *)
Definition range_step (grid : Grid) (movement : Q) (s : Search Place)
  : option (Search Place) :=
  match Heap_pop (scoreF (store s)) (openHeap s) with
  | Some (current, heap') =>
      match deref (store s) current with
      | Some cNode =>
          let closed' :=
            obj_set (closedHexes s) (getKey (place (hex cNode))) (hex cNode) in
          let neighbors := getNeighbors grid (place (hex cNode)) in
          Some (fold_left (range_visit movement current) neighbors
                  {| store := store s; openHeap := heap';
                     closedHexes := closed'; visitedNodes := visitedNodes s |})
      | None => None
      end
  | None => None
  end.

(** [while (openHeap.size() > 0) { ... }]; [None] when the fuel runs out
    before the heap is empty. *)
Fixpoint range_loop (fuel : nat) (grid : Grid) (movement : Q)
  (s : Search Place) : option (Search Place) :=
  if (0 <? Heap_size (openHeap s))%nat then
    match fuel with
    | O => None
    | S fuel' =>
        match range_step grid movement s with
        | Some s' => range_loop fuel' grid movement s'
        | None => None
        end
    end
  else Some s.

(** The state [getRange] starts its loop in: the start node alone in the heap. *)
Definition range_init (start : Axial) : Search Place :=
  let store0 := [Node_new (AtAxial start) None 0%Q None] in
  {| store := store0;
     openHeap := Heap_push (scoreF store0) [] 0%nat;
     closedHexes := [];
     visitedNodes := [] |}.

(** [for (var i in visitedNodes) arr.push(visitedNodes[i].hex)] *)
Definition range_result (s : Search Place) : list Place :=
  flat_map (fun kv => match deref (store s) (snd kv) with
                      | Some n => [hex n]
                      | None => []
                      end) (visitedNodes s).

Definition getRange_fuel (fuel : nat) (grid : Grid) (start : Axial) (movement : Q)
  : option (list Place) :=
  option_map range_result (range_loop fuel grid movement (range_init start)).

(** Every pass of the loop closes one more position, so one pass per cell and
    one for the start are enough. *)
Definition getRange (grid : Grid) (start : Axial) (movement : Q) : option (list Place) :=
  getRange_fuel (S (length (hexes grid))) grid start movement.

(** ** Path search *)

(** The body of [neighbors.forEach] in [findPath], for one neighbour [n].  A
    node created here is recorded in [closedHexes]; [visitedNodes] is read
    and never written. *)
Definition path_visit (end_ : Axial) (current : nat)
  (s : Search nat) (n : Hexagon) : Search nat :=
  if blocked n || obj_has (closedHexes s) (getKey (pos n)) then s
  else
    let g := (G_of (store s) current + cost n)%Q in
    let visited := obj_get (visitedNodes s) (getKey (pos n)) in
    if match visited with
       | None => true
       | Some v => Qlt_bool g (G_of (store s) v)
       end
    then
      let h := getDistance (pos n) end_ in
      match visited with
      | None =>
          let nNode := Node_new (AtHexagon n) (Some current) g (Some h) in
          let id := length (store s) in
          let store' := (store s ++ [nNode])%list in
          {| store := store';
             openHeap := Heap_push (scoreF store') (openHeap s) id;
             closedHexes := obj_set (closedHexes s) (getKey (place (hex nNode))) id;
             visitedNodes := visitedNodes s |}
      | Some v =>
          match deref (store s) v with
          | Some vNode =>
              let store' :=
                update (store s) v (rescore vNode (Some current) g (Some h)) in
              {| store := store';
                 openHeap := Heap_rescoreElement (scoreF store') (openHeap s) v;
                 closedHexes := closedHexes s;
                 visitedNodes := visitedNodes s |}
          | None => s
          end
      end
    else s.

(** [while (current.parent) { path.push(current); current = current.parent }],
    the nodes in the order they are pushed. *)
Fixpoint backtrack (fuel : nat) (store : list Node) (current : nat) : list Node :=
  match fuel with
  | O => []
  | S fuel' =>
      match deref store current with
      | Some cNode =>
          match parent cNode with
          | Some p => cNode :: backtrack fuel' store p
          | None => []
          end
      | None => []
      end
  end.

(** What one pass of the loop of [findPath] ends in. *)
Inductive pass : Type :=
| Return (path : list Place)
| Continue (s : Search nat).

(** One pass of the [while] loop of [findPath]: pop; return the path if the
    end was popped; otherwise close and visit the neighbours. *)
Definition path_step (grid : Grid) (end_ : Axial) (s : Search nat) : option pass :=
  match Heap_pop (scoreF (store s)) (openHeap s) with
  | Some (current, heap') =>
      match deref (store s) current with
      | Some cNode =>
          if compareTo (place (hex cNode)) end_ then
            let path := backtrack (length (store s)) (store s) current in
            Some (Return (rev (map hex path)))
          else
            let closed' :=
              obj_set (closedHexes s) (getKey (place (hex cNode))) current in
            let neighbors := getNeighbors grid (place (hex cNode)) in
            Some (Continue
                    (fold_left (path_visit end_ current) neighbors
                       {| store := store s; openHeap := heap';
                          closedHexes := closed'; visitedNodes := visitedNodes s |}))
      | None => None
      end
  | None => None
  end.

(** [while (openHeap.size() > 0) { ... } return []]; [None] when the fuel
    runs out first. *)
Fixpoint path_loop (fuel : nat) (grid : Grid) (end_ : Axial)
  (s : Search nat) : option (list Place) :=
  if (0 <? Heap_size (openHeap s))%nat then
    match fuel with
    | O => None
    | S fuel' =>
        match path_step grid end_ s with
        | Some (Return path) => Some path
        | Some (Continue s') => path_loop fuel' grid end_ s'
        | None => None
        end
    end
  else Some [].

Definition path_init (start end_ : Axial) : Search nat :=
  let store0 := [Node_new (AtAxial start) None 0%Q (Some (getDistance start end_))] in
  {| store := store0;
     openHeap := Heap_push (scoreF store0) [] 0%nat;
     closedHexes := [];
     visitedNodes := [] |}.

Definition findPath_fuel (fuel : nat) (grid : Grid) (start end_ : Axial)
  : option (list Place) :=
  path_loop fuel grid end_ (path_init start end_).

(** Every node but the start's is created for a position that is not closed
    and closes it, so one pass per cell and one for the start are enough. *)
Definition findPath (grid : Grid) (start end_ : Axial) : option (list Place) :=
  findPath_fuel (S (length (hexes grid))) grid start end_.

(** The traversal cost of a returned sequence: the sum of the cells' costs. *)
Definition place_cost (p : Place) : Q :=
  match p with
  | AtAxial _ => 0%Q
  | AtHexagon h => cost h
  end.

Definition total_cost (path : list Place) : Q :=
  fold_right (fun p acc => (place_cost p + acc)%Q) 0%Q path.

(** ** Changing the cells of a grid *)

(** [grid.getHexAt(a).cost = c]: the field of the first cell at [a]. *)
Fixpoint assign_cost (hs : list Hexagon) (a : Axial) (c : Q) : list Hexagon :=
  match hs with
  | [] => []
  | h :: t =>
      if compareTo (pos h) a
      then {| pos := pos h; cost := c; blocked := blocked h |} :: t
      else h :: assign_cost t a c
  end.

Definition set_cost (g : Grid) (a : Axial) (c : Q) : Grid :=
  {| radius := radius g; hexes := assign_cost (hexes g) a c |}.

(** [grid.getHexAt(a).blocked = b] *)
Fixpoint assign_blocked (hs : list Hexagon) (a : Axial) (b : bool) : list Hexagon :=
  match hs with
  | [] => []
  | h :: t =>
      if compareTo (pos h) a
      then {| pos := pos h; cost := cost h; blocked := b |} :: t
      else h :: assign_blocked t a b
  end.

Definition set_blocked (g : Grid) (a : Axial) (b : bool) : Grid :=
  {| radius := radius g; hexes := assign_blocked (hexes g) a b |}.


(** The radius-2 grid with the cell at (0,0) costing 1.5 and the cell at
    (-1,0) blocked. *)
Definition detour_grid : Grid :=
  set_blocked (set_cost (Grid_new 2) (mkAxial 0 0) (3 # 2)) (mkAxial (-1) 0) true.

(** The state of [findPath] after [k] passes of its loop ([None] once it has
    returned). *)
Fixpoint path_passes (k : nat) (grid : Grid) (end_ : Axial) (s : Search nat)
  : option (Search nat) :=
  match k with
  | O => Some s
  | S k' =>
      match path_step grid end_ s with
      | Some (Continue s') => path_passes k' grid end_ s'
      | _ => None
      end
  end.

(** ** Routes through the grid *)

(** The cell [getNeighbors] reports at each step of a walk from [a]: every
    cell of [route] is a neighbour of the position before it. *)
Fixpoint is_route (g : Grid) (a : Axial) (route : list Hexagon) : Prop :=
  match route with
  | [] => True
  | h :: rest => In h (getNeighbors g a) /\ blocked h = false /\ is_route g (pos h) rest
  end.

Definition route_cost (route : list Hexagon) : Q :=
  fold_right (fun h acc => (cost h + acc)%Q) 0%Q route.

(** [route] leads from [a] to the cell [h] through unblocked cells. *)
Definition route_to (g : Grid) (a : Axial) (route : list Hexagon) (h : Hexagon) : Prop :=
  is_route g a route /\ last route h = h /\ route <> [].

(** The cells [getRange] is meant to return: those other than the start that
    a route of cost at most [movement] leads to. *)
Definition within_budget (g : Grid) (a : Axial) (movement : Q) (h : Hexagon) : Prop :=
  pos h <> a /\
  exists route, route_to g a route h /\ (route_cost route <= movement)%Q.

(** A lookup result as the list of cells it contributes. *)
Definition option_list {A} (o : option A) : list A :=
  match o with Some a => [a] | None => [] end.

(** The sum of [f] over a list of integers. *)
Definition Zsum (f : Z -> Z) (l : list Z) : Z :=
  fold_right (fun x acc => f x + acc) 0 l.

(** A position lies in the hexagon of radius [r] around the origin. *)
Definition in_hexagon (r : Z) (a : Axial) : Prop :=
  - r <= ax a <= r /\ - r <= ay a <= r /\ - r <= ax a + ay a <= r.

(** No character of the string is the separator [getKey] writes. *)
Fixpoint x_free (s : string) : Prop :=
  match s with
  | EmptyString => True
  | String c s' => c <> "x"%char /\ x_free s'
  end.

(** ** The heap invariant *)

(** Every item scores at least as much as the item above it. *)
Definition heap_ok (score : nat -> Q) (content : list nat) : Prop :=
  forall i, (0 < i < length content)%nat ->
    (score (item content (parent_index i)) <= score (item content i))%Q.

(** The invariant while the item at [n] is sifted up: only the item at [n]
    may score less than the item above it, and the items below [n] score at
    least as much as the item above [n]. *)
Definition up_ok (score : nat -> Q) (content : list nat) (n : nat) : Prop :=
  (forall i, (0 < i < length content)%nat -> i <> n ->
     (score (item content (parent_index i)) <= score (item content i))%Q)
  /\ (forall i, (0 < i < length content)%nat -> parent_index i = n -> (0 < n)%nat ->
        (score (item content (parent_index n)) <= score (item content i))%Q).

(** The invariant while the item at [n] is sifted down: only the items just
    below [n] may score less than the item above them, and they score at
    least as much as the item above [n]. *)
Definition down_ok (score : nat -> Q) (content : list nat) (n : nat) : Prop :=
  (forall i, (0 < i < length content)%nat -> parent_index i <> n ->
     (score (item content (parent_index i)) <= score (item content i))%Q)
  /\ (forall i, (0 < i < length content)%nat -> parent_index i = n -> (0 < n)%nat ->
        (score (item content (parent_index n)) <= score (item content i))%Q).

(** ** The invariant of the range search *)

Definition key_of (n : Node) : string := getKey (place (hex n)).

(** The position of node [id] has been closed. *)
Definition is_closed (s : Search Place) (id : nat) : Prop :=
  exists n, deref (store s) id = Some n /\ obj_has (closedHexes s) (key_of n) = true.

(** The step from node [nu] to its neighbour [h] has been accounted for: if
    it fits the budget, some node stands at [h] with a G no larger. *)
Definition relaxed (m : Q) (s : Search Place) (nu : Node) (h : Hexagon) : Prop :=
  blocked h = false -> (G nu + cost h <= m)%Q ->
  exists id' n',
    deref (store s) id' = Some n' /\ place (hex n') = pos h
    /\ (G n' <= G nu + cost h)%Q.

(** What holds of the store, the heap and the two maps throughout
    [getRange] on grid [g] from [a] with budget [m]. *)
Record core (g : Grid) (a : Axial) (m : Q) (s : Search Place) : Prop := {
  core_root :
    exists n0, deref (store s) 0 = Some n0 /\ hex n0 = AtAxial a /\ (G n0 == 0)%Q;
  core_visited :
    forall k id, In (k, id) (visitedNodes s)
      <-> (1 <= id)%nat /\ exists n, deref (store s) id = Some n /\ key_of n = k;
  core_visited_keys : NoDup (map fst (visitedNodes s));
  core_cell :
    forall id n, deref (store s) id = Some n -> (1 <= id)%nat ->
      exists h, hex n = AtHexagon h /\ getHexAt g (pos h) = Some h
        /\ blocked h = false /\ pos h <> a /\ (G n <= m)%Q
        /\ exists route, route_to g a route h /\ (route_cost route <= G n)%Q;
  core_score :
    forall id n, deref (store s) id = Some n -> (F n == G n)%Q /\ (0 <= G n)%Q;
  core_heap : heap_ok (scoreF (store s)) (openHeap s);
  core_heap_nodup : NoDup (openHeap s);
  core_open :
    forall id, In id (openHeap s) <-> (id < length (store s))%nat /\ ~ is_closed s id;
  core_closed :
    forall k, obj_has (closedHexes s) k = true ->
      exists id n, deref (store s) id = Some n /\ key_of n = k;
  core_inj :
    forall id id' n n', deref (store s) id = Some n -> deref (store s) id' = Some n' ->
      key_of n = key_of n' -> id = id'
}.

(** The invariant between two passes of the loop. *)
Definition range_inv (g : Grid) (a : Axial) (m : Q) (s : Search Place) : Prop :=
  core g a m s
  /\ (obj_has (closedHexes s) (getKey a) = true \/ length (store s) = 1%nat)
  /\ (forall c o, is_closed s c -> In o (openHeap s) ->
        (G_of (store s) c <= G_of (store s) o)%Q)
  /\ (forall u nu h, is_closed s u -> deref (store s) u = Some nu ->
        In h (getNeighbors g (place (hex nu))) -> relaxed m s nu h).

(** The invariant inside a pass, while the neighbours [pending] of the popped
    node [cur] are still to be visited. *)
Definition mid_inv (g : Grid) (a : Axial) (m : Q) (cur : nat) (pending : list Hexagon)
  (s : Search Place) : Prop :=
  core g a m s
  /\ obj_has (closedHexes s) (getKey a) = true
  /\ is_closed s cur
  /\ (forall c, is_closed s c -> (G_of (store s) c <= G_of (store s) cur)%Q)
  /\ (forall o, In o (openHeap s) -> (G_of (store s) cur <= G_of (store s) o)%Q)
  /\ (forall u nu h, is_closed s u -> deref (store s) u = Some nu ->
        In h (getNeighbors g (place (hex nu))) ->
        (u = cur -> ~ In h pending) -> relaxed m s nu h).

(** The positions a search can still close: the start and every cell. *)
Definition unclosed {C} (g : Grid) (a : Axial) (s : Search C) : list string :=
  filter (fun k => negb (obj_has (closedHexes s) k))
    (getKey a :: map (fun h => getKey (pos h)) (hexes g)).

(** No cell of the grid has a negative cost. *)
Definition costs_nonneg (g : Grid) : Prop :=
  forall h, In h (hexes g) -> (0 <= cost h)%Q.

(** Every cell of the grid has a positive cost. *)
Definition costs_positive (g : Grid) : Prop :=
  forall h, In h (hexes g) -> (0 < cost h)%Q.

(** From [s] to [s'] every node keeps its place, no G grows, and the nodes
    at closed positions are untouched. *)
Definition store_mono (s s' : Search Place) : Prop :=
  forall id n, deref (store s) id = Some n ->
    exists n', deref (store s') id = Some n' /\ hex n' = hex n
      /\ (G n' <= G n)%Q /\ (is_closed s id -> n' = n).

(** [g] has the cells of a new grid of radius [rad], each of cost 1 and none
    blocked. *)
Definition uniform_hexagon (rad : Z) (g : Grid) : Prop :=
  map pos (hexes g) = map pos (hexes (Grid_new rad))
  /\ forall h, In h (hexes g) -> (cost h == 1)%Q /\ blocked h = false.

(** The test behind [in_hexagon]. *)
Definition in_hexagonb (r : Z) (a : Axial) : bool :=
  (- r <=? ax a) && (ax a <=? r) && (- r <=? ay a) && (ay a <=? r)
  && (- r <=? ax a + ay a) && (ax a + ay a <=? r).

(** ** The invariant of the path search *)

(** The keys of the cells that are not closed yet. *)
Definition unclosed_cells {C} (g : Grid) (s : Search C) : list string :=
  filter (fun k => negb (obj_has (closedHexes s) k))
    (map (fun h => getKey (pos h)) (hexes g)).

(** What bounds the passes [findPath] still makes: the nodes waiting in the
    heap and the cells not closed yet. *)
Definition path_measure (g : Grid) (s : Search nat) : nat :=
  length (openHeap s) + length (unclosed_cells g s).

(** What holds of the store, the heap and [closedHexes] inside a pass of
    [findPath] on grid [g] from [a] to [b], while the neighbours [pending] of
    the popped node [cur] are still to be visited. *)
Record path_mid (g : Grid) (a b : Axial) (cur : nat) (pending : list Hexagon)
  (s : Search nat) : Prop := {
  pm_root :
    exists n0, deref (store s) 0 = Some n0 /\ hex n0 = AtAxial a /\ parent n0 = None;
  pm_visited : visitedNodes s = [];
  pm_cell :
    forall id n, deref (store s) id = Some n -> (1 <= id)%nat ->
      exists h p np, hex n = AtHexagon h /\ parent n = Some p /\ (p < id)%nat
        /\ deref (store s) p = Some np /\ In h (getNeighbors g (place (hex np)))
        /\ blocked h = false /\ pos h <> a;
  pm_heap_bound : forall id, In id (openHeap s) -> (id < length (store s))%nat;
  pm_heap_nodup : NoDup (openHeap s);
  pm_closed :
    forall k, obj_has (closedHexes s) k = true ->
      exists id n, deref (store s) id = Some n /\ key_of n = k;
  pm_expanded :
    forall id n, deref (store s) id = Some n -> ~ In id (openHeap s) ->
      place (hex n) <> b
      /\ forall h, In h (getNeighbors g (place (hex n))) -> blocked h = false ->
           (id = cur -> ~ In h pending) ->
           exists id' n', deref (store s) id' = Some n' /\ place (hex n') = pos h
}.

(** The invariant of [findPath] between two passes of its loop. *)
Definition path_inv (g : Grid) (a b : Axial) (s : Search nat) : Prop :=
  path_mid g a b 0 [] s
  /\ (obj_has (closedHexes s) (getKey a) = true
      \/ (openHeap s = [0%nat] /\ length (store s) = 1%nat)).

(** What [findPath] from [a] to [b] may return: nothing when the two are
    equal or no route leads to [b], otherwise the cells of a route to [b]. *)
Definition path_result (g : Grid) (a b : Axial) (path : list Place) : Prop :=
  (path = [] /\ (a = b \/ ~ exists route h, route_to g a route h /\ pos h = b))
  \/ (a <> b /\ exists route h,
        path = map AtHexagon route /\ route_to g a route h /\ pos h = b
        /\ forall c, In c route -> pos c <> a).

(** * Properties *)

(** ** Coordinates and distance *)

Lemma toAxial_toCube (a : Axial) : toAxial (toCube a) = a.
Proof.
  destruct a as [x y]; unfold toAxial, toCube, Cube_new; simpl.
  destruct (Z.eqb_spec y 0) as [E | E]; f_equal; lia.
Qed.

Lemma compareTo_true (a b : Axial) : compareTo a b = true <-> a = b.
Proof.
  destruct a as [x y], b as [x' y']; unfold compareTo; simpl.
  rewrite andb_true_iff, !Z.eqb_eq.
  split; [intros [-> ->]; reflexivity | intros E; inversion E; auto].
Qed.

Lemma compareTo_false (a b : Axial) : compareTo a b = false <-> a <> b.
Proof.
  rewrite <- compareTo_true. destruct (compareTo a b); split; congruence.
Qed.

Lemma distance_sum_even (a b : Axial) : exists k, distance_sum a b = 2 * k /\ 0 <= k.
Proof.
  unfold distance_sum.
  exists (Z.max (Z.abs (ax a - ax b)) (Z.max (Z.abs (ax a + ay a - ax b - ay b)) (Z.abs (ay a - ay b)))).
  lia.
Qed.

Lemma getDistance_eq (a b : Axial) (k : Z) :
  (getDistance a b == inject_Z k)%Q <-> distance_sum a b = 2 * k.
Proof.
  unfold getDistance, Qeq, Qdiv, Qmult, inject_Z.
  change (/ 2)%Q with (1 # 2)%Q; cbn [Qnum Qden]. lia.
Qed.

Lemma getDistance_sym (a b : Axial) : getDistance a b = getDistance b a.
Proof. unfold getDistance. f_equal. f_equal. unfold distance_sum. lia. Qed.

Lemma getDistance_zero (a b : Axial) :
  (getDistance a b == 0)%Q <-> (ax a = ax b /\ ay a = ay b).
Proof.
  change 0%Q with (inject_Z 0). rewrite getDistance_eq. unfold distance_sum. lia.
Qed.

Lemma getDistance_triangle (a b c : Axial) :
  (getDistance a b <= getDistance a c + getDistance c b)%Q.
Proof.
  unfold getDistance, Qle, Qdiv, Qmult, Qplus, inject_Z.
  change (/ 2)%Q with (1 # 2)%Q; cbn [Qnum Qden].
  unfold distance_sum. lia.
Qed.

(** C9.  [getDistance] is symmetric, is zero exactly when the two positions
    have equal coordinates, and satisfies the triangle inequality. *)
Theorem getDistance_metric (a b c : Axial) :
  getDistance a b = getDistance b a
  /\ ((getDistance a b == 0)%Q <-> (ax a = ax b /\ ay a = ay b))
  /\ (getDistance a b <= getDistance a c + getDistance c b)%Q.
Proof.
  split; [apply getDistance_sym |].
  split; [apply getDistance_zero | apply getDistance_triangle].
Qed.

(** ** Cells and the grid constructor *)

(** C10.  The cell constructor takes a falsy cost (left out, or 0) for
    absent and stores 1, stores any nonzero cost unchanged (1/2 among them),
    completes normally, and stores the truthiness of the blocked argument. *)
Theorem Hexagon_new_defaults (x y : Z) (b : value) :
  cost (Hexagon_new x y None b) = 1%Q
  /\ cost (Hexagon_new x y (Some 0%Q) b) = 1%Q
  /\ construct_Hexagon x y (Some 0%Q) b
     = Normal {| pos := mkAxial x y; cost := 1%Q; blocked := truthy b |}
  /\ (forall c : Q, truthy (VNum c) = false -> cost (Hexagon_new x y (Some c) b) = 1%Q)
  /\ (forall c : Q, ~ (c == 0)%Q -> cost (Hexagon_new x y (Some c) b) = c)
  /\ cost (Hexagon_new x y (Some (1 # 2)) b) = (1 # 2)%Q
  /\ blocked (Hexagon_new x y None b) = truthy b
  /\ (forall c, blocked (Hexagon_new x y c b) = truthy b)
  /\ blocked (Hexagon_new x y None (VStr "no")) = true
  /\ blocked (Hexagon_new x y None (VNum 7)) = true
  /\ blocked (Hexagon_new x y None VObject) = true
  /\ blocked (Hexagon_new x y None VUndefined) = false.
Proof.
  unfold construct_Hexagon, Hexagon_new; simpl.
  rewrite negb_involutive.
  repeat split; auto.
  - intros c Hc. rewrite Hc. reflexivity.
  - intros c Hc. destruct (Qeq_bool c 0) eqn:E; [| reflexivity].
    apply Qeq_bool_iff in E. contradiction.
Qed.

(** C5 as specified does not hold: a grid of radius -1 and a cell of cost
    1/2 are both constructed without any error. *)
Lemma construct_not_validated :
  ~ ((forall r, r < 0 -> exists msg, construct_Grid r = Throw msg)
     /\ (forall x y c b, (c < 1)%Q ->
           exists msg, construct_Hexagon x y (Some c) b = Throw msg)).
Proof.
  intros [HG _]. destruct (HG (-1) ltac:(lia)) as [msg E]. discriminate E.
Qed.

Lemma range_empty (lo hi : Z) : hi < lo -> range lo hi = [].
Proof.
  intros Hlt. unfold range.
  replace (Z.to_nat (hi - lo + 1)) with 0%nat by lia. reflexivity.
Qed.

(** C5, amended.  Construction never fails: a negative radius gives a grid
    with that radius and no cells; a cost below 1 is stored as it is, except
    0, which is replaced by 1. *)
Theorem construct_completes (r x y : Z) (c : Q) (b : value) :
  r < 0 ->
  (c < 1)%Q ->
  construct_Grid r = Normal {| radius := r; hexes := [] |}
  /\ construct_Hexagon x y (Some c) b
     = Normal {| pos := mkAxial x y;
                 cost := if Qeq_bool c 0 then 1%Q else c;
                 blocked := truthy b |}.
Proof.
  intros Hr _. split.
  - unfold construct_Grid, Grid_new.
    rewrite range_empty by lia. simpl.
    destruct (Z.eqb_spec r 0); [lia | reflexivity].
  - unfold construct_Hexagon, Hexagon_new; simpl.
    rewrite negb_involutive. destruct (Qeq_bool c 0); reflexivity.
Qed.

Lemma construct_completes_witness :
  construct_Grid (-1) = Normal {| radius := -1; hexes := [] |}
  /\ construct_Hexagon 0 0 (Some (1 # 2)%Q) VUndefined
     = Normal {| pos := mkAxial 0 0; cost := (1 # 2)%Q; blocked := false |}.
Proof.
  apply (construct_completes (-1) 0 0 (1 # 2)%Q VUndefined).
  - lia.
  - reflexivity.
Defined.

(** ** Rounding *)

(** C4 as specified does not hold: (0.6, -1.3, 0.7) does not round to
    (1, -1, 0). *)
Lemma round_example_differs :
  ~ Drawing.Cube_eq
      (Drawing.round (Drawing.mkCube (6 # 10) (- (13 # 10)) (7 # 10)))
      (Drawing.mkCube 1 (- (1)) 0).
Proof.
  unfold Drawing.Cube_eq. vm_compute. intros [E _]. discriminate E.
Qed.

(** C4, amended.  (0.6, -1.3, 0.7) rounds to (0, -1, 1): the components round
    to (1, -1, 1), the residual of x (0.4) is strictly larger than those of y
    and z (0.3 each), so x is recomputed as -(-1) - 1 = 0. *)
Theorem round_example :
  let c := Drawing.mkCube (6 # 10) (- (13 # 10)) (7 # 10) in
  Drawing.Cube_eq (Drawing.round c) (Drawing.mkCube 0 (- (1)) 1)
  /\ (Drawing.Math_round (Drawing.x c) == 1)%Q
  /\ (Drawing.Math_round (Drawing.y c) == - (1))%Q
  /\ (Drawing.Math_round (Drawing.z c) == 1)%Q
  /\ (Qabs (Drawing.Math_round (Drawing.x c) - Drawing.x c) == 4 # 10)%Q
  /\ (Qabs (Drawing.Math_round (Drawing.y c) - Drawing.y c) == 3 # 10)%Q
  /\ (Qabs (Drawing.Math_round (Drawing.z c) - Drawing.z c) == 3 # 10)%Q
  /\ (Drawing.x (Drawing.round c)
      == - Drawing.Math_round (Drawing.y c) - Drawing.Math_round (Drawing.z c))%Q.
Proof.
  unfold Drawing.Cube_eq. vm_compute. repeat split; reflexivity.
Qed.

(** ** Neighbours *)

Lemma getNeighbors_flat_map (g : Grid) (a : Axial) :
  getNeighbors g a = flat_map (fun d => option_list (getHexAt g d)) (directions a).
Proof.
  unfold getNeighbors, directions; simpl.
  repeat match goal with
         | |- context [getHexAt g ?d] => destruct (getHexAt g d); simpl
         end; reflexivity.
Qed.

Lemma getHexAt_Some (g : Grid) (a : Axial) (h : Hexagon) :
  getHexAt g a = Some h -> In h (hexes g) /\ pos h = a.
Proof.
  unfold getHexAt. intros E. apply find_some in E.
  destruct E as [Hin Hc]. apply compareTo_true in Hc. auto.
Qed.

Lemma In_getNeighbors (g : Grid) (a : Axial) (h : Hexagon) :
  In h (getNeighbors g a) <-> In (pos h) (directions a) /\ getHexAt g (pos h) = Some h.
Proof.
  rewrite getNeighbors_flat_map, in_flat_map. split.
  - intros [d [Hd Hh]]. destruct (getHexAt g d) as [h' |] eqn:E; simpl in Hh.
    + destruct Hh as [-> | []]. apply getHexAt_Some in E as E'.
      destruct E' as [_ <-]. auto.
    + contradiction.
  - intros [Hd E]. exists (pos h). rewrite E. simpl. auto.
Qed.

Lemma directions_distance (a d : Axial) :
  In d (directions a) -> distance_sum a d = 2.
Proof.
  unfold directions, distance_sum; simpl.
  intros [<- | [<- | [<- | [<- | [<- | [<- | []]]]]]]; simpl; lia.
Qed.

Lemma directions_NoDup (a : Axial) : NoDup (directions a).
Proof.
  unfold directions.
  repeat constructor; simpl; intuition (try congruence);
    match goal with
    | E : mkAxial _ _ = mkAxial _ _ |- _ => inversion E; lia
    end.
Qed.

Lemma NoDup_map_pos_flat (g : Grid) (ds : list Axial) :
  NoDup ds ->
  NoDup (map pos (flat_map (fun d => option_list (getHexAt g d)) ds)).
Proof.
  induction 1 as [| d ds Hnot Hnd IH]; simpl; [constructor |].
  rewrite map_app. destruct (getHexAt g d) as [h |] eqn:E; simpl; [| exact IH].
  constructor; [| exact IH].
  apply getHexAt_Some in E. destruct E as [_ Hp]. rewrite Hp.
  intros Hin. apply in_map_iff in Hin. destruct Hin as [h' [Hp' Hin]].
  apply in_flat_map in Hin. destruct Hin as [d' [Hd' Hh']].
  destruct (getHexAt g d') as [h'' |] eqn:E'; simpl in Hh'; [| contradiction].
  destruct Hh' as [-> | []]. apply getHexAt_Some in E'. destruct E' as [_ Hp''].
  congruence.
Qed.

(** C8.  [getNeighbors] returns at most six cells, without duplicates, each
    at distance exactly 1 from [a]; they are the cells found at the six
    offsets (+1,0), (+1,-1), (0,-1), (-1,0), (-1,+1), (0,+1), each looked up
    on its own, in that order, an offset with no cell being left out. *)
Theorem getNeighbors_spec (g : Grid) (a : Axial) :
  (length (getNeighbors g a) <= 6)%nat
  /\ NoDup (getNeighbors g a)
  /\ NoDup (map pos (getNeighbors g a))
  /\ (forall h, In h (getNeighbors g a) -> (getDistance a (pos h) == 1)%Q)
  /\ directions a
     = map (fun o => mkAxial (ax a + fst o) (ay a + snd o))
         [(1, 0); (1, -1); (0, -1); (-1, 0); (-1, 1); (0, 1)]
  /\ getNeighbors g a = flat_map (fun d => option_list (getHexAt g d)) (directions a)
  /\ map pos (getNeighbors g a)
     = filter (fun d => match getHexAt g d with Some _ => true | None => false end)
         (directions a).
Proof.
  assert (Hnd : NoDup (map pos (getNeighbors g a))).
  { rewrite getNeighbors_flat_map. apply NoDup_map_pos_flat, directions_NoDup. }
  repeat split.
  - rewrite getNeighbors_flat_map. unfold directions; simpl.
    repeat match goal with
           | |- context [getHexAt g ?d] => destruct (getHexAt g d); simpl
           end; lia.
  - eapply NoDup_map_inv; exact Hnd.
  - exact Hnd.
  - intros h Hin. apply In_getNeighbors in Hin. destruct Hin as [Hd _].
    change 1%Q with (inject_Z 1). apply getDistance_eq.
    rewrite (directions_distance _ _ Hd). reflexivity.
  - unfold directions; simpl. repeat f_equal; lia.
  - apply getNeighbors_flat_map.
  - rewrite getNeighbors_flat_map.
    generalize (directions a). intros ds.
    induction ds as [| d ds IH]; simpl; [reflexivity |].
    rewrite map_app, IH.
    destruct (getHexAt g d) as [h |] eqn:E; simpl; [| reflexivity].
    apply getHexAt_Some in E. destruct E as [_ ->]. reflexivity.
Qed.

(** ** Path search on concrete grids *)

(** C3 as specified does not hold: the distance between (-2,1) and (2,-1)
    is not 3. *)
Lemma scenario_distance_differs :
  ~ (getDistance (mkAxial (-2) 1) (mkAxial 2 (-1)) == 3)%Q.
Proof. vm_compute. discriminate. Qed.

(** C3, amended.  On the radius-2 grid with all costs 1 and nothing blocked,
    the distance between (-2,1) and (2,-1) is 4, and [findPath] returns a
    path of 4 cells (the start left out) that ends at (2,-1) and whose total
    cost equals that distance. *)
Theorem scenario_path :
  let a := mkAxial (-2) 1 in
  let b := mkAxial 2 (-1) in
  (getDistance a b == 4)%Q
  /\ (forall h, In h (hexes (Grid_new 2)) -> cost h = 1%Q /\ blocked h = false)
  /\ exists path,
       findPath (Grid_new 2) a b = Some path
       /\ length path = 4%nat
       /\ map place path = [mkAxial (-1) 1; mkAxial 0 1; mkAxial 1 0; mkAxial 2 (-1)]
       /\ (total_cost path == getDistance a b)%Q.
Proof.
  split; [vm_compute; reflexivity |].
  split.
  - intros h Hin. vm_compute in Hin.
    repeat (destruct Hin as [<- | Hin]; [split; reflexivity |]). contradiction.
  - eexists. split; [vm_compute; reflexivity |].
    repeat split; vm_compute; reflexivity.
Qed.

(** C2 on the grid [detour_grid] (radius 2, the cell at (0,0) costing 1.5,
    the cell at (-1,0) blocked): from (1,0) to (-2,0) [findPath] returns the
    route through (0,0), of cost 4.5, although a route of cost 4 through
    unblocked cells exists. *)
Theorem findPath_not_cheapest :
  let a := mkAxial 1 0 in
  let b := mkAxial (-2) 0 in
  (forall h, In h (hexes detour_grid) -> (1 <= cost h)%Q)
  /\ (exists path,
        findPath detour_grid a b = Some path
        /\ map place path = [mkAxial 0 0; mkAxial (-1) 1; mkAxial (-2) 1; mkAxial (-2) 0]
        /\ (total_cost path == 9 # 2)%Q)
  /\ (exists route h,
        route_to detour_grid a route h
        /\ pos h = b
        /\ map pos route = [mkAxial 0 1; mkAxial (-1) 1; mkAxial (-2) 1; mkAxial (-2) 0]
        /\ (route_cost route == 4)%Q).
Proof.
  split; [| split].
  - intros h Hin. vm_compute in Hin.
    repeat (destruct Hin as [<- | Hin]; [vm_compute; discriminate |]). contradiction.
  - eexists. split; [vm_compute; reflexivity |].
    split; vm_compute; reflexivity.
  - exists (map (fun p => Hexagon_new (fst p) (snd p) None VUndefined)
              [(0, 1); (-1, 1); (-2, 1); (-2, 0)]).
    exists (Hexagon_new (-2) 0 None VUndefined).
    split; [| repeat split; vm_compute; reflexivity].
    unfold route_to. split; [| split; [reflexivity | discriminate]].
    vm_compute. intuition.
Qed.

(** A visit of [findPath] never writes [visitedNodes]. *)
Lemma path_visit_visitedNodes (end_ : Axial) (cur : nat) (s : Search nat) (n : Hexagon) :
  visitedNodes (path_visit end_ cur s n) = visitedNodes s.
Proof.
  unfold path_visit.
  destruct (blocked n || obj_has (closedHexes s) (getKey (pos n))); [reflexivity |].
  destruct (obj_get (visitedNodes s) (getKey (pos n))) as [v |]; [| reflexivity].
  destruct (Qlt_bool _ _); [| reflexivity].
  destruct (deref (store s) v); reflexivity.
Qed.

(** C1 on [detour_grid], searching from (1,0) to (-2,0).  No visit of
    [findPath] changes [visitedNodes].  After two passes of the loop the cell
    at (-1,1) has a node of G = 2.5, still in the heap, recorded in
    [closedHexes] and not in [visitedNodes].  Visiting that cell from the
    node of (0,1), whose G is 1, would give G = 2 < 2.5, yet the visit
    changes nothing: the node is neither rescored nor replaced. *)
Theorem findPath_no_rescoring :
  let b := mkAxial (-2) 0 in
  (forall end_ cur s n, visitedNodes (path_visit end_ cur s n) = visitedNodes s)
  /\ exists s cur nid n,
    path_passes 2 detour_grid b (path_init (mkAxial 1 0) b) = Some s
    /\ visitedNodes s = []
    /\ option_map (fun c => (place (hex c), G c)) (deref (store s) cur)
       = Some (mkAxial 0 1, 1%Q)
    /\ In n (getNeighbors detour_grid (mkAxial 0 1))
    /\ pos n = mkAxial (-1) 1
    /\ blocked n = false
    /\ option_map hex (deref (store s) nid) = Some (AtHexagon n)
    /\ In nid (openHeap s)
    /\ (G_of (store s) nid == 5 # 2)%Q
    /\ (G_of (store s) cur + cost n == 2)%Q
    /\ obj_get (closedHexes s) (getKey (pos n)) = Some nid
    /\ path_visit b cur s n = s.
Proof.
  split; [exact path_visit_visitedNodes |].
  eexists. exists 5%nat, 8%nat, (Hexagon_new (-1) 1 None VUndefined).
  split; [vm_compute; reflexivity |].
  repeat split; vm_compute; auto 10.
Qed.

(** ** The cells of a new grid *)

Lemma range_cons (lo hi : Z) : lo <= hi -> range lo hi = lo :: range (lo + 1) hi.
Proof.
  intros Hle. unfold range.
  replace (Z.to_nat (hi - lo + 1)) with (S (Z.to_nat (hi - (lo + 1) + 1))) by lia.
  simpl. f_equal; [lia |].
  rewrite <- seq_shift, map_map. apply map_ext. intros i. lia.
Qed.

(** Induction along a range, from its lower end. *)
Lemma range_ind (P : Z -> Z -> Prop) :
  (forall lo hi, hi < lo -> P lo hi) ->
  (forall lo hi, lo <= hi -> P (lo + 1) hi -> P lo hi) ->
  forall lo hi, P lo hi.
Proof.
  intros Hnil Hcons lo hi.
  remember (Z.to_nat (hi - lo + 1)) as n eqn:En.
  revert lo En. induction n as [| n IH]; intros lo En.
  - apply Hnil. lia.
  - apply Hcons; [lia |]. apply IH. lia.
Qed.

Lemma In_range (lo hi x : Z) : In x (range lo hi) <-> lo <= x <= hi.
Proof.
  revert lo hi. apply (range_ind (fun lo hi => In x (range lo hi) <-> lo <= x <= hi)).
  - intros lo hi Hlt. rewrite range_empty by lia. simpl. lia.
  - intros lo hi Hle IH. rewrite range_cons by lia. simpl. rewrite IH. lia.
Qed.

Lemma range_app (lo mid hi : Z) :
  lo <= mid + 1 -> mid <= hi -> range lo hi = (range lo mid ++ range (mid + 1) hi)%list.
Proof.
  revert lo mid.
  apply (range_ind (fun lo mid => lo <= mid + 1 -> mid <= hi ->
                      range lo hi = (range lo mid ++ range (mid + 1) hi)%list)).
  - intros lo mid Hlt H1 H2. rewrite (range_empty lo mid) by lia.
    replace (mid + 1) with lo by lia. reflexivity.
  - intros lo mid Hle IH H1 H2.
    rewrite (range_cons lo hi), (range_cons lo mid) by lia.
    simpl. f_equal. apply IH; lia.
Qed.

(** The innermost loop pushes one cell if [-x-y] is within the radius and
    none otherwise. *)
Lemma inner_loop {A} (c : A) (t lo hi : Z) :
  flat_map (fun z => if t + z =? 0 then [c] else []) (range lo hi)
  = if (lo <=? - t) && (- t <=? hi) then [c] else [].
Proof.
  revert lo hi.
  apply (range_ind (fun lo hi =>
           flat_map (fun z => if t + z =? 0 then [c] else []) (range lo hi)
           = if (lo <=? - t) && (- t <=? hi) then [c] else [])).
  - intros lo hi Hlt. rewrite range_empty by lia. simpl.
    destruct (Z.leb_spec lo (- t)), (Z.leb_spec (- t) hi); simpl; auto; lia.
  - intros lo hi Hle IH. rewrite range_cons by lia. simpl. rewrite IH.
    destruct (Z.eqb_spec (t + lo) 0), (Z.leb_spec lo (- t)),
      (Z.leb_spec (lo + 1) (- t)), (Z.leb_spec (- t) hi); simpl; auto; lia.
Qed.

(** The cells of a new grid, with the innermost loop resolved. *)
Lemma Grid_new_hexes (r : Z) :
  hexes (Grid_new r)
  = flat_map (fun x =>
      flat_map (fun y =>
        if (- r <=? - (x + y)) && (- (x + y) <=? r)
        then [Hexagon_new x y None VUndefined] else [])
        (range (- r) r))
      (range (- r) r).
Proof.
  unfold Grid_new; simpl.
  apply flat_map_ext. intros x. apply flat_map_ext. intros y.
  apply inner_loop.
Qed.

Lemma In_Grid_new (r : Z) (h : Hexagon) :
  In h (hexes (Grid_new r))
  <-> h = Hexagon_new (ax (pos h)) (ay (pos h)) None VUndefined /\ in_hexagon r (pos h).
Proof.
  rewrite Grid_new_hexes, in_flat_map. unfold in_hexagon. split.
  - intros [x [Hx Hin]]. apply in_flat_map in Hin. destruct Hin as [y [Hy Hin]].
    apply In_range in Hx, Hy.
    destruct (Z.leb_spec (- r) (- (x + y))), (Z.leb_spec (- (x + y)) r);
      simpl in Hin; try contradiction.
    destruct Hin as [<- | []]. simpl. split; [reflexivity | lia].
  - intros [E [Hx [Hy Hs]]]. exists (ax (pos h)). split; [apply In_range; lia |].
    apply in_flat_map. exists (ay (pos h)). split; [apply In_range; lia |].
    destruct (Z.leb_spec (- r) (- (ax (pos h) + ay (pos h)))),
      (Z.leb_spec (- (ax (pos h) + ay (pos h))) r); simpl; try lia.
    left. symmetry. exact E.
Qed.

Lemma length_flat_map_Zsum {A} (f : Z -> list A) (l : list Z) :
  Z.of_nat (length (flat_map f l)) = Zsum (fun x => Z.of_nat (length (f x))) l.
Proof.
  induction l as [| x l IH]; simpl; [reflexivity |].
  rewrite length_app, Nat2Z.inj_add, IH. reflexivity.
Qed.

Lemma Zsum_ext (f g : Z -> Z) (l : list Z) :
  (forall x, In x l -> f x = g x) -> Zsum f l = Zsum g l.
Proof.
  induction l as [| x l IH]; simpl; intros H; [reflexivity |].
  rewrite (H x), IH; auto.
Qed.

Lemma Zsum_app (f : Z -> Z) (l1 l2 : list Z) :
  Zsum f (l1 ++ l2) = Zsum f l1 + Zsum f l2.
Proof.
  induction l1 as [| x l1 IH]; simpl; [reflexivity | rewrite IH; lia].
Qed.

(** An arithmetic series. *)
Lemma Zsum_affine (c d lo hi : Z) :
  lo <= hi + 1 ->
  2 * Zsum (fun x => c + d * x) (range lo hi) = (hi - lo + 1) * (2 * c + d * (lo + hi)).
Proof.
  revert lo hi.
  apply (range_ind (fun lo hi => lo <= hi + 1 ->
           2 * Zsum (fun x => c + d * x) (range lo hi)
           = (hi - lo + 1) * (2 * c + d * (lo + hi)))).
  - intros lo hi Hlt Hle. rewrite range_empty by lia. cbn [Zsum fold_right].
    replace (hi - lo + 1) with 0 by lia. lia.
  - intros lo hi Hle IH _. rewrite range_cons by lia.
    specialize (IH ltac:(lia)). unfold Zsum in *. cbn [fold_right].
    rewrite Z.mul_add_distr_l, IH. ring.
Qed.

(** How many cells one pass of the middle loop pushes. *)
Lemma middle_loop_length {A} (f : Z -> A) (a b lo hi : Z) :
  lo <= hi + 1 ->
  Z.of_nat (length (flat_map (fun y => if (a <=? y) && (y <=? b) then [f y] else [])
                      (range lo hi)))
  = Z.max 0 (Z.min b hi - Z.max a lo + 1).
Proof.
  revert lo hi.
  apply (range_ind (fun lo hi => lo <= hi + 1 ->
           Z.of_nat (length (flat_map
                               (fun y => if (a <=? y) && (y <=? b) then [f y] else [])
                               (range lo hi)))
           = Z.max 0 (Z.min b hi - Z.max a lo + 1))).
  - intros lo hi Hlt Hle. rewrite range_empty by lia. cbn [flat_map length]. lia.
  - intros lo hi Hle IH _. rewrite range_cons by lia. cbn [flat_map].
    rewrite length_app, Nat2Z.inj_add, (IH ltac:(lia)).
    destruct (Z.leb_spec a lo), (Z.leb_spec lo b); cbn [andb length]; lia.
Qed.

Lemma Grid_new_length (r : Z) :
  0 <= r -> Z.of_nat (length (hexes (Grid_new r))) = 3 * r * r + 3 * r + 1.
Proof.
  intros Hr. rewrite Grid_new_hexes, length_flat_map_Zsum.
  rewrite (Zsum_ext _ (fun x => Z.max 0 (Z.min (r - x) r - Z.max (- r - x) (- r) + 1))).
  2:{ intros x Hx.
      rewrite <- (middle_loop_length (fun y => Hexagon_new x y None VUndefined)) by lia.
      do 2 f_equal. apply flat_map_ext. intros y.
      destruct (Z.leb_spec (- r) (- (x + y))), (Z.leb_spec (- (x + y)) r),
        (Z.leb_spec (- r - x) y), (Z.leb_spec y (r - x)); simpl; auto; lia. }
  rewrite (range_app (- r) (- 1) r) by lia. rewrite Zsum_app.
  rewrite (Zsum_ext _ (fun x => (2 * r + 1) + 1 * x) (range (- r) (- 1))).
  2:{ intros x Hx. apply In_range in Hx. lia. }
  rewrite (Zsum_ext _ (fun x => (2 * r + 1) + (- 1) * x) (range (- 1 + 1) r)).
  2:{ intros x Hx. apply In_range in Hx. lia. }
  pose proof (Zsum_affine (2 * r + 1) 1 (- r) (- 1) ltac:(lia)) as H1.
  pose proof (Zsum_affine (2 * r + 1) (- 1) (- 1 + 1) r ltac:(lia)) as H2.
  nia.
Qed.

(** C6.  For every radius [r >= 0] the new grid has exactly 3r^2 + 3r + 1
    cells, and for each of them the axial -> cube -> axial round trip gives
    back the cell's own axial coordinate. *)
Theorem Grid_new_cells (r : Z) :
  0 <= r ->
  Z.of_nat (length (hexes (Grid_new r))) = 3 * r * r + 3 * r + 1
  /\ forall h, In h (hexes (Grid_new r)) -> toAxial (toCube (pos h)) = pos h.
Proof.
  intros Hr. split.
  - apply Grid_new_length, Hr.
  - intros h _. apply toAxial_toCube.
Qed.

Lemma Grid_new_cells_witness :
  Z.of_nat (length (hexes (Grid_new 3))) = 3 * 3 * 3 + 3 * 3 + 1
  /\ forall h, In h (hexes (Grid_new 3)) -> toAxial (toCube (pos h)) = pos h.
Proof.
  apply (Grid_new_cells 3). lia.
Defined.

(** ** Keys *)

Lemma string_of_uint_x_free (d : uint) : x_free (NilEmpty.string_of_uint d).
Proof.
  induction d; simpl; auto; split; auto; discriminate.
Qed.

Lemma string_of_Z_x_free (n : Z) : x_free (string_of_Z n).
Proof.
  unfold string_of_Z. destruct (Z.to_int n) as [d | d]; simpl.
  - apply string_of_uint_x_free.
  - split; [discriminate | apply string_of_uint_x_free].
Qed.

Lemma string_of_Z_inj (n m : Z) : string_of_Z n = string_of_Z m -> n = m.
Proof.
  unfold string_of_Z. intros E. apply DecimalZ.to_int_inj.
  pose proof (NilEmpty.isi (Z.to_int n)) as Hn.
  pose proof (NilEmpty.isi (Z.to_int m)) as Hm.
  rewrite E in Hn. congruence.
Qed.

(** The separator splits a key in one way only. *)
Lemma append_x_inj (s1 s2 t1 t2 : string) :
  x_free s1 -> x_free s2 ->
  (s1 ++ "x" ++ t1 = s2 ++ "x" ++ t2)%string -> s1 = s2 /\ t1 = t2.
Proof.
  revert s2. induction s1 as [| c s1 IH]; intros [| c' s2]; simpl; intros H1 H2 E.
  - inversion E. auto.
  - inversion E. subst c'. destruct H2 as [H2 _]. contradiction.
  - inversion E. subst c. destruct H1 as [H1 _]. contradiction.
  - injection E as Ec Es. destruct H1 as [_ H1], H2 as [_ H2].
    destruct (IH s2 H1 H2 Es) as [-> ->]. subst c'. auto.
Qed.

(** Distinct positions have distinct keys. *)
Lemma getKey_inj (a b : Axial) : getKey a = getKey b -> a = b.
Proof.
  destruct a as [x y], b as [x' y']. unfold getKey; simpl. intros E.
  apply append_x_inj in E; try apply string_of_Z_x_free.
  destruct E as [Ex Ey]. apply string_of_Z_inj in Ex, Ey. congruence.
Qed.

(** ** Objects as maps *)

Lemma obj_get_set_same {V} (o : obj V) (k : string) (v : V) :
  obj_get (obj_set o k v) k = Some v.
Proof.
  induction o as [| [k' v'] o IH]; simpl.
  - rewrite String.eqb_refl. reflexivity.
  - destruct (String.eqb k' k) eqn:E; simpl.
    + rewrite String.eqb_refl. reflexivity.
    + rewrite E. exact IH.
Qed.

Lemma obj_get_set_other {V} (o : obj V) (k k' : string) (v : V) :
  k <> k' -> obj_get (obj_set o k v) k' = obj_get o k'.
Proof.
  intros Hne. induction o as [| [k0 v0] o IH]; simpl.
  - destruct (String.eqb_spec k k'); [contradiction | reflexivity].
  - destruct (String.eqb_spec k0 k) as [-> | Hk]; simpl.
    + destruct (String.eqb_spec k k'); [contradiction | reflexivity].
    + destruct (String.eqb_spec k0 k'); [reflexivity | exact IH].
Qed.

Lemma obj_has_set {V} (o : obj V) (k k' : string) (v : V) :
  obj_has (obj_set o k v) k' = String.eqb k k' || obj_has o k'.
Proof.
  unfold obj_has. destruct (String.eqb_spec k k') as [<- | Hne]; simpl.
  - rewrite obj_get_set_same. reflexivity.
  - rewrite obj_get_set_other by assumption. reflexivity.
Qed.

Lemma obj_set_fresh {V} (o : obj V) (k : string) (v : V) :
  obj_get o k = None -> obj_set o k v = (o ++ [(k, v)])%list.
Proof.
  induction o as [| [k' v'] o IH]; simpl; intros E; [reflexivity |].
  destruct (String.eqb k' k); [discriminate |]. rewrite IH by assumption. reflexivity.
Qed.

Lemma obj_get_In {V} (o : obj V) (k : string) (v : V) :
  obj_get o k = Some v -> In (k, v) o.
Proof.
  induction o as [| [k' v'] o IH]; simpl; intros E; [discriminate |].
  destruct (String.eqb_spec k' k) as [-> | Hne].
  - inversion E. auto.
  - right. auto.
Qed.

Lemma obj_get_None {V} (o : obj V) (k : string) :
  obj_get o k = None <-> ~ In k (map fst o).
Proof.
  induction o as [| [k' v'] o IH]; simpl.
  - tauto.
  - destruct (String.eqb_spec k' k) as [-> | Hne].
    + split; [discriminate | intros H; exfalso; apply H; auto].
    + rewrite IH. tauto.
Qed.

(** ** Arrays *)

Lemma update_length {A} (l : list A) (i : nat) (v : A) :
  length (update l i v) = length l.
Proof.
  revert i. induction l as [| h t IH]; intros [| i]; simpl; auto.
Qed.

Lemma nth_error_update_same {A} (l : list A) (i : nat) (v : A) :
  (i < length l)%nat -> nth_error (update l i v) i = Some v.
Proof.
  revert i. induction l as [| h t IH]; intros [| i]; simpl; intros H; try lia; auto.
  apply IH. lia.
Qed.

Lemma nth_error_update_other {A} (l : list A) (i j : nat) (v : A) :
  i <> j -> nth_error (update l i v) j = nth_error l j.
Proof.
  revert i j. induction l as [| h t IH]; intros [| i] [| j]; simpl; intros H;
    try congruence; auto.
Qed.

Lemma nth_update_same {A} (l : list A) (i : nat) (v d : A) :
  (i < length l)%nat -> nth i (update l i v) d = v.
Proof.
  revert i. induction l as [| h t IH]; intros [| i]; simpl; intros H; try lia; auto.
  apply IH. lia.
Qed.

Lemma nth_update_other {A} (l : list A) (i j : nat) (v d : A) :
  i <> j -> nth j (update l i v) d = nth j l d.
Proof.
  revert i j. induction l as [| h t IH]; intros [| i] [| j]; simpl; intros H;
    try congruence; auto.
Qed.

Lemma update_Permutation {A} (l : list A) (i : nat) (v d : A) :
  (i < length l)%nat -> Permutation (nth i l d :: update l i v) (v :: l).
Proof.
  revert i. induction l as [| h t IH]; intros [| i]; simpl; intros H; try lia.
  - apply perm_swap.
  - rewrite perm_swap. rewrite (IH i) by lia. apply perm_swap.
Qed.

(** ** The binary heap *)

Lemma Qlt_bool_true (a b : Q) : Qlt_bool a b = true <-> (a < b)%Q.
Proof.
  unfold Qlt_bool. rewrite negb_true_iff.
  destruct (Qle_bool b a) eqn:E.
  - apply Qle_bool_iff in E. split; [discriminate | intros H; exfalso; lra].
  - split; [intros _ | reflexivity].
    apply Qnot_le_lt. intros H. apply Qle_bool_iff in H. congruence.
Qed.

Lemma Qlt_bool_false (a b : Q) : Qlt_bool a b = false <-> (b <= a)%Q.
Proof.
  unfold Qlt_bool. rewrite negb_false_iff. apply Qle_bool_iff.
Qed.

Lemma parent_index_lt (i : nat) : (0 < i)%nat -> (parent_index i < i)%nat.
Proof.
  unfold parent_index. intros H.
  pose proof (Nat.div_mod_eq (i + 1) 2) as E.
  pose proof (Nat.mod_upper_bound (i + 1) 2 ltac:(lia)). lia.
Qed.

Lemma parent_index_inv (i n : nat) :
  (0 < i)%nat -> parent_index i = n <-> (i = (n + 1) * 2 - 1 \/ i = (n + 1) * 2)%nat.
Proof.
  unfold parent_index. intros H.
  pose proof (Nat.div_mod_eq (i + 1) 2) as E.
  pose proof (Nat.mod_upper_bound (i + 1) 2 ltac:(lia)). lia.
Qed.

Lemma swap_length (c : list nat) (i j : nat) : length (swap c i j) = length c.
Proof. unfold swap. rewrite !update_length. reflexivity. Qed.

Lemma item_swap (c : list nat) (i j k : nat) :
  (i < length c)%nat -> (j < length c)%nat ->
  item (swap c i j) k
  = if (k =? j)%nat then item c i else if (k =? i)%nat then item c j else item c k.
Proof.
  intros Hi Hj. unfold swap, item at 1.
  destruct (Nat.eqb_spec k j) as [-> | Hkj].
  - apply nth_update_same. rewrite update_length. exact Hj.
  - rewrite nth_update_other by congruence.
    destruct (Nat.eqb_spec k i) as [-> | Hki].
    + apply nth_update_same. exact Hi.
    + rewrite nth_update_other by congruence. reflexivity.
Qed.

Lemma swap_Permutation (c : list nat) (i j : nat) :
  (i < length c)%nat -> (j < length c)%nat -> Permutation (swap c i j) c.
Proof.
  intros Hi Hj. unfold swap.
  apply (Permutation_cons_inv (a := item c j)).
  assert (E : item c j = nth j (update c i (item c j)) 0%nat).
  { destruct (Nat.eq_dec i j) as [-> | Hne].
    - rewrite nth_update_same by assumption. reflexivity.
    - rewrite nth_update_other by assumption. reflexivity. }
  rewrite E at 1.
  rewrite update_Permutation by (rewrite update_length; exact Hj).
  unfold item at 1. rewrite update_Permutation by exact Hi.
  reflexivity.
Qed.

Section HeapFacts.

Variable score : nat -> Q.

Lemma up_ok_heap_ok (c : list nat) (n : nat) :
  up_ok score c n ->
  (n = 0%nat \/ (score (item c (parent_index n)) <= score (item c n))%Q) ->
  heap_ok score c.
Proof.
  intros [Hedge _] Hn i Hi.
  destruct (Nat.eq_dec i n) as [-> | Hne]; [| apply Hedge; assumption].
  destruct Hn as [-> | Hn]; [lia | exact Hn].
Qed.

Lemma siftUp_ok (fuel : nat) : forall (c : list nat) (n : nat),
  (n <= fuel)%nat -> (n < length c)%nat -> up_ok score c n ->
  heap_ok score (siftUp score fuel c n).
Proof.
  induction fuel as [| fuel IH]; intros c n Hfuel Hn Hup.
  - simpl. apply (up_ok_heap_ok c n Hup). left. lia.
  - simpl. destruct (Nat.eqb_spec n 0) as [-> | Hpos].
    + apply (up_ok_heap_ok c 0 Hup). left. reflexivity.
    + pose proof (parent_index_lt n ltac:(lia)) as Hp.
      destruct (Qlt_bool (score (item c n)) (score (item c (parent_index n)))) eqn:E.
      * apply Qlt_bool_true in E.
        apply IH; [lia | rewrite swap_length; lia |].
        destruct Hup as [Hedge Hgrand].
        split.
        -- intros i Hi Hne. rewrite swap_length in Hi.
           pose proof (parent_index_lt i ltac:(lia)) as Hpi.
           rewrite !item_swap by lia.
           destruct (Nat.eqb_spec i (parent_index n)) as [-> | Hip]; [congruence |].
           destruct (Nat.eqb_spec i n) as [-> | Hin].
           ++ rewrite Nat.eqb_refl. lra.
           ++ destruct (Nat.eqb_spec (parent_index i) (parent_index n)) as [Epp | Hpp].
              ** specialize (Hedge i ltac:(lia) Hin). rewrite Epp in Hedge. lra.
              ** destruct (Nat.eqb_spec (parent_index i) n) as [Epn | Hpn].
                 --- apply (Hgrand i); [lia | exact Epn | lia].
                 --- apply Hedge; [lia | exact Hin].
        -- intros i Hi Epi Hpp. rewrite swap_length in Hi.
           rewrite !item_swap by lia.
           pose proof (parent_index_lt (parent_index n) Hpp) as Hgp.
           destruct (Nat.eqb_spec (parent_index (parent_index n)) (parent_index n)); [lia |].
           destruct (Nat.eqb_spec (parent_index (parent_index n)) n); [lia |].
           pose proof (Hedge (parent_index n) ltac:(lia) ltac:(lia)) as Hpe.
           destruct (Nat.eqb_spec i (parent_index n)) as [-> | Hip]; [lia |].
           destruct (Nat.eqb_spec i n) as [-> | Hin]; [exact Hpe |].
           specialize (Hedge i ltac:(lia) Hin). rewrite Epi in Hedge. lra.
      * apply Qlt_bool_false in E. apply (up_ok_heap_ok c n Hup). right. exact E.
Qed.

Lemma siftUp_Permutation (fuel : nat) : forall (c : list nat) (n : nat),
  (n < length c)%nat -> Permutation (siftUp score fuel c n) c.
Proof.
  induction fuel as [| fuel IH]; intros c n Hn; simpl; [reflexivity |].
  destruct (Nat.eqb_spec n 0) as [-> | Hpos]; [reflexivity |].
  pose proof (parent_index_lt n ltac:(lia)) as Hp.
  destruct (Qlt_bool _ _); [| reflexivity].
  rewrite IH by (rewrite swap_length; lia).
  apply swap_Permutation; lia.
Qed.

Lemma item_app_old (c : list nat) (x i : nat) :
  (i < length c)%nat -> item (c ++ [x]) i = item c i.
Proof. intros H. unfold item. apply app_nth1. exact H. Qed.

Lemma Heap_push_ok (c : list nat) (id : nat) :
  heap_ok score c -> heap_ok score (Heap_push score c id).
Proof.
  intros Hc. unfold Heap_push.
  apply siftUp_ok; [lia | rewrite length_app; simpl; lia |].
  split.
  - intros i Hi Hne. rewrite length_app in Hi; simpl in Hi.
    pose proof (parent_index_lt i ltac:(lia)).
    rewrite !item_app_old by lia. apply Hc. lia.
  - intros i Hi Epi _. rewrite length_app in Hi; simpl in Hi.
    pose proof (parent_index_lt i ltac:(lia)). lia.
Qed.

Lemma Heap_push_Permutation (c : list nat) (id : nat) :
  Permutation (Heap_push score c id) (id :: c).
Proof.
  unfold Heap_push. rewrite siftUp_Permutation by (rewrite length_app; simpl; lia).
  symmetry. apply Permutation_cons_append.
Qed.

End HeapFacts.

Section HeapDown.

Variable score : nat -> Q.

Lemma down_ok_heap_ok (c : list nat) (n : nat) :
  down_ok score c n ->
  (forall i, (0 < i < length c)%nat -> parent_index i = n ->
     (score (item c n) <= score (item c i))%Q) ->
  heap_ok score c.
Proof.
  intros [Hedge _] Hn i Hi.
  destruct (Nat.eq_dec (parent_index i) n) as [E | Hne].
  - rewrite E. apply Hn; assumption.
  - apply Hedge; assumption.
Qed.

Lemma down_ok_swap (c : list nat) (n s : nat) :
  (s < length c)%nat -> (0 < s)%nat -> parent_index s = n ->
  (score (item c s) < score (item c n))%Q ->
  (forall i, (0 < i < length c)%nat -> parent_index i = n ->
     (score (item c s) <= score (item c i))%Q) ->
  down_ok score c n ->
  down_ok score (swap c n s) s.
Proof.
  intros Hs Hpos Eps Hlt Hmin [Hedge Hgrand].
  pose proof (parent_index_lt s Hpos) as Hns. rewrite Eps in Hns.
  split.
  - intros i Hi Hne. rewrite swap_length in Hi.
    pose proof (parent_index_lt i ltac:(lia)) as Hpi.
    rewrite !item_swap by lia.
    destruct (Nat.eqb_spec (parent_index i) s) as [| _]; [contradiction |].
    destruct (Nat.eqb_spec i s) as [-> | His].
    + rewrite Eps, Nat.eqb_refl. lra.
    + destruct (Nat.eqb_spec i n) as [-> | Hin].
      * destruct (Nat.eqb_spec (parent_index n) n); [lia |].
        apply (Hgrand s); [lia | exact Eps | lia].
      * destruct (Nat.eqb_spec (parent_index i) n) as [Epi | Hpn].
        -- apply Hmin; [lia | exact Epi].
        -- apply Hedge; [lia | exact Hpn].
  - intros i Hi Epi _. rewrite swap_length in Hi.
    pose proof (parent_index_lt i ltac:(lia)) as Hpi.
    rewrite Eps. rewrite !item_swap by lia.
    destruct (Nat.eqb_spec n s); [lia |]. rewrite Nat.eqb_refl.
    destruct (Nat.eqb_spec i s); [lia |].
    destruct (Nat.eqb_spec i n); [lia |].
    pose proof (Hedge i ltac:(lia) ltac:(lia)) as He.
    rewrite Epi in He. exact He.
Qed.

Lemma siftDown_ok (fuel : nat) : forall (c : list nat) (n : nat),
  (length c <= fuel + n)%nat -> (n < length c)%nat -> down_ok score c n ->
  heap_ok score (siftDown score fuel c n).
Proof.
  induction fuel as [| fuel IH]; intros c n Hfuel Hn Hdown; [simpl in Hfuel; lia |].
  cbn [siftDown].
  set (c2 := ((n + 1) * 2)%nat). set (c1 := (c2 - 1)%nat).
  assert (Hkids : forall i, (0 < i)%nat -> parent_index i = n -> i = c1 \/ i = c2).
  { intros i Hi E. apply parent_index_inv in E; [| exact Hi]. subst c1 c2. lia. }
  assert (Ec1 : parent_index c1 = n) by (apply parent_index_inv; subst c1 c2; lia).
  assert (Ec2 : parent_index c2 = n) by (apply parent_index_inv; subst c1 c2; lia).
  assert (Hc1 : (n < c1)%nat) by (subst c1 c2; lia).
  assert (Hc2 : (c2 = c1 + 1)%nat) by (subst c1 c2; lia).
  destruct (Nat.ltb_spec c1 (length c)) as [L1 | L1]; cbn [andb].
  - destruct (Qlt_bool (score (item c c1)) (score (item c n))) eqn:B1.
    + apply Qlt_bool_true in B1.
      destruct (Nat.ltb_spec c2 (length c)) as [L2 | L2]; cbn [andb].
      * destruct (Qlt_bool (score (item c c2)) (score (item c c1))) eqn:B2.
        -- apply Qlt_bool_true in B2.
           apply IH; [rewrite swap_length; lia | rewrite swap_length; lia |].
           apply down_ok_swap; auto; try lia; try lra.
           intros i Hi E. destruct (Hkids i ltac:(lia) E) as [-> | ->]; lra.
        -- apply Qlt_bool_false in B2.
           apply IH; [rewrite swap_length; lia | rewrite swap_length; lia |].
           apply down_ok_swap; auto; try lia.
           intros i Hi E. destruct (Hkids i ltac:(lia) E) as [-> | ->]; lra.
      * apply IH; [rewrite swap_length; lia | rewrite swap_length; lia |].
        apply down_ok_swap; auto; try lia.
        intros i Hi E. destruct (Hkids i ltac:(lia) E) as [-> | ->]; [lra | lia].
    + apply Qlt_bool_false in B1.
      destruct (Nat.ltb_spec c2 (length c)) as [L2 | L2]; cbn [andb].
      * destruct (Qlt_bool (score (item c c2)) (score (item c n))) eqn:B2.
        -- apply Qlt_bool_true in B2.
           apply IH; [rewrite swap_length; lia | rewrite swap_length; lia |].
           apply down_ok_swap; auto; try lia.
           intros i Hi E. destruct (Hkids i ltac:(lia) E) as [-> | ->]; lra.
        -- apply Qlt_bool_false in B2.
           apply (down_ok_heap_ok c n Hdown).
           intros i Hi E. destruct (Hkids i ltac:(lia) E) as [-> | ->]; lra.
      * apply (down_ok_heap_ok c n Hdown).
        intros i Hi E. destruct (Hkids i ltac:(lia) E) as [-> | ->]; [lra | lia].
  - destruct (Nat.ltb_spec c2 (length c)) as [L2 | L2]; [lia |]. cbn [andb].
    apply (down_ok_heap_ok c n Hdown).
    intros i Hi E. destruct (Hkids i ltac:(lia) E) as [-> | ->]; lia.
Qed.

Lemma siftDown_Permutation (fuel : nat) : forall (c : list nat) (n : nat),
  (n < length c)%nat -> Permutation (siftDown score fuel c n) c.
Proof.
  induction fuel as [| fuel IH]; intros c n Hn; [reflexivity |].
  cbn [siftDown].
  set (c2 := ((n + 1) * 2)%nat). set (c1 := (c2 - 1)%nat).
  assert (Hstep : forall s, (s < length c)%nat ->
            Permutation (siftDown score fuel (swap c n s) s) c).
  { intros s Hs. rewrite IH by (rewrite swap_length; exact Hs).
    apply swap_Permutation; assumption. }
  destruct (Nat.ltb_spec c1 (length c)) as [L1 | L1],
    (Nat.ltb_spec c2 (length c)) as [L2 | L2]; cbn [andb];
    repeat match goal with
           | |- context [Qlt_bool ?a ?b] => destruct (Qlt_bool a b)
           end; auto.
Qed.

(** The root of a heap scores least. *)
Lemma heap_ok_root (c : list nat) :
  heap_ok score c ->
  forall i, (i < length c)%nat -> (score (item c 0) <= score (item c i))%Q.
Proof.
  intros Hc i. induction i as [i IH] using (well_founded_induction lt_wf).
  intros Hi. destruct (Nat.eq_dec i 0) as [-> | Hpos]; [lra |].
  pose proof (parent_index_lt i ltac:(lia)) as Hp.
  specialize (IH (parent_index i) Hp ltac:(lia)).
  specialize (Hc i ltac:(lia)). lra.
Qed.

Lemma In_item (c : list nat) (x : nat) :
  In x c -> exists i, (i < length c)%nat /\ item c i = x.
Proof.
  intros Hin. destruct (In_nth c x 0%nat Hin) as [i [Hi E]]. exists i. auto.
Qed.

(** What [pop] returns from a non-empty heap. *)
Lemma Heap_pop_spec (c : list nat) :
  c <> [] -> heap_ok score c ->
  exists x rest,
    Heap_pop score c = Some (x, rest)
    /\ Permutation (x :: rest) c
    /\ heap_ok score rest
    /\ forall y, In y c -> (score x <= score y)%Q.
Proof.
  intros Hne Hc. destruct c as [| x t]; [contradiction |].
  unfold Heap_pop. eexists. eexists. split; [reflexivity |].
  assert (Hmin : forall y, In y (x :: t) -> (score x <= score y)%Q).
  { intros y Hy. apply In_item in Hy. destruct Hy as [i [Hi <-]].
    apply (heap_ok_root (x :: t) Hc i Hi). }
  pose proof (app_removelast_last 0%nat Hne) as Esplit.
  set (rest := removelast (x :: t)) in *. set (l := last (x :: t) 0%nat) in *.
  assert (Hlen : length (x :: t) = S (length rest)).
  { rewrite Esplit at 1. rewrite length_app. simpl. lia. }
  destruct (Nat.ltb_spec 0 (length rest)) as [Hpos | Hzero].
  - destruct rest as [| r rest'] eqn:Er; [simpl in Hpos; lia |].
    assert (r = x) by (simpl in Esplit; congruence). subst r.
    split; [| split; [| exact Hmin]].
    + rewrite siftDown_Permutation by (rewrite update_length; simpl; lia).
      simpl. rewrite Esplit. simpl.
      apply perm_skip. apply Permutation_cons_append.
    + apply siftDown_ok; [rewrite update_length; lia | rewrite update_length; simpl; lia |].
      split.
      * intros i Hi Hpi. rewrite update_length in Hi.
        unfold item. rewrite !nth_update_other by lia.
        pose proof (parent_index_lt i ltac:(lia)) as Hp.
        specialize (Hc i ltac:(lia)). unfold item in Hc.
        rewrite Esplit in Hc. rewrite !app_nth1 in Hc by lia. exact Hc.
      * intros i Hi Epi F. lia.
  - destruct rest; [| simpl in Hzero; lia].
    split; [| split; [| exact Hmin]].
    + rewrite Esplit. simpl. simpl in Hlen.
      destruct t; [| simpl in Hlen; lia]. reflexivity.
    + intros i Hi. simpl in Hi. lia.
Qed.

End HeapDown.

Lemma heap_ok_ext (score score' : nat -> Q) (c : list nat) :
  (forall x, In x c -> (score' x == score x)%Q) ->
  heap_ok score c -> heap_ok score' c.
Proof.
  intros Hext Hc i Hi.
  pose proof (parent_index_lt i ltac:(lia)) as Hp.
  assert (Hin : forall j, (j < length c)%nat -> In (item c j) c).
  { intros j Hj. apply nth_In. exact Hj. }
  rewrite (Hext _ (Hin i ltac:(lia))), (Hext _ (Hin (parent_index i) ltac:(lia))).
  apply Hc. exact Hi.
Qed.

Lemma indexOf_Some (c : list nat) (id n : nat) :
  indexOf c id = Some n -> (n < length c)%nat /\ item c n = id.
Proof.
  revert n. induction c as [| x c IH]; simpl; intros n E; [discriminate |].
  destruct (Nat.eqb_spec x id) as [-> | Hne].
  - inversion E. subst. split; [lia | reflexivity].
  - destruct (indexOf c id) as [k |]; simpl in E; [| discriminate].
    inversion E. subst. destruct (IH k eq_refl) as [Hk Ek].
    split; [lia | exact Ek].
Qed.

Lemma indexOf_In (c : list nat) (id : nat) :
  In id c -> exists n, indexOf c id = Some n.
Proof.
  induction c as [| x c IH]; simpl; intros Hin; [contradiction |].
  destruct (Nat.eqb_spec x id) as [-> | Hne]; [eexists; reflexivity |].
  destruct Hin as [E | Hin]; [contradiction |].
  destruct (IH Hin) as [n ->]. eexists; reflexivity.
Qed.

Lemma NoDup_item_inj (c : list nat) (i j : nat) :
  NoDup c -> (i < length c)%nat -> (j < length c)%nat -> item c i = item c j -> i = j.
Proof.
  intros Hnd Hi Hj E. eapply (proj1 (NoDup_nth c 0%nat)); eauto.
Qed.

(** Rescoring an item whose score went down, all other scores unchanged. *)
Lemma Heap_rescoreElement_ok (score score' : nat -> Q) (c : list nat) (id : nat) :
  heap_ok score c -> NoDup c -> In id c ->
  (forall x, x <> id -> (score' x == score x)%Q) ->
  (score' id <= score id)%Q ->
  heap_ok score' (Heap_rescoreElement score' c id)
  /\ Permutation (Heap_rescoreElement score' c id) c.
Proof.
  intros Hc Hnd Hin Hext Hle. unfold Heap_rescoreElement.
  destruct (indexOf_In c id Hin) as [n En]. rewrite En.
  destruct (indexOf_Some c id n En) as [Hn Eitem].
  split; [| apply siftUp_Permutation; exact Hn].
  assert (Hdown : forall j, (j < length c)%nat -> (score' (item c j) <= score (item c j))%Q).
  { intros j Hj. destruct (Nat.eq_dec (item c j) id) as [E | Hne].
    - rewrite E. exact Hle.
    - rewrite (Hext _ Hne). lra. }
  assert (Hsame : forall j, (j < length c)%nat -> j <> n ->
                    (score' (item c j) == score (item c j))%Q).
  { intros j Hj Hjn. apply Hext. intros E. apply Hjn.
    apply (NoDup_item_inj c j n Hnd Hj Hn). congruence. }
  apply siftUp_ok; [lia | exact Hn |].
  split.
  - intros i Hi Hne.
    pose proof (parent_index_lt i ltac:(lia)) as Hp.
    rewrite (Hsame i ltac:(lia) Hne).
    specialize (Hc i Hi). specialize (Hdown (parent_index i) ltac:(lia)). lra.
  - intros i Hi Epi Hpos.
    pose proof (parent_index_lt i ltac:(lia)) as Hp.
    pose proof (parent_index_lt n Hpos) as Hpn.
    rewrite (Hsame i ltac:(lia) ltac:(lia)).
    pose proof (Hc i Hi) as H1. rewrite Epi in H1.
    pose proof (Hc n ltac:(lia)) as H2.
    specialize (Hdown (parent_index n) ltac:(lia)). lra.
Qed.

Lemma Heap_rescoreElement_Permutation (score : nat -> Q) (c : list nat) (id : nat) :
  Permutation (Heap_rescoreElement score c id) c.
Proof.
  unfold Heap_rescoreElement. destruct (indexOf c id) as [n |] eqn:En; [| reflexivity].
  apply siftUp_Permutation. apply (indexOf_Some c id n En).
Qed.

(** ** The node store *)

Lemma deref_lt (st : list Node) (id : nat) (n : Node) :
  deref st id = Some n -> (id < length st)%nat.
Proof. intros E. apply nth_error_Some. unfold deref in E. congruence. Qed.

Lemma deref_Some (st : list Node) (id : nat) :
  (id < length st)%nat -> exists n, deref st id = Some n.
Proof.
  intros H. unfold deref. destruct (nth_error st id) eqn:E; [eauto |].
  apply nth_error_None in E. lia.
Qed.

Lemma deref_app_inv (st : list Node) (x : Node) (id : nat) (n : Node) :
  deref (st ++ [x]) id = Some n ->
  ((id < length st)%nat /\ deref st id = Some n) \/ (id = length st /\ n = x).
Proof.
  unfold deref. intros E. destruct (Nat.lt_ge_cases id (length st)) as [Hlt | Hge].
  - rewrite nth_error_app1 in E by exact Hlt. auto.
  - rewrite nth_error_app2 in E by exact Hge.
    destruct (id - length st)%nat as [| k] eqn:Ek; simpl in E.
    + right. split; [lia | congruence].
    + destruct k; discriminate.
Qed.

Lemma deref_app_old (st : list Node) (x : Node) (id : nat) (n : Node) :
  deref st id = Some n -> deref (st ++ [x]) id = Some n.
Proof.
  intros E. unfold deref. rewrite nth_error_app1; [exact E |].
  apply (deref_lt _ _ _ E).
Qed.

Lemma deref_app_new (st : list Node) (x : Node) :
  deref (st ++ [x]) (length st) = Some x.
Proof.
  unfold deref. rewrite nth_error_app2 by lia. rewrite Nat.sub_diag. reflexivity.
Qed.

Lemma deref_update_inv (st : list Node) (v : nat) (x : Node) (id : nat) (n : Node) :
  (v < length st)%nat ->
  deref (update st v x) id = Some n ->
  (id <> v /\ deref st id = Some n) \/ (id = v /\ n = x).
Proof.
  unfold deref. intros Hv E. destruct (Nat.eq_dec v id) as [<- | Hne].
  - rewrite nth_error_update_same in E by exact Hv. right. split; congruence.
  - rewrite nth_error_update_other in E by exact Hne. left. split; congruence.
Qed.

Lemma deref_update_old (st : list Node) (v : nat) (x : Node) (id : nat) :
  id <> v -> deref (update st v x) id = deref st id.
Proof. intros H. unfold deref. apply nth_error_update_other. congruence. Qed.

Lemma deref_update_new (st : list Node) (v : nat) (x : Node) :
  (v < length st)%nat -> deref (update st v x) v = Some x.
Proof. intros H. unfold deref. apply nth_error_update_same. exact H. Qed.

Lemma G_of_deref (st : list Node) (id : nat) (n : Node) :
  deref st id = Some n -> G_of st id = G n.
Proof. intros E. unfold G_of. rewrite E. reflexivity. Qed.

Lemma scoreF_deref (st : list Node) (id : nat) (n : Node) :
  deref st id = Some n -> scoreF st id = F n.
Proof. intros E. unfold scoreF. rewrite E. reflexivity. Qed.

(** ** Routes *)

Lemma route_single (g : Grid) (a : Axial) (h : Hexagon) :
  In h (getNeighbors g a) -> blocked h = false ->
  route_to g a [h] h /\ (route_cost [h] == cost h)%Q.
Proof.
  intros Hin Hb. unfold route_to; simpl. repeat split; auto.
  - discriminate.
  - lra.
Qed.

Lemma route_extend (g : Grid) (route : list Hexagon) :
  forall (a : Axial) (h h' : Hexagon),
  route_to g a route h -> In h' (getNeighbors g (pos h)) -> blocked h' = false ->
  route_to g a (route ++ [h']) h'
  /\ (route_cost (route ++ [h']) == route_cost route + cost h')%Q.
Proof.
  induction route as [| x route IH]; intros a h h' [Hr [Hlast Hne]] Hin Hb;
    [contradiction |].
  destruct route as [| y route].
  - simpl in Hlast. subst x. simpl in Hr. destruct Hr as [Hx [Hbx _]].
    unfold route_to; simpl. repeat split; auto; try discriminate. lra.
  - simpl in Hr. destruct Hr as [Hx [Hbx Hr]].
    assert (Hto : route_to g (pos x) (y :: route) h).
    { split; [exact Hr | split; [exact Hlast | discriminate]]. }
    destruct (IH (pos x) h h' Hto Hin Hb) as [[Hr' [Hlast' _]] Hc].
    split; [split; [| split] |].
    + simpl. split; [exact Hx | split; [exact Hbx | exact Hr']].
    + exact Hlast'.
    + discriminate.
    + change (route_cost ((x :: y :: route) ++ [h']))
        with (cost x + route_cost ((y :: route) ++ [h']))%Q.
      change (route_cost (x :: y :: route)) with (cost x + route_cost (y :: route))%Q.
      rewrite Hc. lra.
Qed.

Lemma route_to_canonical (g : Grid) (route : list Hexagon) :
  forall (a : Axial) (h : Hexagon),
  route_to g a route h -> getHexAt g (pos h) = Some h /\ blocked h = false.
Proof.
  induction route as [| x route IH]; intros a h [Hr [Hlast Hne]]; [contradiction |].
  destruct route as [| y route].
  - simpl in Hlast. subst x. simpl in Hr. destruct Hr as [Hx [Hb _]].
    apply In_getNeighbors in Hx. tauto.
  - simpl in Hr. destruct Hr as [_ [_ Hr]].
    apply (IH (pos x) h). split; [exact Hr | split; [exact Hlast | discriminate]].
Qed.

Lemma route_cost_nonneg (g : Grid) (route : list Hexagon) :
  costs_nonneg g -> forall a, is_route g a route -> (0 <= route_cost route)%Q.
Proof.
  intros Hc. induction route as [| x route IH]; intros a Hr; simpl; [lra |].
  simpl in Hr. destruct Hr as [Hx [_ Hr]].
  apply In_getNeighbors in Hx. destruct Hx as [_ Hx].
  apply getHexAt_Some in Hx. destruct Hx as [Hx _].
  specialize (Hc x Hx). specialize (IH (pos x) Hr). lra.
Qed.

Lemma neighbor_cost_nonneg (g : Grid) (a : Axial) (h : Hexagon) :
  costs_nonneg g -> In h (getNeighbors g a) -> (0 <= cost h)%Q.
Proof.
  intros Hc Hin. apply In_getNeighbors in Hin. destruct Hin as [_ Hin].
  apply getHexAt_Some in Hin. apply Hc. tauto.
Qed.

(** ** The invariant of [getRange] *)

Lemma Axial_eq_dec (p q : Axial) : {p = q} + {p <> q}.
Proof. decide equality; apply Z.eq_dec. Qed.

Lemma Node_new_fields (p : Place) (par : option nat) (g : Q) :
  hex (Node_new p par g (Some 0%Q)) = p
  /\ G (Node_new p par g (Some 0%Q)) = g
  /\ (F (Node_new p par g (Some 0%Q)) == g)%Q.
Proof. unfold Node_new, rescore; simpl. repeat split. lra. Qed.

Lemma rescore_fields (n : Node) (par : option nat) (g : Q) :
  hex (rescore n par g (Some 0%Q)) = hex n
  /\ G (rescore n par g (Some 0%Q)) = g
  /\ (F (rescore n par g (Some 0%Q)) == g)%Q.
Proof. unfold rescore; simpl. repeat split. lra. Qed.

Lemma NoDup_snoc {A} (l : list A) (x : A) : NoDup l -> ~ In x l -> NoDup (l ++ [x]).
Proof.
  intros Hnd Hnot. apply (Permutation_NoDup (Permutation_cons_append l x)).
  constructor; assumption.
Qed.

Section RangeInvariant.

Variable g : Grid.
Variable a : Axial.
Variable m : Q.
Hypothesis Hcost : costs_nonneg g.

Lemma range_init_inv : range_inv g a m (range_init a).
Proof.
  assert (Hd : forall id n, deref (store (range_init a)) id = Some n ->
                 id = 0%nat /\ n = Node_new (AtAxial a) None 0%Q None).
  { intros [| id] n E; simpl in E.
    - split; [reflexivity | congruence].
    - destruct id; discriminate. }
  split; [| split; [| split]].
  - constructor.
    + eexists. split; [reflexivity |]. split; reflexivity.
    + intros k id. simpl. split; [contradiction |].
      intros [Hid [n [E _]]]. apply Hd in E. lia.
    + constructor.
    + intros id n E Hid. apply Hd in E. lia.
    + intros id n E. apply Hd in E. destruct E as [_ ->]. simpl. split; lra.
    + intros i Hi. simpl in Hi. lia.
    + simpl. constructor; [simpl; tauto | constructor].
    + intros id. simpl. split.
      * intros [<- | []]. split; [lia |]. intros [n [_ Hc]]. discriminate.
      * intros [Hlt _]. left. lia.
    + intros k Hk. discriminate.
    + intros id id' n n' E E' _. apply Hd in E, E'. lia.
  - right. reflexivity.
  - intros c o [n [_ Hc]]. discriminate.
  - intros u nu h [n [_ Hc]]. discriminate.
Qed.

(** A route to a neighbour of the position of a node, through that node. *)
Lemma route_via (s : Search Place) (cur : nat) (nc : Node) (h : Hexagon) :
  core g a m s -> deref (store s) cur = Some nc ->
  In h (getNeighbors g (place (hex nc))) -> blocked h = false ->
  exists route, route_to g a route h /\ (route_cost route <= G nc + cost h)%Q.
Proof.
  intros Hcore Ec Hin Hb. destruct cur as [| cur].
  - destruct (core_root _ _ _ _ Hcore) as [n0 [E0 [Hhex HG]]].
    assert (nc = n0) by congruence. subst nc.
    rewrite Hhex in Hin. simpl in Hin.
    destruct (route_single g a h Hin Hb) as [Hto Hc].
    exists [h]. split; [exact Hto |]. rewrite Hc, HG. lra.
  - destruct (core_cell _ _ _ _ Hcore _ _ Ec ltac:(lia))
      as [hc [Hhex [_ [_ [_ [_ [route [Hto Hc]]]]]]]].
    rewrite Hhex in Hin. simpl in Hin.
    destruct (route_extend g route a hc h Hto Hin Hb) as [Hto' Hc'].
    exists (route ++ [h])%list. split; [exact Hto' |]. rewrite Hc'. lra.
Qed.

Lemma core_G_nonneg (s : Search Place) (id : nat) (n : Node) :
  core g a m s -> deref (store s) id = Some n -> (0 <= G n)%Q.
Proof. intros Hcore E. apply (core_score _ _ _ _ Hcore id n E). Qed.

(** A node whose position is closed is not the one at an unclosed position. *)
Lemma closed_key (s : Search Place) (id : nat) (n : Node) :
  is_closed s id -> deref (store s) id = Some n ->
  obj_has (closedHexes s) (key_of n) = true.
Proof. intros [n' [E' Hc]] E. congruence. Qed.


Lemma core_create (s : Search Place) (cur : nat) (nc : Node) (h : Hexagon) :
  core g a m s ->
  obj_has (closedHexes s) (getKey a) = true ->
  deref (store s) cur = Some nc ->
  In h (getNeighbors g (place (hex nc))) ->
  blocked h = false ->
  obj_has (closedHexes s) (getKey (pos h)) = false ->
  obj_get (visitedNodes s) (getKey (pos h)) = None ->
  (G nc + cost h <= m)%Q ->
  core g a m (range_create cur s h (G nc + cost h) 0).
Proof.
  intros Hcore Ha Ec Hin Hb Hnc Hnv Hle.
  set (nNode := Node_new (AtHexagon h) (Some cur) (G nc + cost h) (Some 0%Q)).
  destruct (Node_new_fields (AtHexagon h) (Some cur) (G nc + cost h)) as [Nhex [NG NF]].
  fold nNode in Nhex, NG, NF.
  assert (Nkey : key_of nNode = getKey (pos h)) by (unfold key_of; rewrite Nhex; reflexivity).
  assert (Hpa : pos h <> a) by (intros E; rewrite E in Hnc; congruence).
  assert (Hlen : (1 <= length (store s))%nat).
  { destruct (core_root _ _ _ _ Hcore) as [n0 [E0 _]]. apply deref_lt in E0. lia. }
  assert (Hfresh : forall id n, deref (store s) id = Some n -> key_of n <> getKey (pos h)).
  { intros id n E Ek. destruct id as [| id].
    - destruct (core_root _ _ _ _ Hcore) as [n0 [E0 [Hhex _]]].
      assert (n = n0) by congruence. subst n.
      unfold key_of in Ek. rewrite Hhex in Ek. simpl in Ek.
      apply getKey_inj in Ek. congruence.
    - apply obj_get_None in Hnv. apply Hnv.
      apply in_map_iff. exists (getKey (pos h), S id). split; [reflexivity |].
      apply (core_visited _ _ _ _ Hcore). split; [lia | eauto]. }
  assert (Hcl : forall id, is_closed (range_create cur s h (G nc + cost h) 0) id
                           <-> is_closed s id).
  { intros id. unfold is_closed, range_create; cbn [store openHeap closedHexes visitedNodes]. fold nNode. split.
    - intros [n [E Hc]]. apply deref_app_inv in E. destruct E as [[_ E] | [_ ->]].
      + eauto.
      + rewrite Nkey in Hc. congruence.
    - intros [n [E Hc]]. exists n. split; [apply deref_app_old; exact E | exact Hc]. }
  constructor.
  - destruct (core_root _ _ _ _ Hcore) as [n0 [E0 H0]].
    exists n0. split; [| exact H0]. unfold range_create; cbn [store openHeap closedHexes visitedNodes]. apply deref_app_old, E0.
  - intros k id. unfold range_create; cbn [store openHeap closedHexes visitedNodes]. fold nNode.
    rewrite (obj_set_fresh _ _ _ Hnv), in_app_iff. split.
    + intros [Hold | [Enew | []]].
      * apply (core_visited _ _ _ _ Hcore) in Hold. destruct Hold as [Hid [n [E Ek]]].
        split; [exact Hid |]. exists n. split; [apply deref_app_old; exact E | exact Ek].
      * inversion Enew; subst k id. split; [exact Hlen |].
        exists nNode. split; [apply deref_app_new | exact Nkey].
    + intros [Hid [n [E Ek]]]. apply deref_app_inv in E. destruct E as [[_ E] | [-> ->]].
      * left. apply (core_visited _ _ _ _ Hcore). split; [exact Hid | eauto].
      * right. left. congruence.
  - unfold range_create; cbn [store openHeap closedHexes visitedNodes]. rewrite (obj_set_fresh _ _ _ Hnv), map_app. cbn [map fst].
    apply NoDup_snoc; [apply (core_visited_keys _ _ _ _ Hcore) |].
    apply obj_get_None. exact Hnv.
  - intros id n E Hid. unfold range_create in E; cbn [store openHeap closedHexes visitedNodes] in E. fold nNode in E.
    apply deref_app_inv in E. destruct E as [[_ E] | [_ ->]].
    + apply (core_cell _ _ _ _ Hcore id n E Hid).
    + exists h. rewrite NG. repeat split; auto.
      * apply In_getNeighbors in Hin. tauto.
      * apply (route_via s cur nc h Hcore Ec Hin Hb).
  - intros id n E. unfold range_create in E; cbn [store openHeap closedHexes visitedNodes] in E. fold nNode in E.
    apply deref_app_inv in E. destruct E as [[_ E] | [_ ->]].
    + apply (core_score _ _ _ _ Hcore id n E).
    + rewrite NG. split; [exact NF |].
      pose proof (core_G_nonneg s cur nc Hcore Ec).
      pose proof (neighbor_cost_nonneg g _ h Hcost Hin). lra.
  - unfold range_create; cbn [store openHeap closedHexes visitedNodes]. apply Heap_push_ok.
    apply (heap_ok_ext (scoreF (store s))); [| apply (core_heap _ _ _ _ Hcore)].
    intros x Hx. apply (core_open _ _ _ _ Hcore) in Hx. destruct Hx as [Hx _].
    destruct (deref_Some _ _ Hx) as [n E].
    rewrite (scoreF_deref _ _ _ E), (scoreF_deref _ _ n (deref_app_old _ _ _ _ E)).
    reflexivity.
  - unfold range_create; cbn [store openHeap closedHexes visitedNodes].
    apply (Permutation_NoDup (Permutation_sym (Heap_push_Permutation _ _ _))).
    constructor; [| apply (core_heap_nodup _ _ _ _ Hcore)].
    intros Hx. apply (core_open _ _ _ _ Hcore) in Hx. lia.
  - intros id. rewrite Hcl. unfold range_create; cbn [store openHeap closedHexes visitedNodes].
    rewrite length_app; cbn [length]. split.
    + intros Hx. apply (Permutation_in _ (Heap_push_Permutation _ _ _)) in Hx.
      destruct Hx as [<- | Hx].
      * split; [lia |]. intros [n [E _]]. apply deref_lt in E. lia.
      * apply (core_open _ _ _ _ Hcore) in Hx. destruct Hx as [Hlt Hn].
        split; [lia | exact Hn].
    + intros [Hlt Hn].
      apply (Permutation_in _ (Permutation_sym (Heap_push_Permutation _ _ _))).
      destruct (Nat.eq_dec (length (store s)) id) as [E | Hne]; [left; exact E |].
      right. apply (core_open _ _ _ _ Hcore). split; [lia | exact Hn].
  - intros k Hk. unfold range_create in *; cbn [store openHeap closedHexes visitedNodes] in *.
    destruct (core_closed _ _ _ _ Hcore k Hk) as [id [n [E Ek]]].
    exists id, n. split; [apply deref_app_old; exact E | exact Ek].
  - intros id id' n n' E E' Ek. unfold range_create in E, E'; cbn [store openHeap closedHexes visitedNodes] in E, E'.
    fold nNode in E, E'.
    apply deref_app_inv in E, E'.
    destruct E as [[_ E] | [-> ->]], E' as [[_ E'] | [-> ->]].
    + apply (core_inj _ _ _ _ Hcore id id' n n' E E' Ek).
    + exfalso. apply (Hfresh id n E). congruence.
    + exfalso. apply (Hfresh id' n' E'). congruence.
    + reflexivity.
Qed.

(** The node [visitedNodes] holds for an unclosed neighbour [h]. *)
Lemma visited_node (s : Search Place) (h : Hexagon) (v : nat) :
  core g a m s ->
  getHexAt g (pos h) = Some h ->
  obj_has (closedHexes s) (getKey (pos h)) = false ->
  obj_get (visitedNodes s) (getKey (pos h)) = Some v ->
  exists vNode,
    deref (store s) v = Some vNode /\ hex vNode = AtHexagon h
    /\ (1 <= v)%nat /\ In v (openHeap s) /\ ~ is_closed s v.
Proof.
  intros Hcore Hcan Hnc Hv. apply obj_get_In in Hv.
  apply (core_visited _ _ _ _ Hcore) in Hv. destruct Hv as [Hid [vNode [Ev Ek]]].
  destruct (core_cell _ _ _ _ Hcore v vNode Ev Hid) as [hv [Hhex [Hcv _]]].
  assert (hv = h).
  { unfold key_of in Ek. rewrite Hhex in Ek. simpl in Ek. apply getKey_inj in Ek.
    rewrite Ek in Hcv. congruence. }
  subst hv.
  assert (Hn : ~ is_closed s v).
  { intros Hc. apply (closed_key s v vNode Hc) in Ev. congruence. }
  exists vNode. repeat split; auto.
  apply (core_open _ _ _ _ Hcore). split; [apply (deref_lt _ _ _ Ev) | exact Hn].
Qed.

Lemma core_rescore (s : Search Place) (cur : nat) (nc : Node) (h : Hexagon) (v : nat) :
  core g a m s ->
  deref (store s) cur = Some nc ->
  In h (getNeighbors g (place (hex nc))) ->
  blocked h = false ->
  obj_has (closedHexes s) (getKey (pos h)) = false ->
  obj_get (visitedNodes s) (getKey (pos h)) = Some v ->
  (G nc + cost h <= m)%Q ->
  (G nc + cost h < G_of (store s) v)%Q ->
  core g a m (range_rescore cur s v (G nc + cost h) 0).
Proof.
  intros Hcore Ec Hin Hb Hnc Hv Hle Hlt.
  assert (Hcan : getHexAt g (pos h) = Some h) by (apply In_getNeighbors in Hin; tauto).
  destruct (visited_node s h v Hcore Hcan Hnc Hv) as [vNode [Ev [Hhex [Hid [Hopen Hncl]]]]].
  unfold range_rescore. rewrite Ev.
  set (vNode' := rescore vNode (Some cur) (G nc + cost h) (Some 0%Q)).
  destruct (rescore_fields vNode (Some cur) (G nc + cost h)) as [Nhex [NG NF]].
  fold vNode' in Nhex, NG, NF.
  assert (Nkey : key_of vNode' = key_of vNode) by (unfold key_of; rewrite Nhex; reflexivity).
  pose proof (deref_lt _ _ _ Ev) as Hvlt.
  set (s' := {| store := update (store s) v vNode';
                openHeap := Heap_rescoreElement (scoreF (update (store s) v vNode'))
                              (openHeap s) v;
                closedHexes := closedHexes s;
                visitedNodes := visitedNodes s |}).
  assert (Hfwd : forall id n', deref (store s') id = Some n' ->
            exists n, deref (store s) id = Some n /\ key_of n' = key_of n
                      /\ (id <> v -> n' = n) /\ (id = v -> n' = vNode')).
  { intros id n' E. apply deref_update_inv in E; [| exact Hvlt].
    destruct E as [[Hne E] | [-> ->]].
    - exists n'. repeat split; auto. intros; contradiction.
    - exists vNode. repeat split; auto. intros; contradiction. }
  assert (Hbwd : forall id n, deref (store s) id = Some n ->
            exists n', deref (store s') id = Some n' /\ key_of n' = key_of n
                       /\ (id <> v -> n' = n) /\ (id = v -> n' = vNode')).
  { intros id n E. destruct (Nat.eq_dec id v) as [-> | Hne].
    - exists vNode'. split; [apply deref_update_new; exact Hvlt |].
      assert (n = vNode) by congruence. subst n.
      repeat split; auto. intros; contradiction.
    - exists n. split; [cbn [s' store]; rewrite deref_update_old by exact Hne; exact E |].
      repeat split; auto. intros; contradiction. }
  assert (Hcl : forall id, is_closed s' id <-> is_closed s id).
  { intros id. unfold is_closed. cbn [s' closedHexes]. split.
    - intros [n' [E Hc]]. destruct (Hfwd id n' E) as [n [E0 [Ek _]]].
      exists n. split; [exact E0 | congruence].
    - intros [n [E Hc]]. destruct (Hbwd id n E) as [n' [E0 [Ek _]]].
      exists n'. split; [exact E0 | congruence]. }
  constructor.
  - destruct (core_root _ _ _ _ Hcore) as [n0 [E0 H0]].
    exists n0. split; [| exact H0]. cbn [s' store].
    rewrite deref_update_old by lia. exact E0.
  - intros k id. cbn [s' visitedNodes]. rewrite (core_visited _ _ _ _ Hcore). split.
    + intros [Hid' [n [E Ek]]]. split; [exact Hid' |].
      destruct (Hbwd id n E) as [n' [E' [Ek' _]]]. exists n'. split; [exact E' | congruence].
    + intros [Hid' [n' [E' Ek']]]. split; [exact Hid' |].
      destruct (Hfwd id n' E') as [n [E [Ek _]]]. exists n. split; [exact E | congruence].
  - apply (core_visited_keys _ _ _ _ Hcore).
  - intros id n' E' Hid'. destruct (Hfwd id n' E') as [n [E [_ [Hsame Hnew]]]].
    destruct (Nat.eq_dec id v) as [-> | Hne].
    + rewrite (Hnew eq_refl). exists h. rewrite NG, Nhex. repeat split; auto.
      * intros Epa. rewrite Epa in Hnc.
        destruct (core_cell _ _ _ _ Hcore v vNode Ev Hid) as [hv [Hhex' [_ [_ [Hpa _]]]]].
        rewrite Hhex in Hhex'. inversion Hhex'. subst hv. contradiction.
      * apply (route_via s cur nc h Hcore Ec Hin Hb).
    + rewrite (Hsame Hne). apply (core_cell _ _ _ _ Hcore id n E Hid').
  - intros id n' E'. destruct (Hfwd id n' E') as [n [E [_ [Hsame Hnew]]]].
    destruct (Nat.eq_dec id v) as [-> | Hne].
    + rewrite (Hnew eq_refl), NG. split; [exact NF |].
      pose proof (core_G_nonneg s cur nc Hcore Ec).
      pose proof (neighbor_cost_nonneg g _ h Hcost Hin). lra.
    + rewrite (Hsame Hne). apply (core_score _ _ _ _ Hcore id n E).
  - cbn [s' store openHeap].
    apply (Heap_rescoreElement_ok (scoreF (store s))).
    + apply (core_heap _ _ _ _ Hcore).
    + apply (core_heap_nodup _ _ _ _ Hcore).
    + exact Hopen.
    + intros x Hx. unfold scoreF. rewrite deref_update_old by exact Hx. reflexivity.
    + rewrite (scoreF_deref _ _ _ (deref_update_new _ _ vNode' Hvlt)).
      rewrite (scoreF_deref _ _ _ Ev).
      destruct (core_score _ _ _ _ Hcore v vNode Ev) as [HF _].
      rewrite (G_of_deref _ _ _ Ev) in Hlt. lra.
  - cbn [s' openHeap].
    apply (Permutation_NoDup (Permutation_sym (Heap_rescoreElement_Permutation _ _ _))).
    apply (core_heap_nodup _ _ _ _ Hcore).
  - intros id. rewrite Hcl. cbn [s' store openHeap]. rewrite update_length.
    rewrite <- (core_open _ _ _ _ Hcore).
    split; apply Permutation_in;
      [| symmetry]; apply Heap_rescoreElement_Permutation.
  - intros k Hk. cbn [s' closedHexes] in Hk.
    destruct (core_closed _ _ _ _ Hcore k Hk) as [id [n [E Ek]]].
    destruct (Hbwd id n E) as [n' [E' [Ek' _]]].
    exists id, n'. split; [exact E' | congruence].
  - intros id id' n1 n2 E1 E2 Ek.
    destruct (Hfwd id n1 E1) as [n1' [E1' [Ek1 _]]].
    destruct (Hfwd id' n2 E2) as [n2' [E2' [Ek2 _]]].
    apply (core_inj _ _ _ _ Hcore id id' n1' n2' E1' E2'). congruence.
Qed.

Lemma relaxed_mono (s s' : Search Place) (nu : Node) (h : Hexagon) :
  store_mono s s' -> relaxed m s nu h -> relaxed m s' nu h.
Proof.
  intros Hmono Hr Hb Hle. destruct (Hr Hb Hle) as [id [n [E [Hp HG]]]].
  destruct (Hmono id n E) as [n' [E' [Hhex [HG' _]]]].
  exists id, n'. split; [exact E' |]. split; [rewrite Hhex; exact Hp | lra].
Qed.

(** One neighbour dealt with: from the invariant with [h] pending to the
    invariant without it. *)
Lemma mid_advance (s s' : Search Place) (cur : nat) (nc : Node) (h : Hexagon)
  (rest : list Hexagon) :
  mid_inv g a m cur (h :: rest) s ->
  deref (store s) cur = Some nc ->
  getHexAt g (pos h) = Some h ->
  core g a m s' ->
  closedHexes s' = closedHexes s ->
  store_mono s s' ->
  (forall id, is_closed s' id -> is_closed s id) ->
  (forall o, In o (openHeap s') -> (G nc <= G_of (store s') o)%Q) ->
  relaxed m s' nc h ->
  mid_inv g a m cur rest s' /\ deref (store s') cur = Some nc.
Proof.
  intros [Hcore [Ha [Hcur [Hle [Hge Hrel]]]]] Ec Hcan Hcore' Ecl Hmono Hback Hheap Hh.
  assert (Ec' : deref (store s') cur = Some nc).
  { destruct (Hmono cur nc Ec) as [n' [E' [_ [_ Hsame]]]]. rewrite (Hsame Hcur) in E'. exact E'. }
  assert (Hkeep : forall id n, is_closed s' id -> deref (store s') id = Some n ->
                    deref (store s) id = Some n).
  { intros id n Hc E. apply Hback in Hc. pose proof Hc as [n0 [E0 Hc0]].
    destruct (Hmono id n0 E0) as [n' [E' [_ [_ Hsame]]]].
    rewrite (Hsame Hc) in E'. congruence. }
  split; [| exact Ec'].
  split; [exact Hcore' |]. split; [rewrite Ecl; exact Ha |].
  split; [| split; [| split]].
  - destruct Hcur as [n [E Hc]]. exists nc. split; [exact Ec' |].
    rewrite Ecl. congruence.
  - intros c Hc. pose proof (Hback c Hc) as Hc0. destruct Hc0 as [n [E Hk]].
    destruct (Hmono c n E) as [n' [E' [_ [_ Hsame]]]].
    rewrite (Hsame (Hback c Hc)) in E'.
    rewrite (G_of_deref _ _ _ E'), (G_of_deref _ _ _ Ec').
    rewrite <- (G_of_deref _ _ _ E), <- (G_of_deref _ _ _ Ec).
    apply Hle. apply Hback, Hc.
  - intros o Ho. rewrite (G_of_deref _ _ _ Ec'). apply Hheap, Ho.
  - intros u nu h0 Hu Eu Hin Hpend.
    pose proof (Hkeep u nu Hu Eu) as Eu0.
    destruct (Nat.eq_dec u cur) as [-> | Hne].
    + assert (nu = nc) by congruence. subst nu.
      destruct (Axial_eq_dec (pos h0) (pos h)) as [Ep | Hp].
      * assert (h0 = h).
        { apply In_getNeighbors in Hin. destruct Hin as [_ Hin].
          rewrite Ep in Hin. congruence. }
        subst h0. exact Hh.
      * apply (relaxed_mono s s' nc h0 Hmono).
        apply (Hrel cur nc h0 (Hback _ Hu) Eu0 Hin).
        intros _ [E | Hr]; [subst h0; congruence | apply (Hpend eq_refl Hr)].
    + apply (relaxed_mono s s' nu h0 Hmono).
      apply (Hrel u nu h0 (Hback _ Hu) Eu0 Hin). intros E. contradiction.
Qed.

Lemma range_visit_closed (s : Search Place) (cur : nat) (h : Hexagon) :
  closedHexes (range_visit m cur s h) = closedHexes s.
Proof.
  unfold range_visit, range_create, range_rescore.
  destruct (blocked h || obj_has (closedHexes s) (getKey (pos h))); [reflexivity |].
  destruct (obj_get (visitedNodes s) (getKey (pos h))) as [v |];
    destruct (Qle_bool _ _); cbn [andb]; try reflexivity.
  destruct (Qlt_bool _ _); [| reflexivity].
  destruct (deref (store s) v); reflexivity.
Qed.

Lemma store_mono_refl (s : Search Place) : store_mono s s.
Proof. intros id n E. exists n. repeat split; auto. lra. Qed.

(** Visiting one neighbour keeps the invariant. *)
Lemma mid_visit (s : Search Place) (cur : nat) (nc : Node) (h : Hexagon)
  (rest : list Hexagon) :
  mid_inv g a m cur (h :: rest) s ->
  deref (store s) cur = Some nc ->
  In h (getNeighbors g (place (hex nc))) ->
  mid_inv g a m cur rest (range_visit m cur s h)
  /\ deref (store (range_visit m cur s h)) cur = Some nc.
Proof.
  intros Hmid Ec Hin.
  pose proof Hmid as [Hcore [Ha [Hcur [Hle [Hge Hrel]]]]].
  assert (Hcan : getHexAt g (pos h) = Some h) by (apply In_getNeighbors in Hin; tauto).
  pose proof (neighbor_cost_nonneg g _ h Hcost Hin) as Hch.
  assert (Hskip : relaxed m s nc h ->
            mid_inv g a m cur rest s /\ deref (store s) cur = Some nc).
  { intros Hr. apply (mid_advance s s cur nc h rest); auto.
    - apply store_mono_refl.
    - intros o Ho. rewrite <- (G_of_deref _ _ _ Ec). apply Hge, Ho. }
  unfold range_visit. rewrite (G_of_deref _ _ _ Ec).
  destruct (blocked h) eqn:Hb; cbn [orb].
  { apply Hskip. intros Hb'. congruence. }
  destruct (obj_has (closedHexes s) (getKey (pos h))) eqn:Hnc.
  { apply Hskip. intros _ _.
    destruct (core_closed _ _ _ _ Hcore _ Hnc) as [id [n [E Ek]]].
    exists id, n. split; [exact E |]. split.
    - apply getKey_inj. exact Ek.
    - assert (Hc : is_closed s id).
      { exists n. split; [exact E |]. rewrite Ek. exact Hnc. }
      specialize (Hle id Hc).
      rewrite (G_of_deref _ _ _ E), (G_of_deref _ _ _ Ec) in Hle. lra. }
  destruct (Qle_bool (G nc + cost h) m) eqn:Hm; cbn [andb].
  2:{ destruct (obj_get (visitedNodes s) (getKey (pos h)));
      apply Hskip; intros _ Hle'; apply Qle_bool_iff in Hle'; congruence. }
  apply Qle_bool_iff in Hm.
  destruct (obj_get (visitedNodes s) (getKey (pos h))) as [v |] eqn:Hv.
  - destruct (visited_node s h v Hcore Hcan Hnc Hv) as [vNode [Ev [Hhex [Hid [Hopen Hncl]]]]].
    destruct (Qlt_bool (G nc + cost h) (G_of (store s) v)) eqn:Hlt.
    + apply Qlt_bool_true in Hlt.
      pose proof (core_rescore s cur nc h v Hcore Ec Hin Hb Hnc Hv Hm Hlt) as Hcore'.
      revert Hcore'. unfold range_rescore. rewrite Ev.
      set (vNode' := rescore vNode (Some cur) (G nc + cost h) (Some 0%Q)).
      destruct (rescore_fields vNode (Some cur) (G nc + cost h)) as [Nhex [NG NF]].
      fold vNode' in Nhex, NG, NF.
      pose proof (deref_lt _ _ _ Ev) as Hvlt.
      intros Hcore'.
      assert (Hmono : store_mono s
                {| store := update (store s) v vNode';
                   openHeap := Heap_rescoreElement (scoreF (update (store s) v vNode'))
                                 (openHeap s) v;
                   closedHexes := closedHexes s;
                   visitedNodes := visitedNodes s |}).
      { intros id n E. cbn [store]. destruct (Nat.eq_dec id v) as [-> | Hne].
        - exists vNode'. split; [apply deref_update_new; exact Hvlt |].
          assert (n = vNode) by congruence. subst n.
          split; [exact Nhex |]. split.
          + rewrite NG. rewrite (G_of_deref _ _ _ Ev) in Hlt. lra.
          + intros Hc. contradiction.
        - exists n. rewrite deref_update_old by exact Hne.
          repeat split; auto. lra. }
      apply (mid_advance s _ cur nc h rest); auto.
      * intros id [n' [E' Hc]]. cbn [store closedHexes] in E', Hc.
        apply deref_update_inv in E'; [| exact Hvlt].
        destruct E' as [[Hne E'] | [-> ->]].
        -- exists n'. split; assumption.
        -- exfalso. unfold key_of in Hc. rewrite Nhex, Hhex in Hc. simpl in Hc. congruence.
      * intros o Ho. cbn [store openHeap] in *.
        apply (Permutation_in _ (Heap_rescoreElement_Permutation _ _ _)) in Ho.
        destruct (Nat.eq_dec o v) as [-> | Hne].
        -- rewrite (G_of_deref _ _ _ (deref_update_new _ _ vNode' Hvlt)), NG. lra.
        -- unfold G_of. rewrite deref_update_old by exact Hne.
           rewrite <- (G_of_deref _ _ _ Ec). apply Hge, Ho.
      * intros _ _. exists v, vNode'. cbn [store].
        split; [apply deref_update_new; exact Hvlt |].
        split; [rewrite Nhex, Hhex; reflexivity | rewrite NG; lra].
    + apply Qlt_bool_false in Hlt. apply Hskip. intros _ _.
      exists v, vNode. split; [exact Ev |].
      split; [rewrite Hhex; reflexivity |].
      rewrite (G_of_deref _ _ _ Ev) in Hlt. exact Hlt.
  - pose proof (core_create s cur nc h Hcore Ha Ec Hin Hb Hnc Hv Hm) as Hcore'.
    revert Hcore'. unfold range_create.
    set (nNode := Node_new (AtHexagon h) (Some cur) (G nc + cost h) (Some 0%Q)).
    destruct (Node_new_fields (AtHexagon h) (Some cur) (G nc + cost h)) as [Nhex [NG NF]].
    fold nNode in Nhex, NG, NF.
    intros Hcore'.
    apply (mid_advance s _ cur nc h rest); auto.
    + intros id n E. exists n. cbn [store].
      split; [apply deref_app_old; exact E |]. repeat split; auto. lra.
    + intros id [n' [E' Hc]]. cbn [store closedHexes] in E', Hc.
      apply deref_app_inv in E'. destruct E' as [[_ E'] | [_ ->]].
      * exists n'. split; assumption.
      * exfalso. unfold key_of in Hc. rewrite Nhex in Hc. simpl in Hc. congruence.
    + intros o Ho. cbn [store openHeap] in *.
      apply (Permutation_in _ (Heap_push_Permutation _ _ _)) in Ho.
      destruct Ho as [<- | Ho].
      * rewrite (G_of_deref _ _ _ (deref_app_new _ nNode)), NG. lra.
      * pose proof Ho as Ho'. apply (core_open _ _ _ _ Hcore) in Ho'.
        destruct Ho' as [Hlt _]. destruct (deref_Some _ _ Hlt) as [n E].
        rewrite (G_of_deref _ _ _ (deref_app_old _ nNode _ _ E)).
        rewrite <- (G_of_deref _ _ _ E), <- (G_of_deref _ _ _ Ec). apply Hge, Ho.
    + intros _ _. exists (length (store s)), nNode. cbn [store].
      split; [apply deref_app_new |].
      split; [rewrite Nhex; reflexivity | rewrite NG; lra].
Qed.

(** Visiting all the neighbours of the popped node. *)
Lemma mid_fold (cur : nat) (nc : Node) (pending : list Hexagon) :
  forall s : Search Place,
  mid_inv g a m cur pending s ->
  deref (store s) cur = Some nc ->
  (forall h, In h pending -> In h (getNeighbors g (place (hex nc)))) ->
  mid_inv g a m cur [] (fold_left (range_visit m cur) pending s)
  /\ closedHexes (fold_left (range_visit m cur) pending s) = closedHexes s.
Proof.
  induction pending as [| h rest IH]; intros s Hmid Ec Hsub; simpl; [auto |].
  destruct (mid_visit s cur nc h rest Hmid Ec (Hsub h (or_introl eq_refl))) as [Hmid' Ec'].
  destruct (IH _ Hmid' Ec' (fun h' H' => Hsub h' (or_intror H'))) as [Hfin Ecl].
  split; [exact Hfin |]. rewrite Ecl. apply range_visit_closed.
Qed.

Lemma filter_length_mono {A} (f f' : A -> bool) (l : list A) :
  (forall x, f' x = true -> f x = true) ->
  (length (filter f' l) <= length (filter f l))%nat.
Proof.
  intros Himp. induction l as [| x l IH]; simpl; [lia |].
  destruct (f' x) eqn:E'.
  - rewrite (Himp x E'). simpl. lia.
  - destruct (f x); simpl; lia.
Qed.

Lemma filter_length_lt {A} (f f' : A -> bool) (l : list A) (x : A) :
  (forall y, f' y = true -> f y = true) ->
  In x l -> f x = true -> f' x = false ->
  (length (filter f' l) < length (filter f l))%nat.
Proof.
  intros Himp Hin Hf Hf'. induction l as [| y l IH]; simpl; [contradiction |].
  destruct Hin as [-> | Hin].
  - rewrite Hf, Hf'. simpl. pose proof (filter_length_mono f f' l Himp). lia.
  - specialize (IH Hin). destruct (f' y) eqn:E'.
    + rewrite (Himp y E'). simpl. lia.
    + destruct (f y); simpl; lia.
Qed.

(** The position of every node is that of the start or of a cell. *)
Lemma node_key_listed (s : Search Place) (id : nat) (n : Node) :
  core g a m s -> deref (store s) id = Some n ->
  In (key_of n) (getKey a :: map (fun h => getKey (pos h)) (hexes g)).
Proof.
  intros Hcore E. destruct id as [| id].
  - destruct (core_root _ _ _ _ Hcore) as [n0 [E0 [Hhex _]]].
    assert (n = n0) by congruence. subst n.
    left. unfold key_of. rewrite Hhex. reflexivity.
  - destruct (core_cell _ _ _ _ Hcore _ _ E ltac:(lia)) as [h [Hhex [Hcan _]]].
    right. apply in_map_iff. exists h. unfold key_of. rewrite Hhex.
    split; [reflexivity |]. apply getHexAt_Some in Hcan. tauto.
Qed.

(** One pass of the loop keeps the invariant and closes one more position. *)
Lemma range_step_inv (s : Search Place) :
  range_inv g a m s -> openHeap s <> [] ->
  exists s', range_step g m s = Some s' /\ range_inv g a m s'
             /\ (length (unclosed g a s') < length (unclosed g a s))%nat.
Proof.
  intros [Hcore [Hstart [Hord Hrel]]] Hne.
  destruct (Heap_pop_spec (scoreF (store s)) (openHeap s) Hne (core_heap _ _ _ _ Hcore))
    as [x [rest [Epop [Hperm [Hok Hmin]]]]].
  assert (Hx : In x (openHeap s)).
  { apply (Permutation_in _ Hperm). left. reflexivity. }
  pose proof (proj1 (core_open _ _ _ _ Hcore x) Hx) as [Hxlt Hxn].
  destruct (deref_Some _ _ Hxlt) as [cNode Ec].
  assert (Hxk : obj_has (closedHexes s) (key_of cNode) = false).
  { destruct (obj_has (closedHexes s) (key_of cNode)) eqn:E; [| reflexivity].
    exfalso. apply Hxn. exists cNode. auto. }
  assert (Hnd : NoDup (x :: rest)).
  { apply (Permutation_NoDup (Permutation_sym Hperm)), (core_heap_nodup _ _ _ _ Hcore). }
  inversion Hnd as [| ? ? Hxr Hndr]; subst.
  unfold range_step. rewrite Epop, Ec.
  fold (key_of cNode).
  set (s1 := {| store := store s; openHeap := rest;
                closedHexes := obj_set (closedHexes s) (key_of cNode) (hex cNode);
                visitedNodes := visitedNodes s |}).
  assert (Hcl1 : forall id, is_closed s1 id <-> is_closed s id \/ id = x).
  { intros id. unfold is_closed. cbn [s1 store closedHexes]. split.
    - intros [n [E Hc]]. rewrite obj_has_set in Hc. apply orb_true_iff in Hc.
      destruct Hc as [Hk | Hc].
      + right. apply String.eqb_eq in Hk.
        apply (core_inj _ _ _ _ Hcore id x n cNode E Ec). congruence.
      + left. eauto.
    - intros [[n [E Hc]] | ->].
      + exists n. split; [exact E |]. rewrite obj_has_set, Hc. apply orb_true_r.
      + exists cNode. split; [exact Ec |]. rewrite obj_has_set, String.eqb_refl.
        reflexivity. }
  assert (Hmid : mid_inv g a m x (getNeighbors g (place (hex cNode))) s1).
  { split; [| split; [| split; [| split; [| split]]]].
    - constructor; cbn [s1 store openHeap closedHexes visitedNodes].
      + apply (core_root _ _ _ _ Hcore).
      + apply (core_visited _ _ _ _ Hcore).
      + apply (core_visited_keys _ _ _ _ Hcore).
      + apply (core_cell _ _ _ _ Hcore).
      + apply (core_score _ _ _ _ Hcore).
      + exact Hok.
      + exact Hndr.
      + intros id. rewrite Hcl1. split.
        * intros Hin.
          assert (In id (openHeap s)) as Hin' by (apply (Permutation_in _ Hperm); right; exact Hin).
          apply (core_open _ _ _ _ Hcore) in Hin'. destruct Hin' as [Hlt Hn].
          split; [exact Hlt |]. intros [Hc | ->]; [contradiction | contradiction].
        * intros [Hlt Hn].
          assert (In id (x :: rest)) as [<- | Hin].
          { apply (Permutation_in _ (Permutation_sym Hperm)).
            apply (core_open _ _ _ _ Hcore). split; [exact Hlt | tauto]. }
          -- exfalso. apply Hn. right. reflexivity.
          -- exact Hin.
      + intros k Hk. rewrite obj_has_set in Hk. apply orb_true_iff in Hk.
        destruct Hk as [Hk | Hk].
        * apply String.eqb_eq in Hk. exists x, cNode. auto.
        * apply (core_closed _ _ _ _ Hcore k Hk).
      + apply (core_inj _ _ _ _ Hcore).
    - cbn [s1 closedHexes]. rewrite obj_has_set.
      destruct Hstart as [Hst | Hlen]; [rewrite Hst; apply orb_true_r |].
      assert (x = 0%nat) by lia. subst x.
      destruct (core_root _ _ _ _ Hcore) as [n0 [E0 [Hhex _]]].
      assert (cNode = n0) by congruence. subst cNode.
      unfold key_of. rewrite Hhex. simpl. rewrite String.eqb_refl. reflexivity.
    - apply Hcl1. right. reflexivity.
    - intros c Hc. cbn [s1 store]. apply Hcl1 in Hc. destruct Hc as [Hc | ->].
      + apply (Hord c x Hc Hx).
      + lra.
    - intros o Ho. cbn [s1 store openHeap] in *.
      assert (Ho' : In o (openHeap s)) by (apply (Permutation_in _ Hperm); right; exact Ho).
      specialize (Hmin o Ho').
      pose proof (proj1 (core_open _ _ _ _ Hcore o) Ho') as [Holt _].
      destruct (deref_Some _ _ Holt) as [no Eo].
      rewrite (scoreF_deref _ _ _ Ec), (scoreF_deref _ _ _ Eo) in Hmin.
      rewrite (G_of_deref _ _ _ Ec), (G_of_deref _ _ _ Eo).
      destruct (core_score _ _ _ _ Hcore _ _ Ec) as [HFc _].
      destruct (core_score _ _ _ _ Hcore _ _ Eo) as [HFo _]. lra.
    - intros u nu h0 Hu Eu Hin Hpend. cbn [s1 store] in Eu.
      apply Hcl1 in Hu. destruct Hu as [Hu | ->].
      + apply (Hrel u nu h0 Hu Eu Hin).
      + assert (nu = cNode) by congruence. subst nu.
        exfalso. apply (Hpend eq_refl Hin). }
  destruct (mid_fold x cNode _ s1 Hmid Ec (fun h H => H))
    as [[Hcore' [Ha' [Hcur' [Hle' [Hge' Hrel']]]]] Ecl'].
  eexists. split; [reflexivity |]. split.
  - split; [exact Hcore' |]. split; [left; exact Ha' |]. split.
    + intros c o Hc Ho. specialize (Hle' c Hc). specialize (Hge' o Ho). lra.
    + intros u nu h0 Hu Eu Hin. apply (Hrel' u nu h0 Hu Eu Hin). intros _ [].
  - unfold unclosed. rewrite Ecl'. cbn [s1 closedHexes].
    apply (filter_length_lt _ _ _ (key_of cNode)).
    + intros k Hk. rewrite obj_has_set in Hk.
      apply negb_true_iff in Hk. apply orb_false_iff in Hk.
      apply negb_true_iff. tauto.
    + apply (node_key_listed s x cNode Hcore Ec).
    + rewrite Hxk. reflexivity.
    + rewrite obj_has_set, String.eqb_refl. reflexivity.
Qed.

(** The loop ends within the fuel, with the invariant and an empty heap. *)
Lemma range_loop_inv (fuel : nat) : forall s : Search Place,
  range_inv g a m s -> (length (unclosed g a s) <= fuel)%nat ->
  exists s', range_loop fuel g m s = Some s' /\ range_inv g a m s' /\ openHeap s' = [].
Proof.
  induction fuel as [| fuel IH]; intros s Hinv Hfuel.
  - destruct (openHeap s) as [| x rest] eqn:Eh.
    + exists s. simpl. rewrite Eh. simpl. auto.
    + destruct (range_step_inv s Hinv) as [s' [_ [_ Hlt]]]; [rewrite Eh; discriminate |].
      lia.
  - destruct (openHeap s) as [| x rest] eqn:Eh.
    + exists s. simpl. rewrite Eh. simpl. auto.
    + destruct (range_step_inv s Hinv) as [s' [Estep [Hinv' Hlt]]];
        [rewrite Eh; discriminate |].
      destruct (IH s' Hinv' ltac:(lia)) as [s'' [Eloop Hfin]].
      exists s''. split; [| exact Hfin].
      cbn [range_loop]. rewrite Eh. cbn [Heap_size length Nat.ltb Nat.leb].
      rewrite Estep. exact Eloop.
Qed.

(** Once the heap is empty every node is at a closed position. *)
Lemma all_closed (s : Search Place) (u : nat) (nu : Node) :
  core g a m s -> openHeap s = [] -> deref (store s) u = Some nu -> is_closed s u.
Proof.
  intros Hcore Eh Eu.
  destruct (obj_has (closedHexes s) (key_of nu)) eqn:E; [exists nu; auto |].
  exfalso. assert (Hin : In u (openHeap s)).
  { apply (core_open _ _ _ _ Hcore). split; [apply (deref_lt _ _ _ Eu) |].
    intros Hc. apply (closed_key s u nu Hc) in Eu. congruence. }
  rewrite Eh in Hin. contradiction.
Qed.

(** At the end, a route within the budget from the position of a node leads
    to the position of a node. *)
Lemma reach (s : Search Place) (h : Hexagon) :
  range_inv g a m s -> openHeap s = [] ->
  forall (route : list Hexagon) (u : nat) (nu : Node),
  deref (store s) u = Some nu ->
  is_route g (place (hex nu)) route -> route <> [] -> last route h = h ->
  (G nu + route_cost route <= m)%Q ->
  exists id' n', deref (store s) id' = Some n' /\ place (hex n') = pos h.
Proof.
  intros [Hcore [_ [_ Hrel]]] Eh.
  induction route as [| h1 rest IH]; intros u nu Eu Hr Hne Hlast Hle; [contradiction |].
  simpl in Hr. destruct Hr as [Hin [Hb Hr]].
  pose proof (route_cost_nonneg g rest Hcost (pos h1) Hr) as Hpos.
  change (route_cost (h1 :: rest)) with (cost h1 + route_cost rest)%Q in Hle.
  destruct (Hrel u nu h1 (all_closed s u nu Hcore Eh Eu) Eu Hin Hb ltac:(lra))
    as [id' [n' [E' [Hp HG]]]].
  destruct rest as [| h2 rest].
  - simpl in Hlast. subst h1. eauto.
  - apply (IH id' n' E').
    + rewrite Hp. exact Hr.
    + discriminate.
    + exact Hlast.
    + lra.
Qed.

(** What the search has visited when the loop ends. *)
Lemma range_final (s : Search Place) (p : Place) :
  range_inv g a m s -> openHeap s = [] ->
  In p (range_result s) <-> exists h, p = AtHexagon h /\ within_budget g a m h.
Proof.
  intros Hinv Eh. pose proof Hinv as [Hcore _]. unfold range_result. split.
  - intros Hin. apply in_flat_map in Hin. destruct Hin as [[k id] [Hv Hp]].
    apply (core_visited _ _ _ _ Hcore) in Hv. destruct Hv as [Hid [n [E _]]].
    cbn [snd] in Hp. rewrite E in Hp. destruct Hp as [<- | []].
    destruct (core_cell _ _ _ _ Hcore id n E Hid)
      as [h [Hhex [_ [_ [Hpa [Hle [route [Hto Hc]]]]]]]].
    exists h. split; [exact Hhex |]. split; [exact Hpa |].
    exists route. split; [exact Hto | lra].
  - intros [h [-> [Hpa [route [Hto Hc]]]]].
    destruct (core_root _ _ _ _ Hcore) as [n0 [E0 [Hhex0 HG0]]].
    pose proof Hto as [Hr [Hlast Hne]].
    destruct (reach s h Hinv Eh route 0%nat n0 E0) as [id' [n' [E' Hp]]]; auto.
    { rewrite Hhex0. exact Hr. }
    { lra. }
    assert (Hid : (1 <= id')%nat).
    { destruct id' as [| id']; [| lia].
      assert (n' = n0) by congruence. subst n'.
      rewrite Hhex0 in Hp. simpl in Hp. congruence. }
    destruct (core_cell _ _ _ _ Hcore id' n' E' Hid) as [h' [Hhex' [Hcan' _]]].
    rewrite Hhex' in Hp. simpl in Hp.
    destruct (route_to_canonical g route a h Hto) as [Hcan _].
    assert (h' = h) by (rewrite Hp in Hcan'; congruence). subst h'.
    apply in_flat_map. exists (key_of n', id'). split.
    + apply (core_visited _ _ _ _ Hcore). split; [exact Hid | eauto].
    + cbn [snd]. rewrite E'. left. exact Hhex'.
Qed.

(** The cells returned have distinct positions. *)
Lemma range_result_NoDup (s : Search Place) :
  core g a m s -> NoDup (map place (range_result s)).
Proof.
  intros Hcore.
  assert (E : map (fun p => getKey (place p)) (range_result s) = map fst (visitedNodes s)).
  { unfold range_result.
    assert (H : forall kv, In kv (visitedNodes s) ->
              exists n, deref (store s) (snd kv) = Some n /\ key_of n = fst kv).
    { intros [k id] Hin. apply (core_visited _ _ _ _ Hcore) in Hin.
      destruct Hin as [_ Hn]. exact Hn. }
    induction (visitedNodes s) as [| kv l IH]; [reflexivity |].
    cbn [flat_map map]. rewrite map_app.
    destruct (H kv (or_introl eq_refl)) as [n [En Ek]]. rewrite En.
    cbn [map app]. rewrite IH by (intros kv' H'; apply H; right; exact H').
    f_equal. exact Ek. }
  pose proof (core_visited_keys _ _ _ _ Hcore) as Hnd. rewrite <- E in Hnd.
  rewrite <- map_map in Hnd. apply NoDup_map_inv in Hnd. exact Hnd.
Qed.

(** [getRange] returns, and returns the cells within the budget. *)
Lemma getRange_returns :
  exists r, getRange g a m = Some r
    /\ NoDup (map place r)
    /\ forall p, In p r <-> exists h, p = AtHexagon h /\ within_budget g a m h.
Proof.
  destruct (range_loop_inv (S (length (hexes g))) (range_init a) range_init_inv)
    as [s [Eloop [Hinv Eh]]].
  { unfold unclosed. etransitivity; [apply filter_length_le |].
    simpl. rewrite length_map. lia. }
  exists (range_result s). split; [| split].
  - unfold getRange, getRange_fuel. rewrite Eloop. reflexivity.
  - apply range_result_NoDup, Hinv.
  - intros p. apply range_final; assumption.
Qed.

End RangeInvariant.

(** ** Range search on a grid of unit costs *)

Lemma NoDup_flat_map {A B} (f : A -> list B) (l : list A) :
  NoDup l ->
  (forall x, In x l -> NoDup (f x)) ->
  (forall x x' y, In x l -> In x' l -> In y (f x) -> In y (f x') -> x = x') ->
  NoDup (flat_map f l).
Proof.
  induction 1 as [| x l Hnot Hnd IH]; intros Hf Hdisj; simpl; [constructor |].
  apply NoDup_app.
  - apply Hf. left. reflexivity.
  - apply IH.
    + intros x' Hx'. apply Hf. right. exact Hx'.
    + intros x1 x2 y H1 H2. apply Hdisj; right; assumption.
  - intros y Hy Hy'. apply in_flat_map in Hy'. destruct Hy' as [x' [Hx' Hy']].
    assert (x = x') by (apply (Hdisj x x' y); auto; [left; reflexivity | right; exact Hx']).
    subst x'. contradiction.
Qed.

Lemma range_NoDup (lo hi : Z) : NoDup (range lo hi).
Proof.
  unfold range. apply Finite.Injective_map_NoDup; [| apply seq_NoDup].
  intros i j E. lia.
Qed.

Lemma Grid_new_NoDup (r : Z) : NoDup (map pos (hexes (Grid_new r))).
Proof.
  rewrite Grid_new_hexes, flat_map_concat_map, concat_map, map_map, <- flat_map_concat_map.
  apply NoDup_flat_map; [apply range_NoDup | |].
  - intros x _. rewrite flat_map_concat_map, concat_map, map_map, <- flat_map_concat_map.
    apply NoDup_flat_map; [apply range_NoDup | |].
    + intros y _. destruct (_ && _); simpl; repeat constructor; simpl; tauto.
    + intros y y' p _ _ Hp Hp'.
      destruct ((- r <=? - (x + y)) && (- (x + y) <=? r)); simpl in Hp; [| contradiction].
      destruct ((- r <=? - (x + y')) && (- (x + y') <=? r)); simpl in Hp'; [| contradiction].
      destruct Hp as [<- | []], Hp' as [E | []]. inversion E. reflexivity.
  - intros x x' p _ _ Hp Hp'.
    apply in_map_iff in Hp, Hp'.
    destruct Hp as [h [<- Hh]], Hp' as [h' [E Hh']].
    apply in_flat_map in Hh, Hh'. destruct Hh as [y [_ Hh]], Hh' as [y' [_ Hh']].
    destruct ((- r <=? - (x + y)) && (- (x + y) <=? r)); simpl in Hh; [| contradiction].
    destruct ((- r <=? - (x' + y')) && (- (x' + y') <=? r)); simpl in Hh'; [| contradiction].
    destruct Hh as [<- | []], Hh' as [<- | []]. inversion E. reflexivity.
Qed.

Lemma find_NoDup_pos (l : list Hexagon) (h : Hexagon) :
  NoDup (map pos l) -> In h l -> find (fun h' => compareTo (pos h') (pos h)) l = Some h.
Proof.
  induction l as [| x l IH]; simpl; intros Hnd Hin; [contradiction |].
  inversion Hnd as [| ? ? Hnot Hnd']; subst.
  destruct Hin as [-> | Hin].
  - rewrite (proj2 (compareTo_true _ _) eq_refl). reflexivity.
  - destruct (compareTo (pos x) (pos h)) eqn:E.
    + apply compareTo_true in E. exfalso. apply Hnot. rewrite E. apply in_map. exact Hin.
    + apply IH; assumption.
Qed.

Lemma Grid_new_costs_positive (r : Z) : costs_positive (Grid_new r).
Proof.
  intros h Hin. apply In_Grid_new in Hin. destruct Hin as [-> _]. reflexivity.
Qed.

Lemma costs_positive_nonneg (g : Grid) : costs_positive g -> costs_nonneg g.
Proof. intros H h Hin. specialize (H h Hin). lra. Qed.

Lemma Grid_new_uniform (r : Z) : uniform_hexagon r (Grid_new r).
Proof.
  split; [reflexivity |]. intros h Hin.
  apply In_Grid_new in Hin. destruct Hin as [-> _]. split; reflexivity.
Qed.

(** A step toward [b] that stays inside the hexagon. *)
Lemma step_toward (r : Z) (p b : Axial) (k : Z) :
  in_hexagon r p -> in_hexagon r b -> distance_sum p b = 2 * k -> 1 <= k ->
  exists p', In p' (directions p) /\ in_hexagon r p' /\ distance_sum p' b = 2 * (k - 1).
Proof.
  destruct p as [x y], b as [bx by_]. unfold in_hexagon, distance_sum, directions.
  cbn [ax ay]. intros Hp Hb Hd Hk.
  assert (Hdir : forall ox oy,
            In (ox, oy) [(1, 0); (1, -1); (0, -1); (-1, 0); (-1, 1); (0, 1)] ->
            In (mkAxial (x + ox) (y + oy))
              [mkAxial (x + 1) y; mkAxial (x + 1) (y - 1); mkAxial x (y - 1);
               mkAxial (x - 1) y; mkAxial (x - 1) (y + 1); mkAxial x (y + 1)]).
  { intros ox oy Hin. cbn [In] in Hin.
    repeat (destruct Hin as [E | Hin];
            [inversion E; subst ox oy; cbn [In];
             repeat (first [left; f_equal; lia | right]) |]).
    contradiction. }
  assert (Hgo : forall ox oy,
            In (ox, oy) [(1, 0); (1, -1); (0, -1); (-1, 0); (-1, 1); (0, 1)] ->
            (- r <= x + ox <= r /\ - r <= y + oy <= r
             /\ - r <= x + ox + (y + oy) <= r)
            /\ Z.abs (x + ox - bx) + Z.abs (x + ox + (y + oy) - bx - by_)
                + Z.abs (y + oy - by_) = 2 * (k - 1) ->
            exists p', In p' [mkAxial (x + 1) y; mkAxial (x + 1) (y - 1); mkAxial x (y - 1);
                              mkAxial (x - 1) y; mkAxial (x - 1) (y + 1); mkAxial x (y + 1)]
              /\ (- r <= ax p' <= r /\ - r <= ay p' <= r /\ - r <= ax p' + ay p' <= r)
              /\ Z.abs (ax p' - bx) + Z.abs (ax p' + ay p' - bx - by_)
                  + Z.abs (ay p' - by_) = 2 * (k - 1)).
  { intros ox oy Hin [Hin' Hd']. exists (mkAxial (x + ox) (y + oy)).
    split; [apply Hdir, Hin | cbn [ax ay]; split; assumption]. }
  destruct (Z_lt_le_dec x bx) as [Hx | Hx].
  - destruct (Z_lt_le_dec by_ y) as [Hy | Hy].
    + apply (Hgo 1 (-1)); [cbn [In]; auto 10 | lia].
    + apply (Hgo 1 0); [cbn [In]; auto 10 | lia].
  - destruct (Z_lt_le_dec bx x) as [Hx' | Hx'].
    + destruct (Z_lt_le_dec y by_) as [Hy | Hy].
      * apply (Hgo (-1) 1); [cbn [In]; auto 10 | lia].
      * apply (Hgo (-1) 0); [cbn [In]; auto 10 | lia].
    + destruct (Z_lt_le_dec y by_) as [Hy | Hy].
      * apply (Hgo 0 1); [cbn [In]; auto 10 | lia].
      * apply (Hgo 0 (-1)); [cbn [In]; auto 10 | lia].
Qed.

Section Uniform.

Variable rad : Z.
Variable g : Grid.
Hypothesis Hu : uniform_hexagon rad g.

Lemma uniform_cell (h : Hexagon) :
  In h (hexes g) -> (cost h == 1)%Q /\ blocked h = false /\ in_hexagon rad (pos h).
Proof.
  intros Hin. destruct Hu as [Hpos Hcb]. destruct (Hcb h Hin) as [Hc Hb].
  split; [exact Hc |]. split; [exact Hb |].
  apply (in_map pos) in Hin. rewrite Hpos in Hin. apply in_map_iff in Hin.
  destruct Hin as [h' [<- Hin]]. apply In_Grid_new in Hin. tauto.
Qed.

Lemma uniform_at (p : Axial) :
  in_hexagon rad p -> exists c, In c (hexes g) /\ pos c = p.
Proof.
  intros Hp. destruct Hu as [Hpos _].
  assert (Hin : In p (map pos (hexes g))).
  { rewrite Hpos. apply in_map_iff.
    exists (Hexagon_new (ax p) (ay p) None VUndefined).
    split; [destruct p; reflexivity |]. apply In_Grid_new. simpl. auto. }
  apply in_map_iff in Hin. destruct Hin as [c [Ec Hin]]. eauto.
Qed.

Lemma uniform_canonical (h : Hexagon) :
  In h (hexes g) -> getHexAt g (pos h) = Some h.
Proof.
  intros Hin. apply find_NoDup_pos; [| exact Hin].
  destruct Hu as [-> _]. apply Grid_new_NoDup.
Qed.

(** Inside the hexagon a cell at distance [k >= 1] is the end of a route of
    [k] cells. *)
Lemma route_of_distance (h : Hexagon) (k : nat) :
  In h (hexes g) ->
  forall p, in_hexagon rad p -> distance_sum p (pos h) = 2 * Z.of_nat (S k) ->
  exists route, route_to g p route h
                /\ (route_cost route == inject_Z (Z.of_nat (S k)))%Q.
Proof.
  intros Hin. pose proof (uniform_cell h Hin) as [Hc [Hb Hh]].
  induction k as [| k IH]; intros p Hp Hd.
  - assert (Hn : In h (getNeighbors g p)).
    { apply In_getNeighbors. split; [| apply uniform_canonical, Hin].
      destruct (step_toward rad p (pos h) 1 Hp Hh Hd ltac:(lia)) as [p' [Hdir [_ Hd']]].
      assert (p' = pos h).
      { destruct p' as [x' y'], (pos h) as [hx hy].
        unfold distance_sum in Hd'; cbn [ax ay] in Hd'. f_equal; lia. }
      subst p'. exact Hdir. }
    destruct (route_single g p h Hn Hb) as [Hto Hcost].
    exists [h]. split; [exact Hto |]. rewrite Hcost, Hc. reflexivity.
  - destruct (step_toward rad p (pos h) (Z.of_nat (S (S k))) Hp Hh Hd ltac:(lia))
      as [p' [Hdir [Hp' Hd']]].
    destruct (IH p' Hp' ltac:(rewrite Hd'; lia)) as [route [[Hr [Hlast Hne]] Hcost]].
    destruct (uniform_at p' Hp') as [c [Hcin Epc]].
    destruct (uniform_cell c Hcin) as [Ecc [Ecb _]].
    exists (c :: route). split; [split; [| split] |].
    + cbn [is_route]. split; [| split].
      * apply In_getNeighbors. split; [rewrite Epc; exact Hdir |].
        apply uniform_canonical, Hcin.
      * exact Ecb.
      * rewrite Epc. exact Hr.
    + destruct route; [contradiction | exact Hlast].
    + discriminate.
    + change (route_cost (c :: route)) with (cost c + route_cost route)%Q.
      rewrite Hcost, Ecc.
      rewrite (Nat2Z.inj_succ (S k)). unfold Z.succ. rewrite inject_Z_plus.
      change (inject_Z 1) with 1%Q. lra.
Qed.

(** A route of cost at most [m] ends within distance [m]. *)
Lemma distance_of_route (route : list Hexagon) :
  forall (p : Axial) (h : Hexagon),
  route_to g p route h ->
  (getDistance p (pos h) <= route_cost route)%Q.
Proof.
  induction route as [| x route IH]; intros p h [Hr [Hlast Hne]]; [contradiction |].
  simpl in Hr. destruct Hr as [Hx [_ Hr]].
  apply In_getNeighbors in Hx. destruct Hx as [Hdir Hcan].
  apply getHexAt_Some in Hcan. destruct Hcan as [Hin _].
  apply uniform_cell in Hin. destruct Hin as [Hc _].
  apply directions_distance in Hdir.
  change (route_cost (x :: route)) with (cost x + route_cost route)%Q. rewrite Hc.
  destruct route as [| y route].
  - simpl in Hlast. subst x. change (route_cost []) with 0%Q.
    assert (E : (getDistance p (pos h) == inject_Z 1)%Q) by (apply getDistance_eq; lia).
    change (inject_Z 1) with 1%Q in E. lra.
  - assert (Hto : route_to g (pos x) (y :: route) h).
    { split; [exact Hr | split; [exact Hlast | discriminate]]. }
    specialize (IH (pos x) h Hto).
    pose proof (getDistance_triangle p (pos h) (pos x)) as Htri.
    assert (E : (getDistance p (pos x) == inject_Z 1)%Q) by (apply getDistance_eq; lia).
    change (inject_Z 1) with 1%Q in E. lra.
Qed.

(** With unit costs the cells within the budget are those within the
    distance. *)
Lemma within_budget_distance (a : Axial) (m : Q) (h : Hexagon) :
  In a (map pos (hexes g)) ->
  within_budget g a m h
  <-> In h (hexes g) /\ (getDistance a (pos h) <= m)%Q /\ pos h <> a.
Proof.
  intros Ha. apply in_map_iff in Ha. destruct Ha as [ha [Eha Hha]].
  pose proof (uniform_cell ha Hha) as [_ [_ Hain]]. rewrite Eha in Hain.
  split.
  - intros [Hpa [route [Hto Hc]]].
    destruct (route_to_canonical g route a h Hto) as [Hcan _].
    apply getHexAt_Some in Hcan. destruct Hcan as [Hin _].
    pose proof (distance_of_route route a h Hto). repeat split; auto. lra.
  - intros [Hin [Hd Hpa]]. split; [exact Hpa |].
    destruct (distance_sum_even a (pos h)) as [k [Ek Hk]].
    assert (Hk1 : 1 <= k).
    { destruct (Z.eq_dec k 0) as [-> | Hne]; [| lia].
      exfalso. apply Hpa. destruct a as [x y], (pos h) as [hx hy].
      unfold distance_sum in Ek; cbn [ax ay] in Ek. f_equal; lia. }
    destruct (route_of_distance h (Z.to_nat (k - 1)) Hin a Hain) as [route [Hto Hc]].
    { rewrite Ek. lia. }
    exists route. split; [exact Hto |]. rewrite Hc.
    assert (E : (getDistance a (pos h) == inject_Z k)%Q) by (apply getDistance_eq; exact Ek).
    replace (Z.of_nat (S (Z.to_nat (k - 1)))) with k by lia. lra.
Qed.

End Uniform.

(** ** The properties of [getRange] *)

Lemma route_cost_positive (g : Grid) (route : list Hexagon) :
  costs_positive g -> forall a, is_route g a route -> route <> [] ->
  (0 < route_cost route)%Q.
Proof.
  intros Hc a Hr Hne. destruct route as [| x route]; [contradiction |].
  simpl in Hr. destruct Hr as [Hx [_ Hr]].
  pose proof (route_cost_nonneg g route (costs_positive_nonneg g Hc) (pos x) Hr).
  apply In_getNeighbors in Hx. destruct Hx as [_ Hx].
  apply getHexAt_Some in Hx. destruct Hx as [Hx _]. specialize (Hc x Hx).
  change (route_cost (x :: route)) with (cost x + route_cost route)%Q. lra.
Qed.

Lemma within_budget_mono (g : Grid) (a : Axial) (m m' : Q) (h : Hexagon) :
  (m <= m')%Q -> within_budget g a m h -> within_budget g a m' h.
Proof.
  intros Hle [Hpa [route [Hto Hc]]]. split; [exact Hpa |].
  exists route. split; [exact Hto | lra].
Qed.

(** On a new grid [getRange] returns the cells within distance [m] of the
    start cell, the start cell left out. *)
Corollary getRange_new_grid (rad : Z) (a : Axial) (m : Q) :
  In a (map pos (hexes (Grid_new rad))) ->
  exists r, getRange (Grid_new rad) a m = Some r
    /\ forall p, In p r
          <-> exists h, p = AtHexagon h /\ In h (hexes (Grid_new rad))
                /\ (getDistance a (pos h) <= m)%Q /\ pos h <> a.
Proof.
  intros Ha.
  destruct (getRange_returns (Grid_new rad) a m
              (costs_positive_nonneg _ (Grid_new_costs_positive rad))) as [r [E [_ H]]].
  exists r. split; [exact E |]. intros p. rewrite H.
  split; intros [h [-> Hw]]; exists h; (split; [reflexivity |]);
    apply (within_budget_distance rad _ (Grid_new_uniform rad) a m h Ha); exact Hw.
Qed.

(** C7.  On a grid whose cells all have a positive cost, for every start
    position [a] and budgets [m <= m']: [getRange(a, 0)] is empty; [a] is
    never among the cells of [getRange(a, m)]; every cell of [getRange(a, m)]
    is a cell of [getRange(a, m')]; and when the grid is a hexagon of cells
    of cost 1 with nothing blocked and [a] is one of its cells,
    [getRange(a, m)] holds exactly the cells at distance at most [m] from
    [a], [a] left out. *)
Theorem getRange_properties (g : Grid) (a : Axial) (m m' : Q) :
  costs_positive g -> (m <= m')%Q ->
  getRange g a 0 = Some []
  /\ exists r r',
       getRange g a m = Some r /\ getRange g a m' = Some r'
       /\ (forall p, In p r -> place p <> a)
       /\ incl r r'
       /\ (forall rad, uniform_hexagon rad g -> In a (map pos (hexes g)) ->
             forall p, In p r
               <-> exists h, p = AtHexagon h /\ In h (hexes g)
                     /\ (getDistance a (pos h) <= m)%Q /\ pos h <> a).
Proof.
  intros Hpos Hle. pose proof (costs_positive_nonneg g Hpos) as Hnn.
  split.
  - destruct (getRange_returns g a 0 Hnn) as [r0 [E0 [_ H0]]].
    rewrite E0. f_equal. destruct r0 as [| p r0]; [reflexivity |].
    exfalso. destruct (proj1 (H0 p) (or_introl eq_refl)) as [h [_ [_ [route [Hto Hc]]]]].
    destruct Hto as [Hr [_ Hne]].
    pose proof (route_cost_positive g route Hpos a Hr Hne). lra.
  - destruct (getRange_returns g a m Hnn) as [r [E [_ H]]].
    destruct (getRange_returns g a m' Hnn) as [r' [E' [_ H']]].
    exists r, r'. split; [exact E |]. split; [exact E' |]. split; [| split].
    + intros p Hp. apply H in Hp. destruct Hp as [h [-> [Hpa _]]]. exact Hpa.
    + intros p Hp. apply H'. apply H in Hp. destruct Hp as [h [-> Hw]].
      exists h. split; [reflexivity |]. apply (within_budget_mono g a m m' h Hle Hw).
    + intros rad Hu Ha p. rewrite H. split.
      * intros [h [-> Hw]]. exists h. split; [reflexivity |].
        apply (within_budget_distance rad g Hu a m h Ha). exact Hw.
      * intros [h [-> Hw]]. exists h. split; [reflexivity |].
        apply (within_budget_distance rad g Hu a m h Ha). exact Hw.
Qed.

Lemma getRange_properties_witness :
  getRange (Grid_new 1) (mkAxial 0 0) 0 = Some []
  /\ exists r r',
       getRange (Grid_new 1) (mkAxial 0 0) 1 = Some r
       /\ getRange (Grid_new 1) (mkAxial 0 0) 2 = Some r'
       /\ (forall p, In p r -> place p <> mkAxial 0 0)
       /\ incl r r'
       /\ (forall p, In p r
             <-> exists h, p = AtHexagon h /\ In h (hexes (Grid_new 1))
                   /\ (getDistance (mkAxial 0 0) (pos h) <= 1)%Q
                   /\ pos h <> mkAxial 0 0).
Proof.
  assert (Hpos : costs_positive (Grid_new 1)).
  { intros h Hin. vm_compute in Hin.
    repeat (destruct Hin as [<- | Hin]; [reflexivity |]). contradiction. }
  assert (Hle : (1 <= 2)%Q) by (unfold Qle; simpl; lia).
  destruct (getRange_properties (Grid_new 1) (mkAxial 0 0) 1 2 Hpos Hle)
    as [H0 [r [r' [E [E' [Hna [Hincl Hdist]]]]]]].
  split; [exact H0 |]. exists r, r'.
  repeat (split; [assumption |]).
  apply (Hdist 1).
  - split; [reflexivity |]. intros h Hin. vm_compute in Hin.
    repeat (destruct Hin as [<- | Hin]; [split; reflexivity |]). contradiction.
  - vm_compute. auto 10.
Defined.

(** * Further properties *)

(** ** Coordinates *)

(** X1.  Two positions have the same key exactly when [compareTo] finds them
    equal, which is exactly when their coordinates are equal: the key maps
    [closedHexes] and [visitedNodes] never confuse two positions. *)
Theorem getKey_compareTo (a b : Axial) :
  (getKey a = getKey b <-> compareTo a b = true)
  /\ (getKey a = getKey b <-> (ax a = ax b /\ ay a = ay b)).
Proof.
  split.
  - rewrite compareTo_true. split; [apply getKey_inj | congruence].
  - split.
    + intros E. apply getKey_inj in E. subst b. auto.
    + intros [Ex Ey]. destruct a, b; simpl in *. congruence.
Qed.

(** X2.  The cube of every axial position satisfies x + y + z = 0 and
    converts back to that position; it carries the axial x as x and the
    axial y as z. *)
Theorem toCube_invariant (a : Axial) :
  cx (toCube a) + cy (toCube a) + cz (toCube a) = 0
  /\ cx (toCube a) = ax a /\ cz (toCube a) = ay a
  /\ toAxial (toCube a) = a.
Proof.
  split; [| split; [| split; [| apply toAxial_toCube]]];
    destruct a as [x y]; unfold toCube, Cube_new; cbn [ax ay cx cy cz];
    destruct (Z.eqb_spec y 0) as [E | E]; lia.
Qed.

(** X3.  A cube coordinate with x + y + z = 0 is recovered from its axial
    form: [toCube(toAxial(c)) = c]. *)
Theorem toCube_toAxial (c : Cube) :
  cx c + cy c + cz c = 0 -> toCube (toAxial c) = c.
Proof.
  destruct c as [x y z]. unfold toCube, toAxial, Cube_new; simpl. intros E.
  destruct (Z.eqb_spec z 0) as [Ez | Ez]; f_equal; lia.
Qed.

Lemma toCube_toAxial_witness :
  toCube (toAxial (mkCube 2 (-3) 1)) = mkCube 2 (-3) 1.
Proof. apply (toCube_toAxial (mkCube 2 (-3) 1)). reflexivity. Defined.

(** ** Distance *)

(** X4.  [getDistance] is a non-negative integer: the largest of the three
    absolute cube differences |dx|, |dy|, |dx + dy|. *)
Theorem getDistance_max (a b : Axial) :
  (getDistance a b
   == inject_Z (Z.max (Z.abs (ax a - ax b))
                 (Z.max (Z.abs (ay a - ay b))
                    (Z.abs (ax a + ay a - ax b - ay b)))))%Q
  /\ (0 <= getDistance a b)%Q.
Proof.
  split.
  - apply getDistance_eq. unfold distance_sum. lia.
  - unfold getDistance, Qle, Qdiv, Qmult, inject_Z.
    change (/ 2)%Q with (1 # 2)%Q; cbn [Qnum Qden]. unfold distance_sum. lia.
Qed.

(** ** Lookup and neighbours *)

Lemma in_hexagonb_true (r : Z) (a : Axial) : in_hexagonb r a = true <-> in_hexagon r a.
Proof.
  unfold in_hexagonb, in_hexagon. rewrite !andb_true_iff, !Z.leb_le. tauto.
Qed.

Lemma Grid_new_at (r : Z) (a : Axial) :
  in_hexagon r a -> In (Hexagon_new (ax a) (ay a) None VUndefined) (hexes (Grid_new r)).
Proof. intros Ha. apply In_Grid_new. simpl. split; [reflexivity | exact Ha]. Qed.

Lemma Grid_new_getHexAt (r : Z) (a : Axial) :
  getHexAt (Grid_new r) a
  = if in_hexagonb r a then Some {| pos := a; cost := 1%Q; blocked := false |} else None.
Proof.
  destruct (in_hexagonb r a) eqn:E.
  - apply in_hexagonb_true in E.
    pose proof (Grid_new_at r a E) as Hin.
    pose proof (uniform_canonical r (Grid_new r) (Grid_new_uniform r) _ Hin) as Hc.
    destruct a as [x y]. exact Hc.
  - destruct (getHexAt (Grid_new r) a) as [h |] eqn:Eh; [| reflexivity].
    apply getHexAt_Some in Eh. destruct Eh as [Hin <-].
    apply In_Grid_new in Hin. destruct Hin as [_ Hin].
    apply in_hexagonb_true in Hin. congruence.
Qed.

(** X5.  A new grid has a cell at a position exactly when |x|, |y| and
    |x + y| are at most the radius; no two cells share a position; the cell
    found at a position has cost 1 and is not blocked; elsewhere the lookup
    finds nothing. *)
Theorem Grid_new_lookup (r : Z) (a : Axial) :
  (in_hexagon r a ->
   getHexAt (Grid_new r) a = Some {| pos := a; cost := 1%Q; blocked := false |})
  /\ (~ in_hexagon r a -> getHexAt (Grid_new r) a = None)
  /\ (In a (map pos (hexes (Grid_new r))) <-> in_hexagon r a)
  /\ NoDup (map pos (hexes (Grid_new r))).
Proof.
  rewrite Grid_new_getHexAt. split; [| split; [| split]].
  - intros H. apply in_hexagonb_true in H. rewrite H. reflexivity.
  - intros H. destruct (in_hexagonb r a) eqn:E; [| reflexivity].
    apply in_hexagonb_true in E. contradiction.
  - split.
    + intros Hin. apply in_map_iff in Hin. destruct Hin as [h [<- Hin]].
      apply In_Grid_new in Hin. tauto.
    + intros H. apply in_map_iff. exists (Hexagon_new (ax a) (ay a) None VUndefined).
      split; [destruct a; reflexivity | apply Grid_new_at, H].
  - apply Grid_new_NoDup.
Qed.

Lemma distance_one_directions (a d : Axial) :
  distance_sum a d = 2 <-> In d (directions a).
Proof.
  split; [| apply directions_distance].
  destruct a as [x y], d as [u v]. unfold distance_sum, directions; cbn [ax ay In].
  intros E.
  assert (Hc : (u = x + 1 /\ v = y) \/ (u = x + 1 /\ v = y - 1) \/ (u = x /\ v = y - 1)
               \/ (u = x - 1 /\ v = y) \/ (u = x - 1 /\ v = y + 1) \/ (u = x /\ v = y + 1))
    by lia.
  destruct Hc as [[-> ->] | [[-> ->] | [[-> ->] | [[-> ->] | [[-> ->] | [-> ->]]]]]];
    auto 10.
Qed.

(** X6.  On any grid the neighbours of a position are exactly the cells, each
    the one [getHexAt] finds at its position, at distance 1. *)
Theorem getNeighbors_distance_one (g : Grid) (a : Axial) (h : Hexagon) :
  In h (getNeighbors g a)
  <-> getHexAt g (pos h) = Some h /\ (getDistance a (pos h) == 1)%Q.
Proof.
  rewrite In_getNeighbors. change 1%Q with (inject_Z 1).
  rewrite getDistance_eq, <- distance_one_directions. change (2 * 1) with 2. tauto.
Qed.

(** X7.  Being neighbours is symmetric: if [h'] is a neighbour of the cell
    [h] that the grid holds at its position, then [h] is a neighbour of
    [h']. *)
Theorem getNeighbors_symmetric (g : Grid) (h h' : Hexagon) :
  getHexAt g (pos h) = Some h ->
  In h' (getNeighbors g (pos h)) -> In h (getNeighbors g (pos h')).
Proof.
  intros Hc Hin. apply In_getNeighbors in Hin. destruct Hin as [Hd _].
  apply In_getNeighbors. split; [| exact Hc].
  apply distance_one_directions. apply distance_one_directions in Hd.
  unfold distance_sum in *. lia.
Qed.

Lemma getNeighbors_symmetric_witness :
  In (Hexagon_new 0 0 None VUndefined)
    (getNeighbors (Grid_new 1) (pos (Hexagon_new 1 0 None VUndefined))).
Proof.
  apply (getNeighbors_symmetric (Grid_new 1) (Hexagon_new 0 0 None VUndefined)
           (Hexagon_new 1 0 None VUndefined)).
  - vm_compute. reflexivity.
  - vm_compute. auto.
Defined.

Lemma getNeighbors_positions (g : Grid) (a : Axial) :
  map pos (getNeighbors g a)
  = filter (fun d => match getHexAt g d with Some _ => true | None => false end)
      (directions a).
Proof.
  rewrite getNeighbors_flat_map. generalize (directions a). intros ds.
  induction ds as [| d ds IH]; simpl; [reflexivity |].
  rewrite map_app, IH.
  destruct (getHexAt g d) as [h |] eqn:E; simpl; [| reflexivity].
  apply getHexAt_Some in E. destruct E as [_ ->]. reflexivity.
Qed.

Lemma Grid_new_neighbors_length (r : Z) (a : Axial) :
  length (getNeighbors (Grid_new r) a) = length (filter (in_hexagonb r) (directions a)).
Proof.
  rewrite <- (length_map pos), getNeighbors_positions. f_equal.
  apply filter_ext. intros d. rewrite Grid_new_getHexAt.
  destruct (in_hexagonb r d); reflexivity.
Qed.

(** X8.  On a new grid of radius [r >= 1] every cell has at least 3
    neighbours, and a cell that is not on the rim (a position of the hexagon
    of radius [r - 1]) has all 6. *)
Theorem Grid_new_neighbor_count (r : Z) (a : Axial) :
  1 <= r -> in_hexagon r a ->
  (3 <= length (getNeighbors (Grid_new r) a) <= 6)%nat
  /\ (in_hexagon (r - 1) a -> length (getNeighbors (Grid_new r) a) = 6%nat).
Proof.
  intros Hr Ha. rewrite Grid_new_neighbors_length.
  destruct a as [x y]. unfold directions. cbn [ax ay filter].
  repeat match goal with
         | |- context [in_hexagonb r ?d] =>
             let E := fresh "E" in
             destruct (in_hexagonb r d) eqn:E;
             [apply in_hexagonb_true in E
             | apply not_true_iff_false in E; rewrite in_hexagonb_true in E]
         end;
    unfold in_hexagon in *; cbn [ax ay length] in *; lia.
Qed.

Lemma Grid_new_neighbor_count_witness :
  (3 <= length (getNeighbors (Grid_new 2) (mkAxial 1 0)) <= 6)%nat
  /\ (in_hexagon (2 - 1) (mkAxial 1 0) ->
      length (getNeighbors (Grid_new 2) (mkAxial 1 0)) = 6%nat).
Proof.
  apply (Grid_new_neighbor_count 2 (mkAxial 1 0)).
  - lia.
  - unfold in_hexagon; simpl; lia.
Defined.

(** ** Rounding (BHex.Drawing.js) *)

Lemma Math_round_bounds (q : Q) :
  (q - (1 # 2) < Drawing.Math_round q /\ Drawing.Math_round q <= q + (1 # 2))%Q.
Proof.
  unfold Drawing.Math_round.
  pose proof (Qfloor_le (q + (1 # 2))) as Hle.
  pose proof (Qlt_floor (q + (1 # 2))) as Hlt.
  rewrite inject_Z_plus in Hlt. change (inject_Z 1) with 1%Q in Hlt.
  split; lra.
Qed.

Lemma Math_round_integer (q : Q) (i : Z) :
  (q == inject_Z i)%Q -> Drawing.Math_round q = inject_Z i.
Proof.
  intros E. unfold Drawing.Math_round. f_equal.
  rewrite E. unfold Qfloor, Qplus, inject_Z; cbn [Qnum Qden].
  change (Z.pos (1 * 2)) with 2.
  pose proof (Z.div_mod (i * 2 + 1 * 1) 2 ltac:(lia)) as Hd.
  pose proof (Z.mod_pos_bound (i * 2 + 1 * 1) 2 ltac:(lia)) as Hm. lia.
Qed.

Lemma inject_Z_neg_sub (b c : Z) :
  (- inject_Z b - inject_Z c == inject_Z (- b - c))%Q.
Proof.
  unfold Z.sub. rewrite inject_Z_plus, !inject_Z_opp. lra.
Qed.

Lemma round_integral (c : Drawing.Cube) :
  exists i j k : Z,
    Drawing.Cube_eq (Drawing.round c)
      (Drawing.mkCube (inject_Z i) (inject_Z j) (inject_Z k))
    /\ i + j + k = 0.
Proof.
  unfold Drawing.round, Drawing.Math_round, Drawing.Cube_eq.
  set (i := Qfloor (Drawing.x c + (1 # 2))).
  set (j := Qfloor (Drawing.y c + (1 # 2))).
  set (k := Qfloor (Drawing.z c + (1 # 2))).
  destruct (Qlt_bool _ _ && Qlt_bool _ _); [| destruct (Qlt_bool _ _)];
    cbn [Drawing.x Drawing.y Drawing.z].
  - exists (- j - k), j, k. repeat split; try reflexivity; try lia.
    apply inject_Z_neg_sub.
  - exists i, (- i - k), k. repeat split; try reflexivity; try lia.
    apply inject_Z_neg_sub.
  - exists i, j, (- i - j). repeat split; try reflexivity; try lia.
    apply inject_Z_neg_sub.
Qed.

(** X9.  Whatever the input, the rounded cube has integer components that
    sum to zero. *)
Theorem round_lattice_point (c : Drawing.Cube) :
  (exists i j k : Z,
     Drawing.Cube_eq (Drawing.round c)
       (Drawing.mkCube (inject_Z i) (inject_Z j) (inject_Z k))
     /\ i + j + k = 0)
  /\ (Drawing.x (Drawing.round c) + Drawing.y (Drawing.round c)
      + Drawing.z (Drawing.round c) == 0)%Q.
Proof.
  split; [apply round_integral |].
  unfold Drawing.round.
  destruct (Qlt_bool _ _ && Qlt_bool _ _); [| destruct (Qlt_bool _ _)];
    cbn [Drawing.x Drawing.y Drawing.z]; lra.
Qed.

Lemma Qabs_zero_diff (p q : Q) : (p == q)%Q -> (Qabs (p - q) == 0)%Q.
Proof.
  intros E. assert (H : (p - q == 0)%Q) by lra. rewrite H. reflexivity.
Qed.

(** Rounding leaves a cube with integer components summing to zero as it is. *)
Lemma round_fixed (c : Drawing.Cube) (i j k : Z) :
  (Drawing.x c == inject_Z i)%Q -> (Drawing.y c == inject_Z j)%Q ->
  (Drawing.z c == inject_Z k)%Q -> i + j + k = 0 ->
  Drawing.Cube_eq (Drawing.round c) c.
Proof.
  intros Ex Ey Ez Hs. unfold Drawing.round, Drawing.Cube_eq.
  rewrite (Math_round_integer _ i Ex), (Math_round_integer _ j Ey),
    (Math_round_integer _ k Ez).
  assert (Hx : (Qabs (inject_Z i - Drawing.x c) == 0)%Q) by (apply Qabs_zero_diff; lra).
  assert (Hy : (Qabs (inject_Z j - Drawing.y c) == 0)%Q) by (apply Qabs_zero_diff; lra).
  assert (Hz : (Qabs (inject_Z k - Drawing.z c) == 0)%Q) by (apply Qabs_zero_diff; lra).
  assert (B1 : Qlt_bool (Qabs (inject_Z j - Drawing.y c)) (Qabs (inject_Z i - Drawing.x c))
               = false) by (apply Qlt_bool_false; lra).
  assert (B2 : Qlt_bool (Qabs (inject_Z k - Drawing.z c)) (Qabs (inject_Z j - Drawing.y c))
               = false) by (apply Qlt_bool_false; lra).
  rewrite B1, B2. cbn [andb Drawing.x Drawing.y Drawing.z].
  split; [lra |]. split; [lra |].
  rewrite Ez. replace k with (- i - j) by lia. apply inject_Z_neg_sub.
Qed.

(** X10.  A lattice point (integer components summing to zero) rounds to
    itself. *)
Theorem round_lattice_fixed (i j k : Z) :
  i + j + k = 0 ->
  Drawing.Cube_eq
    (Drawing.round (Drawing.mkCube (inject_Z i) (inject_Z j) (inject_Z k)))
    (Drawing.mkCube (inject_Z i) (inject_Z j) (inject_Z k)).
Proof.
  intros Hs. apply (round_fixed _ i j k); simpl; auto; reflexivity.
Qed.

Lemma round_lattice_fixed_witness :
  Drawing.Cube_eq
    (Drawing.round (Drawing.mkCube (inject_Z 2) (inject_Z (-3)) (inject_Z 1)))
    (Drawing.mkCube (inject_Z 2) (inject_Z (-3)) (inject_Z 1)).
Proof. apply (round_lattice_fixed 2 (-3) 1). reflexivity. Defined.

(** X11.  Rounding twice is rounding once. *)
Theorem round_idempotent (c : Drawing.Cube) :
  Drawing.Cube_eq (Drawing.round (Drawing.round c)) (Drawing.round c).
Proof.
  destruct (round_integral c) as [i [j [k [[Ex [Ey Ez]] Hs]]]].
  apply (round_fixed _ i j k); assumption.
Qed.

(** X12.  When the input sums to zero, every component of the rounded cube
    is within 1 of the input's component. *)
Theorem round_close (c : Drawing.Cube) :
  (Drawing.x c + Drawing.y c + Drawing.z c == 0)%Q ->
  (Qabs (Drawing.x (Drawing.round c) - Drawing.x c) <= 1
   /\ Qabs (Drawing.y (Drawing.round c) - Drawing.y c) <= 1
   /\ Qabs (Drawing.z (Drawing.round c) - Drawing.z c) <= 1)%Q.
Proof.
  intros Hs. unfold Drawing.round.
  pose proof (Math_round_bounds (Drawing.x c)) as [Hx1 Hx2].
  pose proof (Math_round_bounds (Drawing.y c)) as [Hy1 Hy2].
  pose proof (Math_round_bounds (Drawing.z c)) as [Hz1 Hz2].
  destruct (Qlt_bool _ _ && Qlt_bool _ _); [| destruct (Qlt_bool _ _)];
    cbn [Drawing.x Drawing.y Drawing.z];
    repeat split; apply Qabs_Qle_condition; split; lra.
Qed.

Lemma round_close_witness :
  let c := Drawing.mkCube (6 # 10) (- (13 # 10)) (7 # 10) in
  (Qabs (Drawing.x (Drawing.round c) - Drawing.x c) <= 1
   /\ Qabs (Drawing.y (Drawing.round c) - Drawing.y c) <= 1
   /\ Qabs (Drawing.z (Drawing.round c) - Drawing.z c) <= 1)%Q.
Proof.
  apply (round_close (Drawing.mkCube (6 # 10) (- (13 # 10)) (7 # 10))).
  vm_compute. reflexivity.
Defined.

(** X13.  The conversion [getHexAt] ends with (axial to cube, round, cube to
    axial) gives back every axial position with integer coordinates. *)
Theorem nearest_integer (i j : Z) :
  (fst (Drawing.nearest (inject_Z i) (inject_Z j)) == inject_Z i
   /\ snd (Drawing.nearest (inject_Z i) (inject_Z j)) == inject_Z j)%Q.
Proof.
  unfold Drawing.nearest, Drawing.toAxial. cbn [fst snd].
  set (c := Drawing.toCube (inject_Z i) (inject_Z j)).
  assert (Ex : (Drawing.x c == inject_Z i)%Q) by reflexivity.
  assert (Ey : (Drawing.y c == inject_Z (- i - j))%Q).
  { unfold c, Drawing.toCube, Drawing.Cube_new. cbn [Drawing.y].
    apply inject_Z_neg_sub. }
  assert (Ez : (Drawing.z c == inject_Z j)%Q).
  { unfold c, Drawing.toCube, Drawing.Cube_new. cbn [Drawing.z].
    destruct (truthy (VNum (inject_Z j))); lra. }
  destruct (round_fixed c i (- i - j) j Ex Ey Ez ltac:(lia)) as [Hx [_ Hz]].
  split; lra.
Qed.

(** ** Range search, in full *)



(** X15.  On a grid without negative costs every cell [getRange] returns is
    an unblocked cell of the grid, the one [getHexAt] finds at its position;
    with a negative budget nothing is returned. *)
Theorem getRange_cells (g : Grid) (a : Axial) (m : Q) :
  costs_nonneg g ->
  exists r, getRange g a m = Some r
    /\ (forall p, In p r ->
          exists h, p = AtHexagon h /\ In h (hexes g) /\ blocked h = false
                    /\ getHexAt g (pos h) = Some h)
    /\ ((m < 0)%Q -> r = []).
Proof.
  intros Hc. destruct (getRange_returns g a m Hc) as [r [E [_ H]]].
  exists r. split; [exact E |]. split.
  - intros p Hp. apply H in Hp. destruct Hp as [h [-> [_ [route [Hto _]]]]].
    destruct (route_to_canonical g route a h Hto) as [Hcan Hb].
    exists h. repeat split; auto. apply getHexAt_Some in Hcan. tauto.
  - intros Hm. destruct r as [| p r]; [reflexivity |]. exfalso.
    destruct (proj1 (H p) (or_introl eq_refl)) as [h [_ [_ [route [[Hr _] Hle]]]]].
    pose proof (route_cost_nonneg g route Hc a Hr). lra.
Qed.

Lemma getRange_cells_witness :
  exists r, getRange (Grid_new 1) (mkAxial 0 0) (- (1)) = Some r
    /\ (forall p, In p r ->
          exists h, p = AtHexagon h /\ In h (hexes (Grid_new 1)) /\ blocked h = false
                    /\ getHexAt (Grid_new 1) (pos h) = Some h)
    /\ ((- (1) < 0)%Q -> r = []).
Proof.
  apply (getRange_cells (Grid_new 1) (mkAxial 0 0) (- (1))).
  intros h Hin. vm_compute in Hin.
  repeat (destruct Hin as [<- | Hin]; [vm_compute; discriminate |]). contradiction.
Defined.

(** ** Path search, in general *)

(** What [pop] returns from a non-empty array, heap or not. *)
Lemma Heap_pop_Permutation (score : nat -> Q) (c : list nat) :
  c <> [] ->
  exists x rest, Heap_pop score c = Some (x, rest) /\ Permutation (x :: rest) c.
Proof.
  intros Hne. destruct c as [| x t]; [contradiction |].
  unfold Heap_pop. eexists. eexists. split; [reflexivity |].
  pose proof (app_removelast_last 0%nat Hne) as Esplit.
  set (rest := removelast (x :: t)) in *. set (l := last (x :: t) 0%nat) in *.
  assert (Hlen : length (x :: t) = S (length rest)).
  { rewrite Esplit at 1. rewrite length_app. simpl. lia. }
  destruct (Nat.ltb_spec 0 (length rest)) as [Hpos | Hzero].
  - destruct rest as [| r rest'] eqn:Er; [simpl in Hpos; lia |].
    assert (r = x) by (simpl in Esplit; congruence). subst r.
    rewrite siftDown_Permutation by (rewrite update_length; simpl; lia).
    simpl. rewrite Esplit. simpl.
    apply perm_skip. apply Permutation_cons_append.
  - destruct rest; [| simpl in Hzero; lia].
    rewrite Esplit. simpl. simpl in Hlen.
    destruct t; [| simpl in Hlen; lia]. reflexivity.
Qed.

Lemma Node_new_hex_parent (p : Place) (par : option nat) (g : Q) (h : option Q) :
  hex (Node_new p par g h) = p /\ parent (Node_new p par g h) = par.
Proof. split; reflexivity. Qed.

Section PathInvariant.

Variable g : Grid.
Variable a b : Axial.

Lemma path_init_inv : path_inv g a b (path_init a b).
Proof.
  assert (Hd : forall id n, deref (store (path_init a b)) id = Some n -> id = 0%nat).
  { intros [| id] n E; [reflexivity |]. simpl in E. destruct id; discriminate. }
  split; [| right; split; reflexivity].
  constructor.
  - eexists. split; [reflexivity |]. split; reflexivity.
  - reflexivity.
  - intros id n E Hid. apply Hd in E. lia.
  - intros id Hin. simpl in Hin. destruct Hin as [<- | []]. simpl. lia.
  - simpl. constructor; [simpl; tauto | constructor].
  - intros k Hk. discriminate.
  - intros id n E Hn. apply Hd in E. subst id. exfalso. apply Hn. simpl. auto.
Qed.

(** The path that backtracking from a node yields is a route from the start
    to the cell of that node. *)
Lemma backtrack_route (s : Search nat) (cur : nat) (pending : list Hexagon) :
  path_mid g a b cur pending s ->
  forall id fuel n, (id < fuel)%nat -> deref (store s) id = Some n ->
  exists route,
    rev (map hex (backtrack fuel (store s) id)) = map AtHexagon route
    /\ is_route g a route
    /\ (forall c, In c route -> pos c <> a)
    /\ (id = 0%nat -> route = [])
    /\ ((1 <= id)%nat ->
        exists h, hex n = AtHexagon h /\ route <> [] /\ last route h = h).
Proof.
  intros Hmid id. induction id as [id IH] using (well_founded_induction lt_wf).
  intros fuel n Hfuel E. destruct fuel as [| fuel]; [lia |].
  cbn [backtrack]. rewrite E.
  destruct id as [| id].
  - destruct (pm_root _ _ _ _ _ _ Hmid) as [n0 [E0 [_ Hp]]].
    assert (n = n0) by congruence. subst n. rewrite Hp.
    exists []. simpl. split; [reflexivity |]. split; [exact I |].
    split; [intros c [] |]. split; [reflexivity | intros; lia].
  - destruct (pm_cell _ _ _ _ _ _ Hmid _ _ E ltac:(lia))
      as [h [p [np [Hhex [Hpar [Hlt [Ep [Hin [Hb Hpa]]]]]]]]].
    rewrite Hpar.
    destruct (IH p Hlt fuel np ltac:(lia) Ep) as [route [Hrev [Hr [Hna [H0 H1]]]]].
    cbn [map rev]. rewrite Hrev, Hhex.
    exists (route ++ [h])%list. split; [rewrite map_app; reflexivity |].
    assert (Hto : route_to g a (route ++ [h]) h).
    { destruct p as [| p].
      - rewrite (H0 eq_refl). simpl.
        destruct (pm_root _ _ _ _ _ _ Hmid) as [n0 [E0 [Hhex0 _]]].
        assert (np = n0) by congruence. subst np. rewrite Hhex0 in Hin.
        apply (route_single g a h Hin Hb).
      - destruct (H1 ltac:(lia)) as [hp [Hhexp [Hne Hlast]]].
        rewrite Hhexp in Hin.
        apply (route_extend g route a hp h); [| exact Hin | exact Hb].
        split; [exact Hr | split; [exact Hlast | exact Hne]]. }
    destruct Hto as [Hr' [Hlast' Hne']].
    split; [exact Hr' |]. split.
    { intros c Hc. apply in_app_iff in Hc. destruct Hc as [Hc | [<- | []]]; auto. }
    split; [intros; lia |].
    intros _. exists h. auto.
Qed.

(** A neighbour that needs no node: it is blocked, or a node stands there. *)
Lemma path_mid_skip (s : Search nat) (cur : nat) (nc : Node) (h : Hexagon)
  (rest : list Hexagon) :
  path_mid g a b cur (h :: rest) s ->
  deref (store s) cur = Some nc ->
  In h (getNeighbors g (place (hex nc))) ->
  (blocked h = false ->
   exists id' n', deref (store s) id' = Some n' /\ place (hex n') = pos h) ->
  path_mid g a b cur rest s.
Proof.
  intros Hmid Ec Hin Hh. destruct Hmid. constructor; auto.
  intros id n E Hn. destruct (pm_expanded0 id n E Hn) as [Hb Hnb].
  split; [exact Hb |]. intros h0 Hin0 Hb0 Hpend.
  destruct (Nat.eq_dec id cur) as [-> | Hne].
  - assert (n = nc) by congruence. subst n.
    destruct (Axial_eq_dec (pos h0) (pos h)) as [Ep | Hp].
    + assert (h0 = h).
      { apply In_getNeighbors in Hin, Hin0. destruct Hin as [_ Hin], Hin0 as [_ Hin0].
        rewrite Ep in Hin0. congruence. }
      subst h0. apply Hh, Hb0.
    + apply (Hnb h0 Hin0 Hb0). intros _ [E0 | Hr]; [subst h0; congruence |].
      apply (Hpend eq_refl Hr).
  - apply (Hnb h0 Hin0 Hb0). intros E0. contradiction.
Qed.

(** Visiting one neighbour keeps the invariant and does not raise the
    measure. *)
Lemma path_mid_visit (s : Search nat) (cur : nat) (nc : Node) (h : Hexagon)
  (rest : list Hexagon) :
  path_mid g a b cur (h :: rest) s ->
  obj_has (closedHexes s) (getKey a) = true ->
  deref (store s) cur = Some nc ->
  In h (getNeighbors g (place (hex nc))) ->
  path_mid g a b cur rest (path_visit b cur s h)
  /\ obj_has (closedHexes (path_visit b cur s h)) (getKey a) = true
  /\ deref (store (path_visit b cur s h)) cur = Some nc
  /\ (path_measure g (path_visit b cur s h) <= path_measure g s)%nat.
Proof.
  intros Hmid Ha Ec Hin. unfold path_visit.
  rewrite (pm_visited _ _ _ _ _ _ Hmid). cbn [obj_get].
  destruct (blocked h) eqn:Hb; cbn [orb].
  { split; [| auto]. apply (path_mid_skip s cur nc h rest Hmid Ec Hin).
    intros Hb'. congruence. }
  destruct (obj_has (closedHexes s) (getKey (pos h))) eqn:Hnc.
  { split; [| auto]. apply (path_mid_skip s cur nc h rest Hmid Ec Hin).
    intros _. destruct (pm_closed _ _ _ _ _ _ Hmid _ Hnc) as [id [n [E Ek]]].
    exists id, n. split; [exact E | apply getKey_inj; exact Ek]. }
  set (nNode := Node_new (AtHexagon h) (Some cur)
                  (G_of (store s) cur + cost h) (Some (getDistance (pos h) b))).
  destruct (Node_new_hex_parent (AtHexagon h) (Some cur)
              (G_of (store s) cur + cost h) (Some (getDistance (pos h) b)))
    as [Nhex Npar].
  fold nNode in Nhex, Npar. rewrite Nhex. cbn [place].
  assert (Nkey : key_of nNode = getKey (pos h)) by (unfold key_of; rewrite Nhex; reflexivity).
  assert (Hpa : pos h <> a) by (intros E; rewrite E in Hnc; congruence).
  pose proof (deref_lt _ _ _ Ec) as Hcur.
  assert (Hcell : In h (hexes g)).
  { apply In_getNeighbors in Hin. destruct Hin as [_ Hin].
    apply getHexAt_Some in Hin. tauto. }
  destruct Hmid. split; [| split; [| split]].
  - constructor; cbn [store openHeap closedHexes visitedNodes].
    + destruct pm_root0 as [n0 [E0 H0]]. exists n0.
      split; [apply deref_app_old; exact E0 | exact H0].
    + reflexivity.
    + intros id n E Hid. apply deref_app_inv in E. destruct E as [[_ E] | [-> ->]].
      * destruct (pm_cell0 id n E Hid) as [h0 [p [np [H1 [H2 [H3 [H4 H5]]]]]]].
        exists h0, p, np. repeat split; try tauto. apply deref_app_old, H4.
      * exists h, cur, nc. repeat split; auto. apply deref_app_old, Ec.
    + intros id Hid. apply (Permutation_in _ (Heap_push_Permutation _ _ _)) in Hid.
      rewrite length_app. cbn [length]. destruct Hid as [<- | Hid]; [lia |].
      apply pm_heap_bound0 in Hid. lia.
    + apply (Permutation_NoDup (Permutation_sym (Heap_push_Permutation _ _ _))).
      constructor; [| exact pm_heap_nodup0].
      intros Hx. apply pm_heap_bound0 in Hx. lia.
    + intros k Hk. rewrite obj_has_set in Hk. apply orb_true_iff in Hk.
      destruct Hk as [Hk | Hk].
      * apply String.eqb_eq in Hk. exists (length (store s)), nNode.
        split; [apply deref_app_new | congruence].
      * destruct (pm_closed0 k Hk) as [id [n [E Ek]]].
        exists id, n. split; [apply deref_app_old; exact E | exact Ek].
    + intros id n E Hn. apply deref_app_inv in E. destruct E as [[_ E] | [-> ->]].
      * assert (Hn0 : ~ In id (openHeap s)).
        { intros Hx. apply Hn.
          apply (Permutation_in _ (Permutation_sym (Heap_push_Permutation _ _ _))).
          right. exact Hx. }
        destruct (pm_expanded0 id n E Hn0) as [Hpb Hnb]. split; [exact Hpb |].
        intros h0 Hin0 Hb0 Hpend.
        destruct (Nat.eq_dec id cur) as [-> | Hne].
        -- assert (n = nc) by congruence. subst n.
           destruct (Axial_eq_dec (pos h0) (pos h)) as [Ep | Hp].
           ++ exists (length (store s)), nNode.
              split; [apply deref_app_new | rewrite Nhex, Ep; reflexivity].
           ++ destruct (Hnb h0 Hin0 Hb0) as [id' [n' [E' Hp']]].
              { intros _ [E0 | Hr]; [subst h0; congruence | apply (Hpend eq_refl Hr)]. }
              exists id', n'. split; [apply deref_app_old; exact E' | exact Hp'].
        -- destruct (Hnb h0 Hin0 Hb0) as [id' [n' [E' Hp']]]; [intros; contradiction |].
           exists id', n'. split; [apply deref_app_old; exact E' | exact Hp'].
      * exfalso. apply Hn.
        apply (Permutation_in _ (Permutation_sym (Heap_push_Permutation _ _ _))).
        left. reflexivity.
  - cbn [closedHexes]. rewrite obj_has_set, Ha. apply orb_true_r.
  - cbn [store]. apply deref_app_old, Ec.
  - unfold path_measure, unclosed_cells. cbn [openHeap closedHexes].
    rewrite (Permutation_length (Heap_push_Permutation _ _ _)). cbn [length].
    assert (Hlt : (length (filter
                     (fun k => negb (obj_has
                        (obj_set (closedHexes s) (getKey (pos h)) (length (store s))) k))
                     (map (fun h0 => getKey (pos h0)) (hexes g)))
                   < length (filter (fun k => negb (obj_has (closedHexes s) k))
                       (map (fun h0 => getKey (pos h0)) (hexes g))))%nat).
    { apply (filter_length_lt _ _ _ (getKey (pos h))).
      - intros k Hk. rewrite obj_has_set in Hk.
        apply negb_true_iff in Hk. apply orb_false_iff in Hk.
        apply negb_true_iff. tauto.
      - apply in_map_iff. exists h. auto.
      - rewrite Hnc. reflexivity.
      - rewrite obj_has_set, String.eqb_refl. reflexivity. }
    lia.
Qed.

(** Visiting all the neighbours of the popped node. *)
Lemma path_mid_fold (cur : nat) (nc : Node) (pending : list Hexagon) :
  forall s : Search nat,
  path_mid g a b cur pending s ->
  obj_has (closedHexes s) (getKey a) = true ->
  deref (store s) cur = Some nc ->
  (forall h, In h pending -> In h (getNeighbors g (place (hex nc)))) ->
  path_mid g a b cur [] (fold_left (path_visit b cur) pending s)
  /\ obj_has (closedHexes (fold_left (path_visit b cur) pending s)) (getKey a) = true
  /\ (path_measure g (fold_left (path_visit b cur) pending s) <= path_measure g s)%nat.
Proof.
  induction pending as [| h rest IH]; intros s Hmid Ha Ec Hsub; simpl; [auto |].
  destruct (path_mid_visit s cur nc h rest Hmid Ha Ec (Hsub h (or_introl eq_refl)))
    as [Hmid' [Ha' [Ec' Hm']]].
  destruct (IH _ Hmid' Ha' Ec' (fun h' H' => Hsub h' (or_intror H'))) as [Hfin [Ha'' Hm'']].
  split; [exact Hfin |]. split; [exact Ha'' | lia].
Qed.

Lemma path_mid_done (s : Search nat) (cur cur' : nat) :
  path_mid g a b cur [] s -> path_mid g a b cur' [] s.
Proof.
  intros Hmid. destruct Hmid. constructor; auto.
  intros id n E Hn. destruct (pm_expanded0 id n E Hn) as [Hb Hnb].
  split; [exact Hb |]. intros h Hin Hbl _. apply (Hnb h Hin Hbl). intros _ [].
Qed.

(** One pass of the loop of [findPath]: it returns a result, or goes on with
    the invariant and a smaller measure. *)
Lemma path_step_inv (s : Search nat) :
  path_inv g a b s -> openHeap s <> [] ->
  (exists path, path_step g b s = Some (Return path) /\ path_result g a b path)
  \/ (exists s', path_step g b s = Some (Continue s') /\ path_inv g a b s'
                 /\ (path_measure g s' < path_measure g s)%nat).
Proof.
  intros [Hmid Hstart] Hne.
  destruct (Heap_pop_Permutation (scoreF (store s)) (openHeap s) Hne)
    as [x [rest [Epop Hperm]]].
  assert (Hx : In x (openHeap s)) by (apply (Permutation_in _ Hperm); left; reflexivity).
  pose proof (pm_heap_bound _ _ _ _ _ _ Hmid x Hx) as Hxlt.
  destruct (deref_Some _ _ Hxlt) as [cNode Ec].
  assert (Hnd : NoDup (x :: rest)).
  { apply (Permutation_NoDup (Permutation_sym Hperm)), (pm_heap_nodup _ _ _ _ _ _ Hmid). }
  inversion Hnd as [| ? ? Hxr Hndr]; subst.
  unfold path_step. rewrite Epop, Ec.
  destruct (compareTo (place (hex cNode)) b) eqn:Ecmp.
  - left. eexists. split; [reflexivity |].
    apply compareTo_true in Ecmp.
    destruct (backtrack_route s 0 [] Hmid x (length (store s)) cNode Hxlt Ec)
      as [route [Hrev [Hr [Hna [H0 H1]]]]].
    rewrite Hrev. destruct x as [| x].
    + left. rewrite (H0 eq_refl). split; [reflexivity |]. left.
      destruct (pm_root _ _ _ _ _ _ Hmid) as [n0 [E0 [Hhex0 _]]].
      assert (cNode = n0) by congruence. subst cNode.
      rewrite Hhex0 in Ecmp. exact Ecmp.
    + right. destruct (H1 ltac:(lia)) as [h [Hhex [Hrne Hlast]]].
      rewrite Hhex in Ecmp. cbn [place] in Ecmp.
      destruct (pm_cell _ _ _ _ _ _ Hmid _ _ Ec ltac:(lia))
        as [h' [_ [_ [Hhex' [_ [_ [_ [_ [_ Hpa]]]]]]]]].
      assert (h' = h) by congruence. subst h'.
      split; [congruence |].
      exists route, h. split; [reflexivity |].
      split; [split; [exact Hr | split; [exact Hlast | exact Hrne]] |].
      split; [exact Ecmp | exact Hna].
  - right. apply compareTo_false in Ecmp. fold (key_of cNode).
    set (s1 := {| store := store s; openHeap := rest;
                  closedHexes := obj_set (closedHexes s) (key_of cNode) x;
                  visitedNodes := visitedNodes s |}).
    assert (Hmid1 : path_mid g a b x (getNeighbors g (place (hex cNode))) s1).
    { destruct Hmid. constructor; cbn [s1 store openHeap closedHexes visitedNodes]; auto.
      - intros id Hid. apply pm_heap_bound0. apply (Permutation_in _ Hperm).
        right. exact Hid.
      - intros k Hk. rewrite obj_has_set in Hk. apply orb_true_iff in Hk.
        destruct Hk as [Hk | Hk]; [| apply pm_closed0, Hk].
        apply String.eqb_eq in Hk. exists x, cNode. auto.
      - intros id n E Hn. destruct (Nat.eq_dec id x) as [-> | Hidx].
        + assert (n = cNode) by congruence. subst n.
          split; [exact Ecmp |]. intros h Hin _ Hpend. exfalso.
          apply (Hpend eq_refl Hin).
        + assert (Hn0 : ~ In id (openHeap s)).
          { intros Hid. apply (Permutation_in _ (Permutation_sym Hperm)) in Hid.
            destruct Hid as [E0 | Hid]; [congruence | contradiction]. }
          destruct (pm_expanded0 id n E Hn0) as [Hb Hnb].
          split; [exact Hb |]. intros h Hin Hbl _. apply (Hnb h Hin Hbl). intros _ []. }
    assert (Ha1 : obj_has (closedHexes s1) (getKey a) = true).
    { cbn [s1 closedHexes]. rewrite obj_has_set.
      destruct Hstart as [Hst | [Eh Hlen]]; [rewrite Hst; apply orb_true_r |].
      assert (x = 0%nat) by lia. subst x.
      destruct (pm_root _ _ _ _ _ _ Hmid) as [n0 [E0 [Hhex0 _]]].
      assert (cNode = n0) by congruence. subst cNode.
      unfold key_of. rewrite Hhex0. cbn [place]. rewrite String.eqb_refl. reflexivity. }
    destruct (path_mid_fold x cNode _ s1 Hmid1 Ha1 Ec (fun h H => H))
      as [Hfin [Hafin Hmfin]].
    eexists. split; [reflexivity |]. split.
    + split; [apply (path_mid_done _ x 0), Hfin | left; exact Hafin].
    + assert (Hm1 : (path_measure g s1 < path_measure g s)%nat).
      { unfold path_measure, unclosed_cells. cbn [s1 openHeap closedHexes].
        rewrite <- (Permutation_length Hperm). cbn [length].
        assert (Hle : (length (filter
                         (fun k => negb (obj_has (obj_set (closedHexes s) (key_of cNode) x) k))
                         (map (fun h => getKey (pos h)) (hexes g)))
                       <= length (filter (fun k => negb (obj_has (closedHexes s) k))
                            (map (fun h => getKey (pos h)) (hexes g))))%nat).
        { apply filter_length_mono. intros k Hk. rewrite obj_has_set in Hk.
          apply negb_true_iff in Hk. apply orb_false_iff in Hk.
          apply negb_true_iff. tauto. }
        lia. }
      lia.
Qed.

(** When the heap is empty, a route from the position of a node leads to the
    position of a node. *)
Lemma path_reach (s : Search nat) (h : Hexagon) :
  path_mid g a b 0 [] s -> openHeap s = [] ->
  forall (route : list Hexagon) (u : nat) (nu : Node),
  deref (store s) u = Some nu ->
  is_route g (place (hex nu)) route -> route <> [] -> last route h = h ->
  exists id' n', deref (store s) id' = Some n' /\ place (hex n') = pos h.
Proof.
  intros Hmid Eh.
  induction route as [| h1 rest IH]; intros u nu Eu Hr Hne Hlast; [contradiction |].
  simpl in Hr. destruct Hr as [Hin [Hb Hr]].
  assert (Hn : ~ In u (openHeap s)) by (rewrite Eh; intros []).
  destruct (pm_expanded _ _ _ _ _ _ Hmid u nu Eu Hn) as [_ Hnb].
  destruct (Hnb h1 Hin Hb ltac:(intros _ [])) as [id' [n' [E' Hp]]].
  destruct rest as [| h2 rest].
  - simpl in Hlast. subst h1. eauto.
  - apply (IH id' n' E'); [rewrite Hp; exact Hr | discriminate | exact Hlast].
Qed.

(** The loop of [findPath] ends within the fuel, with a result of the kind
    [path_result] describes. *)
Lemma path_loop_inv (fuel : nat) : forall s : Search nat,
  path_inv g a b s -> (path_measure g s <= fuel)%nat ->
  exists path, path_loop fuel g b s = Some path /\ path_result g a b path.
Proof.
  assert (Hempty : forall s, path_inv g a b s -> openHeap s = [] ->
                     path_result g a b []).
  { intros s [Hmid _] Eh. left. split; [reflexivity |]. right.
    intros [route [h [Hto Hb]]].
    destruct (pm_root _ _ _ _ _ _ Hmid) as [n0 [E0 [Hhex0 _]]].
    destruct Hto as [Hr [Hlast Hne]].
    destruct (path_reach s h Hmid Eh route 0%nat n0 E0) as [id' [n' [E' Hp]]]; auto.
    { rewrite Hhex0. exact Hr. }
    assert (Hn : ~ In id' (openHeap s)) by (rewrite Eh; intros []).
    destruct (pm_expanded _ _ _ _ _ _ Hmid id' n' E' Hn) as [Hnb _].
    congruence. }
  induction fuel as [| fuel IH]; intros s Hinv Hfuel.
  - destruct (openHeap s) as [| x rest] eqn:Eh.
    + exists []. split; [simpl; rewrite Eh; reflexivity | apply (Hempty s Hinv Eh)].
    + unfold path_measure in Hfuel. rewrite Eh in Hfuel. simpl in Hfuel. lia.
  - destruct (openHeap s) as [| x rest] eqn:Eh.
    + exists []. split; [simpl; rewrite Eh; reflexivity | apply (Hempty s Hinv Eh)].
    + cbn [path_loop]. rewrite Eh. cbn [Heap_size length Nat.ltb Nat.leb].
      destruct (path_step_inv s Hinv) as [[path [Estep Hres]] | [s' [Estep [Hinv' Hlt]]]];
        [rewrite Eh; discriminate | |].
      * rewrite Estep. eauto.
      * rewrite Estep. apply IH; [exact Hinv' | lia].
Qed.

Lemma findPath_returns : exists path, findPath g a b = Some path /\ path_result g a b path.
Proof.
  unfold findPath, findPath_fuel. apply path_loop_inv; [apply path_init_inv |].
  unfold path_measure, unclosed_cells.
  pose proof (filter_length_le (fun k => negb (obj_has (closedHexes (path_init a b)) k))
                (map (fun h => getKey (pos h)) (hexes g))) as Hle.
  rewrite length_map in Hle. simpl. simpl in Hle. lia.
Qed.

End PathInvariant.

(** X16.  [findPath] always returns.  It returns the empty path exactly when
    start and end are the same position or no route through unblocked cells
    leads from the start to a cell at the end; otherwise it returns the
    cells of such a route: each an unblocked cell next to the one before it
    (the first next to the start), the last one at the end, none at the
    start's position. *)
Theorem findPath_route (g : Grid) (a b : Axial) :
  exists path,
    findPath g a b = Some path
    /\ ((path = []
         /\ (a = b \/ ~ exists route h, route_to g a route h /\ pos h = b))
        \/ (a <> b
            /\ exists route h,
                 path = map AtHexagon route /\ route_to g a route h /\ pos h = b
                 /\ forall c, In c route -> pos c <> a)).
Proof.
  destruct (findPath_returns g a b) as [path [E Hres]].
  exists path. split; [exact E | exact Hres].
Qed.

(** X17.  [findPath] returns the empty path when start and end are the same
    position, when the grid has no cell at the end, and when the cell at the
    end is blocked. *)
Theorem findPath_empty (g : Grid) (a b : Axial) :
  findPath g a a = Some []
  /\ (getHexAt g b = None -> findPath g a b = Some [])
  /\ (forall h, getHexAt g b = Some h -> blocked h = true -> findPath g a b = Some []).
Proof.
  assert (Hno : forall b', (forall route h, route_to g a route h -> pos h <> b') ->
                  findPath g a b' = Some []).
  { intros b' Hn. destruct (findPath_returns g a b') as [path [E Hres]].
    rewrite E. destruct Hres as [[-> _] | [_ [route [h [_ [Hto [Hb _]]]]]]];
      [reflexivity |].
    exfalso. apply (Hn route h Hto Hb). }
  split; [| split].
  - destruct (findPath_returns g a a) as [path [E Hres]].
    rewrite E. destruct Hres as [[-> _] | [Hne _]]; [reflexivity | contradiction].
  - intros Hnone. apply Hno. intros route h Hto Hb.
    destruct (route_to_canonical g route a h Hto) as [Hcan _].
    rewrite Hb in Hcan. congruence.
  - intros h Hsome Hbl. apply Hno. intros route h' Hto Hb.
    destruct (route_to_canonical g route a h' Hto) as [Hcan Hunb].
    rewrite Hb in Hcan. congruence.
Qed.

(** The cost of a returned path is the cost of its route. *)
Lemma total_cost_route (route : list Hexagon) :
  total_cost (map AtHexagon route) = route_cost route.
Proof.
  induction route as [| x route IH]; [reflexivity |].
  change (total_cost (map AtHexagon (x :: route)))
    with (cost x + total_cost (map AtHexagon route))%Q.
  rewrite IH. reflexivity.
Qed.

(** Every cell of a route is reached by a part of the route that costs no
    more. *)
Lemma route_prefix (g : Grid) (route : list Hexagon) :
  costs_nonneg g ->
  forall (a : Axial) (c : Hexagon), is_route g a route -> In c route ->
  exists pre, route_to g a pre c /\ (route_cost pre <= route_cost route)%Q.
Proof.
  intros Hc. induction route as [| x route IH]; intros a c Hr Hin; [contradiction |].
  simpl in Hr. destruct Hr as [Hx [Hb Hr]].
  pose proof (route_cost_nonneg g route Hc (pos x) Hr) as Hnn.
  change (route_cost (x :: route)) with (cost x + route_cost route)%Q.
  destruct Hin as [-> | Hin].
  - exists [c]. destruct (route_single g a c Hx Hb) as [Hto Hcost].
    split; [exact Hto |]. rewrite Hcost. lra.
  - destruct (IH (pos x) c Hr Hin) as [pre [[Hpr [Hlast Hne]] Hle]].
    exists (x :: pre). split.
    + split; [| split; [| discriminate]].
      * simpl. auto.
      * destruct pre; [contradiction | exact Hlast].
    + change (route_cost (x :: pre)) with (cost x + route_cost pre)%Q. lra.
Qed.

(** X18.  On a grid without negative costs every cell of the path [findPath]
    returns is among the cells [getRange] returns from the same start with
    the total cost of the path as budget. *)
Theorem findPath_within_getRange (g : Grid) (a b : Axial) :
  costs_nonneg g ->
  exists path r,
    findPath g a b = Some path
    /\ getRange g a (total_cost path) = Some r
    /\ incl path r.
Proof.
  intros Hc. destruct (findPath_returns g a b) as [path [E Hres]].
  destruct (getRange_returns g a (total_cost path) Hc) as [r [Er [_ H]]].
  exists path, r. split; [exact E |]. split; [exact Er |].
  destruct Hres as [[-> _] | [_ [route [h [-> [[Hr _] [_ Hna]]]]]]].
  - intros p [].
  - intros p Hp. apply in_map_iff in Hp. destruct Hp as [c [<- Hin]].
    apply H. exists c. split; [reflexivity |]. split; [apply Hna, Hin |].
    rewrite total_cost_route.
    apply (route_prefix g route Hc a c Hr Hin).
Qed.

Lemma findPath_within_getRange_witness :
  exists path r,
    findPath (Grid_new 1) (mkAxial (-1) 0) (mkAxial 1 0) = Some path
    /\ getRange (Grid_new 1) (mkAxial (-1) 0) (total_cost path) = Some r
    /\ incl path r.
Proof.
  apply (findPath_within_getRange (Grid_new 1) (mkAxial (-1) 0) (mkAxial 1 0)).
  intros h Hin. vm_compute in Hin.
  repeat (destruct Hin as [<- | Hin]; [vm_compute; discriminate |]). contradiction.
Defined.

(** X19.  When every cell costs at least 1, the distance [findPath] uses as
    its estimate never exceeds the cost of a route: [getDistance(a, b)] is at
    most the cost of any route from [a] to a cell at [b]. *)
Theorem getDistance_admissible (g : Grid) (route : list Hexagon) :
  (forall h, In h (hexes g) -> (1 <= cost h)%Q) ->
  forall (a : Axial) (h : Hexagon),
  route_to g a route h -> (getDistance a (pos h) <= route_cost route)%Q.
Proof.
  intros Hc. induction route as [| x route IH]; intros a h [Hr [Hlast Hne]];
    [contradiction |].
  simpl in Hr. destruct Hr as [Hx [_ Hr]].
  apply In_getNeighbors in Hx. destruct Hx as [Hdir Hcan].
  apply getHexAt_Some in Hcan. destruct Hcan as [Hin _].
  specialize (Hc x Hin). apply directions_distance in Hdir.
  change (route_cost (x :: route)) with (cost x + route_cost route)%Q.
  assert (E : (getDistance a (pos x) == inject_Z 1)%Q) by (apply getDistance_eq; lia).
  change (inject_Z 1) with 1%Q in E.
  destruct route as [| y route].
  - simpl in Hlast. subst x. change (route_cost []) with 0%Q. lra.
  - assert (Hto : route_to g (pos x) (y :: route) h).
    { split; [exact Hr | split; [exact Hlast | discriminate]]. }
    specialize (IH (pos x) h Hto).
    pose proof (getDistance_triangle a (pos h) (pos x)) as Htri. lra.
Qed.

Lemma getDistance_admissible_witness :
  (getDistance (mkAxial 0 0) (pos (Hexagon_new 1 0 None VUndefined))
   <= route_cost [Hexagon_new 1 0 None VUndefined])%Q.
Proof.
  apply (getDistance_admissible (Grid_new 1) [Hexagon_new 1 0 None VUndefined]).
  - intros h Hin. vm_compute in Hin.
    repeat (destruct Hin as [<- | Hin]; [vm_compute; discriminate |]). contradiction.
  - split; [| split; [reflexivity | discriminate]].
    vm_compute. auto.
Defined.

Lemma getDistance_le_Z (a b : Axial) (k : Z) :
  distance_sum a b <= 2 * k -> (getDistance a b <= inject_Z k)%Q.
Proof.
  intros H. unfold getDistance, Qle, Qdiv, Qmult, inject_Z.
  change (/ 2)%Q with (1 # 2)%Q; cbn [Qnum Qden]. lia.
Qed.

Lemma route_length_distance (g : Grid) (route : list Hexagon) :
  forall (a : Axial) (h : Hexagon),
  route_to g a route h -> distance_sum a (pos h) <= 2 * Z.of_nat (length route).
Proof.
  induction route as [| x route IH]; intros a h [Hr [Hlast Hne]]; [contradiction |].
  simpl in Hr. destruct Hr as [Hx [_ Hr]].
  apply In_getNeighbors in Hx. destruct Hx as [Hdir _].
  apply directions_distance in Hdir.
  destruct route as [| y route].
  - simpl in Hlast. subst x. simpl. lia.
  - assert (Hto : route_to g (pos x) (y :: route) h).
    { split; [exact Hr | split; [exact Hlast | discriminate]]. }
    specialize (IH (pos x) h Hto).
    change (length (x :: y :: route)) with (S (length (y :: route))).
    rewrite Nat2Z.inj_succ. unfold distance_sum in *. lia.
Qed.

(** X20.  A path [findPath] returns is never shorter than the distance: when
    it is not empty, the number of its cells is at least
    [getDistance(start, end)]. *)
Theorem findPath_length (g : Grid) (a b : Axial) :
  exists path,
    findPath g a b = Some path
    /\ (path <> [] -> (getDistance a b <= inject_Z (Z.of_nat (length path)))%Q).
Proof.
  destruct (findPath_returns g a b) as [path [E Hres]].
  exists path. split; [exact E |]. intros Hne.
  destruct Hres as [[-> _] | [_ [route [h [-> [Hto [<- _]]]]]]]; [contradiction |].
  rewrite length_map. apply getDistance_le_Z.
  apply (route_length_distance g route a h Hto).
Qed.

(** X21.  On a grid without negative costs, for every cell [getRange]
    returns, [findPath] from the same start to that cell returns a path that
    is not empty. *)
Theorem getRange_findPath (g : Grid) (a : Axial) (m : Q) (h : Hexagon) :
  costs_nonneg g ->
  exists r, getRange g a m = Some r
    /\ (In (AtHexagon h) r ->
        exists path, findPath g a (pos h) = Some path /\ path <> []).
Proof.
  intros Hc. destruct (getRange_returns g a m Hc) as [r [E [_ H]]].
  exists r. split; [exact E |]. intros Hin.
  apply H in Hin. destruct Hin as [h' [Eh [Hpa [route [Hto _]]]]].
  inversion Eh. subst h'.
  destruct (findPath_returns g a (pos h)) as [path [Ep Hres]].
  exists path. split; [exact Ep |].
  destruct Hres as [[_ [Eab | Hno]] | [_ [route' [h' [-> [[_ [_ Hne]] _]]]]]].
  - congruence.
  - exfalso. apply Hno. exists route, h. auto.
  - destruct route'; [contradiction | discriminate].
Qed.

Lemma getRange_findPath_witness :
  exists r, getRange (Grid_new 1) (mkAxial 0 0) 1 = Some r
    /\ (In (AtHexagon (Hexagon_new 1 0 None VUndefined)) r ->
        exists path,
          findPath (Grid_new 1) (mkAxial 0 0) (pos (Hexagon_new 1 0 None VUndefined))
          = Some path /\ path <> []).
Proof.
  apply (getRange_findPath (Grid_new 1) (mkAxial 0 0) 1 (Hexagon_new 1 0 None VUndefined)).
  intros h Hin. vm_compute in Hin.
  repeat (destruct Hin as [<- | Hin]; [vm_compute; discriminate |]). contradiction.
Defined.

(** X22.  [getHexAt] finds nothing exactly when no cell of the grid is at the
    position; what it finds is a cell of the grid at that position, the
    first one in [hexes], and looking up the position of a found cell finds
    the same cell again. *)
Theorem getHexAt_lookup (g : Grid) (a : Axial) :
  (getHexAt g a = None <-> forall h, In h (hexes g) -> pos h <> a)
  /\ (forall h, getHexAt g a = Some h ->
        In h (hexes g) /\ pos h = a /\ getHexAt g (pos h) = Some h
        /\ exists before after,
             hexes g = (before ++ h :: after)%list
             /\ forall h', In h' before -> pos h' <> a).
Proof.
  split.
  - split.
    + intros E h Hin. unfold getHexAt in E.
      apply (find_none _ _ E) in Hin. apply compareTo_false in Hin. exact Hin.
    + intros Hn. destruct (getHexAt g a) as [h |] eqn:E; [| reflexivity].
      apply getHexAt_Some in E. destruct E as [Hin Hp]. exfalso. apply (Hn h Hin Hp).
  - intros h E. pose proof (getHexAt_Some g a h E) as [Hin Hp].
    split; [exact Hin |]. split; [exact Hp |]. split; [rewrite Hp; exact E |].
    unfold getHexAt in E. clear Hin. induction (hexes g) as [| x l IH]; [discriminate |].
    simpl in E. destruct (compareTo (pos x) a) eqn:Ex.
    + inversion E. subst x. exists [], l. split; [reflexivity |]. intros h' [].
    + destruct (IH E) as [before [after [El Hb]]].
      exists (x :: before), after. split; [simpl; rewrite El; reflexivity |].
      intros h' [<- | Hin']; [apply compareTo_false; exact Ex | apply Hb, Hin'].
Qed.
